(** * turnip: shape-based resolution of JSON documents

    A shallow embedding of the Go package [turnip] (files [resolver.go],
    [unmarshaler.go], [parameter.go]) together with the small parts of the
    Go standard library ([strings], [unicode], [reflect], [errors]) and of
    [gjson] that the package observes.

    Conventions.
    - A Go string is the list of its code points ([gostring]); every string
      the package handles is a field name, a path built from field names, or
      a constant, all valid UTF-8.
    - A Go [map] is a [gmap]; the order in which a [range] statement yields
      the entries is not fixed by the language, so it is drawn from the
      runtime (section [Runtime]).
    - A call that can return an error, or panic, returns an [outcome]. *)

From stdpp Require Import gmap list fin_maps strings.

Set Default Proof Using "Type".

(** ** Go strings *)

Abbreviation rune := N (only parsing).
Abbreviation gostring := (list N).

(** The code points of an ASCII literal. *)
Definition str (s : string) : gostring :=
  Ascii.N_of_ascii <$> String.list_ascii_of_string s.

(** ** Package [unicode] *)
Module unicode.

Definition MaxASCII : rune := 127.

Definition isUpperASCII (r : rune) : bool := (65 <=? r)%N && (r <=? 90)%N.

Section Tables.
(** [To(LowerCase, r)]: the lower-case mapping of the Unicode tables,
    consulted for code points above [MaxASCII] only. *)
Variable lowerCase : rune → rune.

Definition ToLower (r : rune) : rune :=
  if (r <=? MaxASCII)%N then
    (if isUpperASCII r then r + 32 else r)%N
  else lowerCase r.
End Tables.

End unicode.

(** ** Package [strings] *)
Module strings.

Definition RuneSelf : rune := 128.

Section Tables.
Variable lowerCase : rune → rune.

(** [strings.Map(mapping, s)] for a mapping that drops no character. *)
Definition Map (mapping : rune → rune) (s : gostring) : gostring :=
  mapping <$> s.

(** [strings.ToLower]: ASCII-only strings are handled byte by byte, and
    returned as they are when they hold no upper-case letter; any other
    string goes through [Map(unicode.ToLower, s)]. *)
Definition ToLower (s : gostring) : gostring :=
  if forallb (λ c, c <? RuneSelf)%N s then
    if existsb unicode.isUpperASCII s then
      (λ c, if unicode.isUpperASCII c then c + 32 else c)%N <$> s
    else s
  else Map (unicode.ToLower lowerCase) s.
End Tables.

(** [strings.HasSuffix(s, suffix)]. *)
Definition HasSuffix (s suffix : gostring) : bool :=
  bool_decide (drop (length s - length suffix) s = suffix).

Fixpoint hasPrefix (s old : gostring) : bool :=
  match old, s with
  | [], _ => true
  | o :: old', c :: s' => bool_decide (o = c) && hasPrefix s' old'
  | _ :: _, [] => false
  end.

(** Replacement of the non-overlapping occurrences of a non-empty [old],
    leftmost first; [skip] counts the characters of a matched occurrence
    that are still to be passed over. *)
Fixpoint replaceFrom (skip : nat) (s old new : gostring) : gostring :=
  match s with
  | [] => []
  | c :: s' =>
      match skip with
      | S k => replaceFrom k s' old new
      | O =>
          if hasPrefix s old
          then new ++ replaceFrom (length old - 1) s' old new
          else c :: replaceFrom 0 s' old new
      end
  end.

(** [strings.ReplaceAll(s, old, new)]; an empty [old] matches before every
    character and at the end. *)
Definition ReplaceAll (s old new : gostring) : gostring :=
  match old with
  | [] => foldr (λ c acc, new ++ c :: acc) new s
  | _ => replaceFrom 0 s old new
  end.

(** [strings.Split] with an empty separator: one string per character. *)
Definition explode (s : gostring) : list gostring := (λ c, [c]) <$> s.

End strings.

(** ** Names and paths ([resolver.go], lines 223-243) *)

Section Names.
Variable lowerCase : rune → rune.

Definition cutsetString (s cutset : gostring) : gostring :=
  foldl (λ s c, strings.ReplaceAll s c []) s (strings.explode cutset).

Definition normalizeName (name : gostring) : gostring :=
  let cutset := str " _-" in
  cutsetString (strings.ToLower lowerCase name) cutset.

Definition appendToPath (path name : gostring) : gostring :=
  let name := normalizeName name in
  if bool_decide (length path = 0) || strings.HasSuffix path (str ".")
  then path ++ name
  else path ++ str "." ++ name.
End Names.

(** ** Package [reflect] *)
Module reflect.

Inductive Kind :=
| Invalid | Bool | Int | Int8 | Int16 | Int32 | Int64
| Uint | Uint8 | Uint16 | Uint32 | Uint64 | Uintptr
| Float32 | Float64 | Complex64 | Complex128
| Array | Chan | Func | Interface | Map | Pointer | Slice | String | Struct
| UnsafePointer.

Global Instance Kind_eq_dec : EqDecision Kind.
Proof. solve_decision. Defined.

(** The predeclared types, and [unsafe.Pointer]. *)
Inductive Basic :=
| Tbool | Tint | Tint8 | Tint16 | Tint32 | Tint64
| Tuint | Tuint8 | Tuint16 | Tuint32 | Tuint64 | Tuintptr
| Tfloat32 | Tfloat64 | Tcomplex64 | Tcomplex128
| Tstring | TunsafePointer.

Global Instance Basic_eq_dec : EqDecision Basic.
Proof. solve_decision. Defined.

Inductive ChanDir := RecvDir | SendDir | BothDir.

Global Instance ChanDir_eq_dec : EqDecision ChanDir.
Proof. solve_decision. Defined.

(** A struct tag, as the key/value pairs its conventional form holds. *)
Abbreviation StructTag := (list (gostring * gostring)).

(** A type descriptor: the qualified name of a defined type (empty for a
    type literal) and its underlying shape.  The fields of a struct shape
    are those [VisibleFields] lists, in its order.  [SInvalid] stands for
    the zero [Kind], which no compiled type has. *)
Inductive Type_ : Type :=
| mkType (name : gostring) (shape : Shape)
with Shape : Type :=
| SInvalid
| SBasic (b : Basic)
| SArray (len : nat) (elem : Type_)
| SChan (dir : ChanDir) (elem : Type_)
| SFunc (params results : list Type_) (variadic : bool)
| SInterface (methods : list Method)
| SMap (key elem : Type_)
| SPointer (elem : Type_)
| SSlice (elem : Type_)
| SStruct (fields : list StructField)
with StructField : Type :=
| mkField (Name PkgPath : gostring) (Typ : Type_) (Tag : StructTag)
          (Anonymous : bool)
with Method : Type :=
| mkMethod (Name : gostring) (Typ : Type_).

(** Identity of types ([==] on [reflect.Type]). *)
Fixpoint Type_eq_dec (a b : Type_) {struct a} : {a = b} + {a ≠ b}
with Shape_eq_dec (a b : Shape) {struct a} : {a = b} + {a ≠ b}
with StructField_eq_dec (a b : StructField) {struct a} : {a = b} + {a ≠ b}
with Method_eq_dec (a b : Method) {struct a} : {a = b} + {a ≠ b}.
Proof.
  - decide equality. apply (list_eq_dec (A:=N)).
  - pose proof (list_eq_dec (dec:=Type_eq_dec)).
    pose proof (list_eq_dec (dec:=Method_eq_dec)).
    pose proof (list_eq_dec (dec:=StructField_eq_dec)).
    decide equality; try solve_decision.
  - decide equality; try solve_decision.
  - decide equality; try solve_decision.
Defined.

Global Instance Type_eq : EqDecision Type_ := Type_eq_dec.

Definition shapeOf (t : Type_) : Shape :=
  match t with mkType _ s => s end.

Definition basicKind (b : Basic) : Kind :=
  match b with
  | Tbool => Bool | Tint => Int | Tint8 => Int8 | Tint16 => Int16
  | Tint32 => Int32 | Tint64 => Int64 | Tuint => Uint | Tuint8 => Uint8
  | Tuint16 => Uint16 | Tuint32 => Uint32 | Tuint64 => Uint64
  | Tuintptr => Uintptr | Tfloat32 => Float32 | Tfloat64 => Float64
  | Tcomplex64 => Complex64 | Tcomplex128 => Complex128
  | Tstring => String | TunsafePointer => UnsafePointer
  end.

(** [t.Kind()]. *)
Definition KindOf (t : Type_) : Kind :=
  match shapeOf t with
  | SInvalid => Invalid
  | SBasic b => basicKind b
  | SArray _ _ => Array
  | SChan _ _ => Chan
  | SFunc _ _ _ => Func
  | SInterface _ => Interface
  | SMap _ _ => Map
  | SPointer _ => Pointer
  | SSlice _ => Slice
  | SStruct _ => Struct
  end.

Definition FieldName (f : StructField) : gostring :=
  match f with mkField n _ _ _ _ => n end.
Definition FieldPkgPath (f : StructField) : gostring :=
  match f with mkField _ p _ _ _ => p end.
Definition FieldType (f : StructField) : Type_ :=
  match f with mkField _ _ t _ _ => t end.
Definition FieldTag (f : StructField) : StructTag :=
  match f with mkField _ _ _ tag _ => tag end.

(** [f.IsExported()]: the package path is set for unexported fields only. *)
Definition IsExported (f : StructField) : bool :=
  bool_decide (FieldPkgPath f = []).

(** [tag.Get(key)]: the value of the first pair with that key, or the
    empty string. *)
Fixpoint TagGet (tag : StructTag) (key : gostring) : gostring :=
  match tag with
  | [] => []
  | (k, v) :: tag' => if decide (k = key) then v else TagGet tag' key
  end.

End reflect.

(** ** Package [gjson] *)
Module gjson.

(** [gjson.Type]: [JSON] tags a raw block, object or array alike. *)
Inductive Type_ := Null | False | Number | String | True | JSON.

Global Instance Type_eq_dec : EqDecision Type_.
Proof. solve_decision. Defined.

(** What the package observes of a [gjson.Result]: its own type tag and,
    for every path, the type tag of [res.Get(path)] ([Null] when the path
    leads nowhere). *)
Record Result := mkResult {
  ResultType : Type_;
  GetType : gostring → Type_
}.

(** A document, for building concrete results. *)
#[local] Unset Elimination Schemes.
Inductive Value :=
| VNull
| VFalse
| VTrue
| VNumber (raw : gostring)
| VString (s : gostring)
| VArray (elems : list Value)
| VObject (members : list (gostring * Value)).
#[local] Set Elimination Schemes.

Definition typeOf (v : Value) : Type_ :=
  match v with
  | VNull => gjson.Null
  | VFalse => gjson.False
  | VTrue => gjson.True
  | VNumber _ => gjson.Number
  | VString _ => gjson.String
  | VArray _ | VObject _ => gjson.JSON
  end.

(** The segments of a dotted path. *)
Fixpoint segments (acc path : gostring) : list gostring :=
  match path with
  | [] => [reverse acc]
  | c :: path' =>
      if decide (c = 46%N) then reverse acc :: segments [] path'
      else segments (c :: acc) path'
  end.

Fixpoint member (key : gostring) (ms : list (gostring * Value)) : option Value :=
  match ms with
  | [] => None
  | (k, v) :: ms' => if decide (k = key) then Some v else member key ms'
  end.

(** [Get] for a path of plain member names: descend through objects, one
    member per segment; the first member with the name wins.  A key that
    is not a number selects nothing in an array. *)
Fixpoint descend (segs : list gostring) (v : Value) : option Value :=
  match segs with
  | [] => Some v
  | seg :: segs' =>
      match v with
      | VObject ms =>
          match member seg ms with
          | Some v' => descend segs' v'
          | None => None
          end
      | _ => None
      end
  end.

Definition resultOf (v : Value) : Result :=
  {| ResultType := typeOf v;
     GetType := λ path, from_option typeOf Null (descend (segments [] path) v) |}.

End gjson.

(** ** Errors and outcomes *)

(** An operand printed with [%s]: a string, or a type through its [String]
    method. *)
Inductive fmtArg :=
| ArgS (s : gostring)
| ArgT (t : reflect.Type_).

(** [errors.New(text)]; [fmt.Errorf] without a [%w] operand, as the pieces
    it prints; and [fmt.Errorf] with one [%w] operand, as the pieces printed
    before and after the wrapped error.  An error made by [errors.New] is
    identified by its text; the texts of this package are pairwise
    different. *)
Inductive error :=
| errorString (text : gostring)
| formatError (pieces : list fmtArg)
| wrapError (before : list fmtArg) (wrapped : error) (after : list fmtArg).

Global Instance fmtArg_eq_dec : EqDecision fmtArg.
Proof. solve_decision. Defined.

Global Instance error_eq_dec : EqDecision error.
Proof. solve_decision. Defined.

Module errors.

Definition New (text : gostring) : error := errorString text.

Definition Unwrap (err : error) : option error :=
  match err with
  | errorString _ | formatError _ => None
  | wrapError _ e _ => Some e
  end.

(** [errors.Is(err, target)]: some error of the chain is [target]. *)
Fixpoint Is (err target : error) : bool :=
  bool_decide (err = target) ||
  match err with
  | errorString _ | formatError _ => false
  | wrapError _ e _ => Is e target
  end.

(** The operands an error chain prints. *)
Fixpoint operands (err : error) : list fmtArg :=
  match err with
  | errorString _ => []
  | formatError pieces => pieces
  | wrapError before e after => before ++ operands e ++ after
  end.

End errors.

(** The result of a call: a value, a returned error, or a panic. *)
Inductive outcome (A : Type) :=
| Done (a : A)
| Fail (err : error)
| Panic (msg : gostring).
Arguments Done {A} a.
Arguments Fail {A} err.
Arguments Panic {A} msg.

(** ** The shape walker ([resolver.go], lines 13-17, 42, 81-145, 175-221) *)

Definition ErrUnsupportedType : error := errors.New (str "unsupported type").

Definition jsonIgnoreTag : gostring := str "-".

Abbreviation jsonPaths := (gmap gostring gjson.Type_).

Definition getJSONName (f : reflect.StructField) : gostring :=
  let tag := reflect.TagGet (reflect.FieldTag f) (str "json") in
  if decide (tag = jsonIgnoreTag) then jsonIgnoreTag
  else reflect.FieldName f.

(** The [switch] covers the twenty-seven kinds, so its [default] arm is
    never taken and has no counterpart here. *)
Definition getJSONType (t : reflect.Type_) : gjson.Type_ + error :=
  match reflect.KindOf t with
  | reflect.String => inl gjson.String
  | reflect.Bool => inl gjson.True
  | reflect.Int | reflect.Int8 | reflect.Int16 | reflect.Int32
  | reflect.Int64 | reflect.Uint | reflect.Uint8 | reflect.Uint16
  | reflect.Uint32 | reflect.Uint64 | reflect.Uintptr | reflect.Float32
  | reflect.Float64 | reflect.Complex64 | reflect.Complex128 =>
      inl gjson.Number
  | reflect.Map | reflect.Pointer | reflect.Slice | reflect.Struct
  | reflect.Array =>
      inl gjson.JSON
  | reflect.Chan | reflect.Func | reflect.Interface | reflect.UnsafePointer
  | reflect.Invalid =>
      inr (wrapError [] ErrUnsupportedType [ArgS (str ": "); ArgT t])
  end.

Definition panicVisibleFields : gostring :=
  str "reflect.VisibleFields of non-struct type".

(** [reflect.VisibleFields(t)]. *)
Definition VisibleFields (t : reflect.Type_) : outcome (list reflect.StructField) :=
  match reflect.shapeOf t with
  | reflect.SStruct fields => Done fields
  | _ => Panic panicVisibleFields
  end.

Section Walker.
Variable lowerCase : rune → rune.

(** [paths] is updated in place by the source; here the updated map is
    returned.  The call [reflect.VisibleFields(t)] is written out as the
    match on the shape of [t], for the recursion to be structural. *)
Fixpoint buildPathsForField (paths : jsonPaths) (curr : gostring)
    (t : reflect.Type_) {struct t} : outcome jsonPaths :=
  match getJSONType t with
  | inr err => Fail err
  | inl jsonType =>
      if decide (jsonType = gjson.True ∨ jsonType = gjson.False) then
        let paths := <[curr := gjson.True]> paths in
        let paths := <[curr := gjson.False]> paths in
        Done paths
      else if decide (jsonType ≠ gjson.JSON) then
        Done (<[curr := jsonType]> paths)
      else if decide (reflect.KindOf t = reflect.Array
                      ∨ reflect.KindOf t = reflect.Slice
                      ∨ reflect.KindOf t = reflect.Map) then
        Done (<[curr := gjson.JSON]> paths)
      else
        match t with
        | reflect.mkType _ (reflect.SStruct fields) =>
            (fix visit (fs : list reflect.StructField) (paths : jsonPaths)
               {struct fs} : outcome jsonPaths :=
               match fs with
               | [] => Done paths
               | f :: fs' =>
                   if negb (reflect.IsExported f) then visit fs' paths
                   else
                     let name := getJSONName f in
                     if decide (name = jsonIgnoreTag) then visit fs' paths
                     else
                       match buildPathsForField paths
                               (appendToPath lowerCase curr name)
                               (reflect.FieldType f) with
                       | Done paths' => visit fs' paths'
                       | Fail err => Fail err
                       | Panic msg => Panic msg
                       end
               end) fields paths
        | _ => Panic panicVisibleFields
        end
  end.

(** The loop of [buildPathsForField] over the visible fields. *)
Definition buildPathsForFields (curr : gostring) :
    list reflect.StructField → jsonPaths → outcome jsonPaths :=
  fix visit (fs : list reflect.StructField) (paths : jsonPaths)
    {struct fs} : outcome jsonPaths :=
    match fs with
    | [] => Done paths
    | f :: fs' =>
        if negb (reflect.IsExported f) then visit fs' paths
        else
          let name := getJSONName f in
          if decide (name = jsonIgnoreTag) then visit fs' paths
          else
            match buildPathsForField paths (appendToPath lowerCase curr name)
                    (reflect.FieldType f) with
            | Done paths' => visit fs' paths'
            | Fail err => Fail err
            | Panic msg => Panic msg
            end
    end.

(** The loop of [buildPathsForRoot] over the visible fields. *)
Fixpoint buildPathsForRootFields (fs : list reflect.StructField)
    (paths : jsonPaths) : outcome jsonPaths :=
  match fs with
  | [] => Done paths
  | f :: fs' =>
      if negb (reflect.IsExported f) then buildPathsForRootFields fs' paths
      else
        match buildPathsForField paths
                (appendToPath lowerCase [] (getJSONName f))
                (reflect.FieldType f) with
        | Done paths' => buildPathsForRootFields fs' paths'
        | Fail err =>
            Fail (wrapError [ArgS (reflect.FieldName f); ArgS (str " :")] err [])
        | Panic msg => Panic msg
        end
  end.

Definition buildPathsForRoot (t : reflect.Type_) : outcome jsonPaths :=
  if decide (reflect.KindOf t ≠ reflect.Struct) then
    Fail (errors.New (str "not a struct"))
  else
    match VisibleFields t with
    | Done fields => buildPathsForRootFields fields ∅
    | Fail err => Fail err
    | Panic msg => Panic msg
    end.
End Walker.

(** ** Ranging over a map

    How a loop body ends: the loop goes on ([Next], also after [continue]),
    the loop is left ([Break]), or the function returns ([Return]). *)
Inductive flow (S R : Type) :=
| Next (s : S)
| Break (s : S)
| Return (r : R).
Arguments Next {S R} s.
Arguments Break {S R} s.
Arguments Return {S R} r.

(** ** Candidates ([parameter.go], lines 77-79)

    The type of a candidate is a type descriptor: [Candidate(nil)], whose
    type is the nil interface, is not represented. *)

Record candidate := mkCandidate { typ : reflect.Type_ }.

(** [map[*candidate]jsonPaths]: the key is the address of the candidate, and
    the candidate it points to is kept beside the path map.  The path maps
    are reference values that the source updates in place; every key has a
    path map of its own, so the maps are held by value. *)
Abbreviation candidateMap := (gmap positive (candidate * jsonPaths)).

Abbreviation setting := N (only parsing).

Section Runtime.
(** The runtime picks the order of every [range] statement over a map
    afresh.  [rangeOrder seed es] is the order in which the entries [es]
    come out for the current state [seed] of the runtime's random source,
    and every [range] statement advances that state by [nextSeed]. *)
Context {Seed : Type}.
Variable rangeOrder : ∀ A : Type, Seed → list A → list A.
Variable nextSeed : Seed → Seed.

Section Range.
Context `{Countable K} {V X R : Type}.
(** The map ranged over, read from the program state: the body may
    delete entries of it. *)
Variable live : X → gmap K V.
Variable body : K → V → Seed * X → flow (Seed * X) R.

(** An entry deleted before the loop reaches it is not produced. *)
Fixpoint rangeEntries (es : list (K * V)) (s : Seed * X) : flow (Seed * X) R :=
  match es with
  | [] => Next s
  | e :: es' =>
      match live s.2 !! e.1 with
      | None => rangeEntries es' s
      | Some v =>
          match body e.1 v s with
          | Next s' => rangeEntries es' s'
          | Break s' => Next s'
          | Return r => Return r
          end
      end
  end.

Definition range (s : Seed * X) : flow (Seed * X) R :=
  rangeEntries (rangeOrder _ s.1 (map_to_list (live s.2))) (nextSeed s.1, s.2).
End Range.

(** ** Fingerprints and resolution ([resolver.go], lines 23-40 and
       148-173) *)

Definition pathsOf (candidatePaths : candidateMap) (c : positive) : jsonPaths :=
  match candidatePaths !! c with
  | Some e => e.2
  | None => ∅
  end.

(** [delete(paths, path)] on the path map of [c]. *)
Definition deletePath (c : positive) (path : gostring)
    (candidatePaths : candidateMap) : candidateMap :=
  alter (λ e, (e.1, delete path e.2)) c candidatePaths.

Definition finish {S : Type} (f : flow S Empty_set) : S :=
  match f with
  | Next s | Break s => s
  | Return r => match r with end
  end.

(** The four nested loops of [makeUniquePaths], innermost first.
    [for pathB, typeB := range pathsB] (lines 159-167): *)
Definition rangePathsB (candidateA : positive) (pathA : gostring)
    (typeA : gjson.Type_) (candidateB : positive) :
    Seed * candidateMap → flow (Seed * candidateMap) Empty_set :=
  range (λ cp, pathsOf cp candidateB) (λ pathB typeB s,
    if decide (pathA = pathB ∧ typeA = typeB) then
      Break (s.1, deletePath candidateB pathB (deletePath candidateA pathA s.2))
    else Next s).

(** [for candidateB, pathsB := range candidatePaths] (lines 153-168): *)
Definition rangeCandidatesB (candidateA : positive) (cA : candidate)
    (pathA : gostring) (typeA : gjson.Type_) :
    Seed * candidateMap → flow (Seed * candidateMap) Empty_set :=
  range (λ cp, cp) (λ candidateB eB s,
    if decide (typ cA = typ eB.1) then Next s
    else rangePathsB candidateA pathA typeA candidateB s).

(** [for pathA, typeA := range pathsA] (lines 151-169): *)
Definition rangePathsA (candidateA : positive) (cA : candidate) :
    Seed * candidateMap → flow (Seed * candidateMap) Empty_set :=
  range (λ cp, pathsOf cp candidateA) (rangeCandidatesB candidateA cA).

(** [for candidateA, pathsA := range candidatePaths] (lines 150-170): *)
Definition makeUniquePaths (candidatePaths : candidateMap) (seed : Seed) :
    Seed * candidateMap :=
  finish
    (range (λ cp, cp) (λ candidateA eA, rangePathsA candidateA eA.1)
       (seed, candidatePaths)).

Record traverseResolver := mkTraverseResolver { paths : candidateMap }.

Definition traverseResolver_ResolveJSON (r : traverseResolver)
    (res : gjson.Result) (seed : Seed) : option reflect.Type_ * option error :=
  match
    range (λ _ : unit, paths r) (λ c e,
      range (λ _ : unit, e.2) (λ path typ_ s,
        if decide (gjson.GetType res path = typ_) then Return (typ e.1)
        else Next s))
      (seed, ())
  with
  | Return t => (Some t, None)
  | _ => (None, None)
  end.

(** The interface [Resolver]. *)
Record Resolver := mkResolver {
  ResolveJSON : gjson.Result → Seed → option reflect.Type_ * option error
}.

Definition asResolver (r : traverseResolver) : Resolver :=
  {| ResolveJSON := traverseResolver_ResolveJSON r |}.

(** ** Parameters ([parameter.go]) *)

Definition enableVerbose : setting := 0%N.

Record selector := mkSelector {}.
Record fallback := mkFallback {}.

(** The values a caller can pass for the interface [Parameter]: [nil],
    what the constructors of the package return (pointers come with their
    address), or a value of a foreign type, of which only the name of the
    type is seen. *)
Inductive Parameter_ :=
| nilParameter
| selectorParam (ref : positive) (s : selector)
| candidateParam (ref : positive) (c : candidate)
| settingParam (s : setting)
| fallbackParam (ref : positive) (f : fallback)
| foreignParam (typeName : gostring).

Definition settings_Get (s : gmap N bool) (key : setting) : bool :=
  match s !! key with
  | Some v => v
  | None => false
  end.

(** The logger is left out; [verbose] tells which one was installed. *)
Record environment := mkEnv {
  selectors : list (positive * selector);
  candidates : list (positive * candidate);
  settings : gmap N bool;
  env_fallback : option (positive * fallback);
  verbose : bool
}.

Fixpoint newEnvLoop (params : list Parameter_) (env : environment) :
    outcome environment :=
  match params with
  | [] => Done env
  | p :: params' =>
      match p with
      | nilParameter =>
          Fail (errors.New (str "only one default type can be used at a time"))
      | selectorParam ref s =>
          newEnvLoop params'
            (mkEnv (selectors env ++ [(ref, s)]) (candidates env)
               (settings env) (env_fallback env) (verbose env))
      | candidateParam ref c =>
          newEnvLoop params'
            (mkEnv (selectors env) (candidates env ++ [(ref, c)])
               (settings env) (env_fallback env) (verbose env))
      | settingParam s =>
          newEnvLoop params'
            (mkEnv (selectors env) (candidates env)
               (<[s := true]> (settings env)) (env_fallback env) (verbose env))
      | fallbackParam ref f =>
          match env_fallback env with
          | Some _ =>
              Fail (errors.New (str "only one default type can be used at a time"))
          | None =>
              newEnvLoop params'
                (mkEnv (selectors env) (candidates env) (settings env)
                   (Some (ref, f)) (verbose env))
          end
      | foreignParam typeName =>
          Fail (formatError [ArgS (str "invalid parameter type '");
                             ArgS typeName; ArgS (str "'")])
      end
  end.

Definition emptyEnv : environment :=
  {| selectors := []; candidates := []; settings := ∅;
     env_fallback := None; verbose := false |}.

Definition newEnv (params : list Parameter_) : outcome environment :=
  match newEnvLoop params emptyEnv with
  | Done env =>
      if decide (length (candidates env) = 0) then
        Fail (errors.New (str "at least one candidate must be defined"))
      else if settings_Get (settings env) enableVerbose then
        Done (mkEnv (selectors env) (candidates env) (settings env)
                (env_fallback env) true)
      else
        Done (mkEnv (selectors env) (candidates env) (settings env)
                (env_fallback env) false)
  | Fail err => Fail err
  | Panic msg => Panic msg
  end.
End Runtime.

(** ** Building the resolver and decoding ([resolver.go], lines 44-79;
       [unmarshaler.go]) *)

Section Engine.
Variable lowerCase : rune → rune.
Context {Seed : Type}.
Variable rangeOrder : ∀ A : Type, Seed → list A → list A.
Variable nextSeed : Seed → Seed.
(** [gjson.ParseBytes], and [json.Unmarshal] into a new value of the
    given type: the decoded value, or the decoder's error. *)
Context {Decoded : Type}.
Variable ParseBytes : list Byte.byte → gjson.Result.
Variable json_Unmarshal : list Byte.byte → reflect.Type_ → Decoded + error.

(** The first loop of [newTraverseResolver].  The logging loop over the
    paths just built is a [range] statement as well: it changes nothing
    but the state of the random source. *)
Fixpoint buildCandidatePaths (cs : list (positive * candidate))
    (candidatePaths : candidateMap) (seed : Seed) :
    outcome (Seed * candidateMap) :=
  match cs with
  | [] => Done (seed, candidatePaths)
  | c :: cs' =>
      match buildPathsForRoot lowerCase (typ c.2) with
      | Fail err => Fail (wrapError [ArgT (typ c.2); ArgS (str ": ")] err [])
      | Panic msg => Panic msg
      | Done paths =>
          buildCandidatePaths cs' (<[c.1 := (c.2, paths)]> candidatePaths)
            (nextSeed seed)
      end
  end.

Definition newTraverseResolver (env : environment) (seed : Seed) :
    outcome traverseResolver :=
  match buildCandidatePaths (candidates env) ∅ seed with
  | Fail err => Fail err
  | Panic msg => Panic msg
  | Done s =>
      Done {| paths := (makeUniquePaths rangeOrder nextSeed s.2 s.1).2 |}
  end.

Record Unmarshaler := mkUnmarshaler { resolver : Resolver (Seed:=Seed) }.

Definition New (params : list Parameter_) (seed : Seed) : outcome Unmarshaler :=
  match newEnv params with
  | Fail err => Fail (wrapError [ArgS (str "invalid parameters: ")] err [])
  | Panic msg => Panic msg
  | Done env =>
      match newTraverseResolver env seed with
      | Fail err => Fail (wrapError [ArgS (str "resolver: ")] err [])
      | Panic msg => Panic msg
      | Done r => Done {| resolver := asResolver rangeOrder nextSeed r |}
      end
  end.

Definition ErrNoMatch : error := errors.New (str "no match").

Definition UnmarshalJSON (u : Unmarshaler) (b : list Byte.byte) (seed : Seed) :
    outcome Decoded :=
  let res := ParseBytes b in
  if decide (gjson.ResultType res ≠ gjson.JSON) then
    Fail (errors.New (str "invalid json: not an object"))
  else
    match ResolveJSON (resolver u) res seed with
    | (_, Some err) => Fail (wrapError [ArgS (str "resolve: ")] err [])
    | (None, None) => Fail ErrNoMatch
    | (Some typ_, None) =>
        match json_Unmarshal b typ_ with
        | inr err => Fail (wrapError [ArgS (str "unmarshall: ")] err [])
        | inl v => Done v
        end
    end.
End Engine.

(** ** Notions used to state the properties *)

(** *** The order of the walk *)

Definition unsupportedKind (k : reflect.Kind) : bool :=
  match k with
  | reflect.Chan | reflect.Func | reflect.Interface | reflect.UnsafePointer
  | reflect.Invalid => true
  | _ => false
  end.

(** A field below the root is walked when it is exported and not tagged to
    be ignored. *)
Definition walked (f : reflect.StructField) : bool :=
  reflect.IsExported f && negb (bool_decide (getJSONName f = jsonIgnoreTag)).

(** The types [buildPathsForField] is called on, in the order of the calls,
    when no call stops the walk. *)
Fixpoint walkOrder (t : reflect.Type_) : list reflect.Type_ :=
  t :: match t with
       | reflect.mkType _ (reflect.SStruct fields) =>
           flat_map (λ f, if walked f then walkOrder (reflect.FieldType f) else [])
             fields
       | _ => []
       end.

Definition walkOrderFields (fields : list reflect.StructField) :
    list reflect.Type_ :=
  flat_map (λ f, if walked f then walkOrder (reflect.FieldType f) else []) fields.

(** The same for [buildPathsForRoot], which walks every exported field. *)
Definition walkOrderRootFields (fields : list reflect.StructField) :
    list reflect.Type_ :=
  flat_map (λ f, if reflect.IsExported f
                 then walkOrder (reflect.FieldType f) else []) fields.

Definition walkOrderRoot (t : reflect.Type_) : list reflect.Type_ :=
  match reflect.shapeOf t with
  | reflect.SStruct fields => walkOrderRootFields fields
  | _ => []
  end.

(** The walk does not get past a type of an unsupported kind, nor past a
    pointer. *)
Definition stopsWalk (t : reflect.Type_) : bool :=
  unsupportedKind (reflect.KindOf t)
  || bool_decide (reflect.KindOf t = reflect.Pointer).

(** The error [getJSONType] makes for a type of an unsupported kind. *)
Definition unsupportedError (t : reflect.Type_) : error :=
  wrapError [] ErrUnsupportedType [ArgS (str ": "); ArgT t].

(** The outcome of a walk, given the first type of its order that stops
    it. *)
Definition walkOutcome (stop : option reflect.Type_) (o : outcome jsonPaths) :
    Prop :=
  match stop with
  | None => ∃ paths', o = Done paths'
  | Some ty =>
      if unsupportedKind (reflect.KindOf ty)
      then o = Fail (unsupportedError ty)
      else o = Panic panicVisibleFields
  end.

(** *** Entries of the candidates' path maps *)

(** [hasEntry cp X p k]: the path map of candidate [X] holds [(p, k)]. *)
Definition hasEntry (cp : candidateMap) (X : positive) (p : gostring)
    (k : gjson.Type_) : Prop :=
  pathsOf cp X !! p = Some k.

Global Instance hasEntry_dec cp X p k : Decision (hasEntry cp X p k).
Proof. unfold hasEntry. apply _. Defined.

(** Candidates at different addresses are of different types: the
    candidates are distinct for the comparison of [makeUniquePaths]. *)
Definition distinctTypes (cp : candidateMap) : Prop :=
  ∀ a b ea eb, cp !! a = Some ea → cp !! b = Some eb → a ≠ b →
               typ ea.1 ≠ typ eb.1.

(** No entry occurs in the path maps of two candidates. *)
Definition disjointPaths (cp : candidateMap) : Prop :=
  ∀ a b p k, a ≠ b → hasEntry cp a p k → hasEntry cp b p k → False.

(** [target cp cA pathA typeA X]: candidate [X] of [cp] is of another type
    than [cA] and holds the entry [(pathA, typeA)]. *)
Definition target (cp : candidateMap) (cA : candidate) (pathA : gostring)
    (typeA : gjson.Type_) (X : positive) : Prop :=
  ∃ e, cp !! X = Some e ∧ typ cA ≠ typ e.1 ∧ e.2 !! pathA = Some typeA.

(** What the loop over the candidates B has done to [cp] once it has been
    through the candidates [visited]. *)
Record searched (cp : candidateMap) (A : positive) (cA : candidate)
    (pathA : gostring) (typeA : gjson.Type_) (visited : positive → Prop)
    (cur : candidateMap) : Prop := {
  searched_candidates : ∀ X, fst <$> cur !! X = fst <$> cp !! X;
  searched_sub : ∀ X p v,
    pathsOf cur X !! p = Some v → pathsOf cp X !! p = Some v;
  searched_gone : ∀ X p v,
    pathsOf cp X !! p = Some v → pathsOf cur X !! p = None →
    p = pathA ∧ ((visited X ∧ target cp cA pathA typeA X)
                 ∨ (X = A ∧ ∃ B, visited B ∧ target cp cA pathA typeA B));
  searched_target : ∀ X,
    visited X → target cp cA pathA typeA X → pathsOf cur X !! pathA = None;
  searched_self :
    (∃ B, visited B ∧ target cp cA pathA typeA B) →
    pathsOf cur A !! pathA = None
}.

(** How the maps [cur] reached during [makeUniquePaths] relate to the maps
    [cp0] it started from: entries are only ever deleted, an entry is
    either where it was in every candidate or in none any more, and only
    entries that two candidates shared are deleted. *)
Record pruned (cp0 cur : candidateMap) : Prop := {
  pruned_candidates : ∀ X, fst <$> cur !! X = fst <$> cp0 !! X;
  pruned_sub : ∀ X p k, hasEntry cur X p k → hasEntry cp0 X p k;
  pruned_all_or_none : ∀ p k,
    (∀ X, hasEntry cp0 X p k → hasEntry cur X p k) ∨ (∀ X, ¬ hasEntry cur X p k);
  pruned_shared : ∀ X p k,
    hasEntry cp0 X p k → ¬ hasEntry cur X p k → ∃ Y, Y ≠ X ∧ hasEntry cp0 Y p k
}.

(** Whatever candidate [A] still holds at path [p], no other candidate
    holds. *)
Definition settled (cur : candidateMap) (A : positive) (p : gostring) : Prop :=
  ∀ k, hasEntry cur A p k → ∀ Y, Y ≠ A → ¬ hasEntry cur Y p k.

(** ** Example inputs *)

(** A runtime that yields the entries of a map in the order of
    [map_to_list]. *)
Definition inOrder : ∀ A : Type, () → list A → list A := λ _ _ es, es.

Definition exportedField (name : string) (t : reflect.Type_) : reflect.StructField :=
  reflect.mkField (str name) [] t [] false.

(** An exported field tagged [json:"-"]. *)
Definition ignoredField (name : string) (t : reflect.Type_) : reflect.StructField :=
  reflect.mkField (str name) [] t [(str "json", str "-")] false.

Definition unexportedField (name : string) (t : reflect.Type_) : reflect.StructField :=
  reflect.mkField (str name) (str "main") t [] false.

Definition string_t : reflect.Type_ :=
  reflect.mkType (str "string") (reflect.SBasic reflect.Tstring).
Definition int_t : reflect.Type_ :=
  reflect.mkType (str "int") (reflect.SBasic reflect.Tint).
Definition bool_t : reflect.Type_ :=
  reflect.mkType (str "bool") (reflect.SBasic reflect.Tbool).
(** [func() bool] *)
Definition func_t : reflect.Type_ :=
  reflect.mkType [] (reflect.SFunc [] [bool_t] false).

(** The two candidates of [cmd/main.go]. *)
Definition s1 : reflect.Type_ :=
  reflect.mkType (str "main.s1")
    (reflect.SStruct [exportedField "Foo" string_t; exportedField "Shared" int_t;
                      unexportedField "private" func_t]).
Definition s2 : reflect.Type_ :=
  reflect.mkType (str "main.s2")
    (reflect.SStruct [exportedField "Bar" string_t; exportedField "Shared" int_t]).

(** [type flags struct { Flag bool }] *)
Definition flags_t : reflect.Type_ :=
  reflect.mkType (str "main.flags") (reflect.SStruct [exportedField "Flag" bool_t]).

(** The documents [{"flag": true}] and [{"flag": false}]. *)
Definition flagTrueDoc : gjson.Result :=
  gjson.resultOf (gjson.VObject [(str "flag", gjson.VTrue)]).
Definition flagFalseDoc : gjson.Result :=
  gjson.resultOf (gjson.VObject [(str "flag", gjson.VFalse)]).

(** [type hooks struct { Name string; OnDone func() bool `json:"-"` }] and
    [type job struct { Hooks hooks }]: the function-typed field is exported
    and tagged to be ignored, one level below the root. *)
Definition hooks_t : reflect.Type_ :=
  reflect.mkType (str "main.hooks")
    (reflect.SStruct [exportedField "Name" string_t; ignoredField "OnDone" func_t]).
Definition job_t : reflect.Type_ :=
  reflect.mkType (str "main.job") (reflect.SStruct [exportedField "Hooks" hooks_t]).

(** [type callback struct { Name string; OnDone func() bool }] *)
Definition callback_t : reflect.Type_ :=
  reflect.mkType (str "main.callback")
    (reflect.SStruct [exportedField "Name" string_t; exportedField "OnDone" func_t]).

(** [type account struct { ID int; Secret string `json:"-"` }]: the ignored
    field is at the top level. *)
Definition account_t : reflect.Type_ :=
  reflect.mkType (str "main.account")
    (reflect.SStruct [exportedField "ID" int_t; ignoredField "Secret" string_t]).

(** [type vault struct { Keys point `json:"-"` }]: an ignored record at the
    top level. *)
Definition vault_t : reflect.Type_ :=
  reflect.mkType (str "main.vault")
    (reflect.SStruct
       [ignoredField "Keys"
          (reflect.mkType (str "main.point")
             (reflect.SStruct [exportedField "X" int_t]))]).

(** [type point struct { X int }] and [type node struct { Pos *point }]. *)
Definition point_t : reflect.Type_ :=
  reflect.mkType (str "main.point") (reflect.SStruct [exportedField "X" int_t]).
Definition node_t : reflect.Type_ :=
  reflect.mkType (str "main.node")
    (reflect.SStruct
       [exportedField "Pos" (reflect.mkType [] (reflect.SPointer point_t))]).

(** The document [[1, 2]], whose root is an array. *)
Definition arrayDoc : gjson.Result :=
  gjson.resultOf (gjson.VArray [gjson.VNumber (str "1"); gjson.VNumber (str "2")]).

(** A decoder that accepts nothing, and a parser that reads every buffer as
    [arrayDoc]. *)
Definition rejectAll : list Byte.byte → reflect.Type_ → () + error :=
  λ _ _, inr (errors.New (str "rejected")).
Definition parseAsArray : list Byte.byte → gjson.Result := λ _, arrayDoc.

(** Two candidates of different types with the same path map. *)
Definition twins : candidateMap :=
  <[1%positive := (mkCandidate s1, {[ str "shared" := gjson.Number ]})]>
    {[ 2%positive := (mkCandidate s2, {[ str "shared" := gjson.Number ]}) ]}.

(** Two candidates with disjoint path maps. *)
Definition strangers : candidateMap :=
  <[1%positive := (mkCandidate s1, {[ str "foo" := gjson.String ]})]>
    {[ 2%positive := (mkCandidate s2, {[ str "bar" := gjson.String ]}) ]}.

(** One candidate with two fingerprint entries, and the document
    [{"foo": "x"}], which meets the first of them only. *)
Definition solo : candidateMap :=
  {[ 1%positive := (mkCandidate s1, <[str "foo" := gjson.String]>
                                      {[ str "shared" := gjson.Number ]}) ]}.
Definition fooDoc : gjson.Result :=
  gjson.resultOf (gjson.VObject [(str "foo", gjson.VString (str "x"))]).

(** A runtime that yields the entries of a map in the reverse of the order
    of [map_to_list]. *)
Definition inReverse : ∀ A : Type, () → list A → list A := λ _ _ es, reverse es.

(** The path maps of [s1] and [s2] as the walker builds them. *)
Definition s1Paths : jsonPaths :=
  <[str "foo" := gjson.String]> {[ str "shared" := gjson.Number ]}.
Definition s2Paths : jsonPaths :=
  <[str "bar" := gjson.String]> {[ str "shared" := gjson.Number ]}.

(** The type [s1] registered twice, as [New(Candidate(s1{}), Candidate(s1{}))]
    does: two candidates at different addresses, of the same type. *)
Definition doubles : candidateMap :=
  <[1%positive := (mkCandidate s1, s1Paths)]>
    {[ 2%positive := (mkCandidate s1, s1Paths) ]}.

(** The same with [s2] as a third candidate. *)
Definition crowd : candidateMap :=
  <[1%positive := (mkCandidate s1, s1Paths)]>
    (<[2%positive := (mkCandidate s1, s1Paths)]>
       {[ 3%positive := (mkCandidate s2, s2Paths) ]}).

(** ** Further notions and inputs *)

(** ** Further notions used to state properties *)

(** *** Paths *)

Definition dot : N := 46%N.

(** No two dots of the path are adjacent. *)
Fixpoint noDoubleDot (path : gostring) : bool :=
  match path with
  | a :: path' =>
      match path' with
      | b :: _ => negb (bool_decide (a = dot) && bool_decide (b = dot))
      | [] => true
      end && noDoubleDot path'
  | [] => true
  end.

(** A path as [appendToPath] builds them: it does not begin with a dot and
    has no two adjacent dots. *)
Definition cleanPath (path : gostring) : Prop :=
  head path ≠ Some dot ∧ noDoubleDot path = true.

(** A character that is neither a space, an underscore or a hyphen, nor an
    upper-case ASCII letter. *)
Definition plainChar (c : N) : Prop :=
  (c ∉ str " _-") ∧ unicode.isUpperASCII c = false.

(** *** The entries of a walk *)

(** The tag recorded for a type that is not walked into. *)
Definition leafTag (t : reflect.Type_) : list gjson.Type_ :=
  match getJSONType t with
  | inl k => if decide (k = gjson.True ∨ k = gjson.False) then [gjson.False] else [k]
  | inr _ => []
  end.

Section Entries.
Variable lowerCase : N → N.

(** The entries [buildPathsForField] writes for a type at the path
    [curr], in the order it writes them, when nothing stops the walk. *)
Fixpoint leafEntries (curr : gostring) (t : reflect.Type_) :
    list (gostring * gjson.Type_) :=
  match t with
  | reflect.mkType _ (reflect.SStruct fields) =>
      flat_map (λ f, if walked f
                     then leafEntries (appendToPath lowerCase curr (getJSONName f))
                            (reflect.FieldType f)
                     else []) fields
  | _ => (λ k, (curr, k)) <$> leafTag t
  end.

Definition fieldsEntries (curr : gostring) (fields : list reflect.StructField) :
    list (gostring * gjson.Type_) :=
  flat_map (λ f, if walked f
                 then leafEntries (appendToPath lowerCase curr (getJSONName f))
                        (reflect.FieldType f)
                 else []) fields.

(** The same for [buildPathsForRoot]. *)
Definition rootFieldsEntries (fields : list reflect.StructField) :
    list (gostring * gjson.Type_) :=
  flat_map (λ f, if reflect.IsExported f
                 then leafEntries (appendToPath lowerCase [] (getJSONName f))
                        (reflect.FieldType f)
                 else []) fields.

Definition rootEntries (t : reflect.Type_) : list (gostring * gjson.Type_) :=
  match reflect.shapeOf t with
  | reflect.SStruct fields => rootFieldsEntries fields
  | _ => []
  end.
End Entries.

(** The map a list of writes leaves, the first write first. *)
Definition written (paths : jsonPaths) (entries : list (gostring * gjson.Type_)) :
    jsonPaths :=
  foldl (λ m e, <[e.1 := e.2]> m) paths entries.

(** *** Candidates that share an entry *)

(** [rival cp X Y p k]: the candidates [X] and [Y] of [cp] are of different
    types and [Y] holds the entry [(p, k)]. *)
Definition rival (cp : candidateMap) (X Y : positive) (p : gostring)
    (k : gjson.Type_) : Prop :=
  ∃ eX eY, cp !! X = Some eX ∧ cp !! Y = Some eY ∧ typ eX.1 ≠ typ eY.1
           ∧ hasEntry cp Y p k.

(** All the candidates are of one type. *)
Definition sameTypes (cp : candidateMap) : Prop :=
  ∀ a b ea eb, cp !! a = Some ea → cp !! b = Some eb → typ ea.1 = typ eb.1.


(** ** The constructors of the parameters ([parameter.go], lines 71-109)

    [ref] is the address of the value the constructor allocates.
    [Candidate] takes [reflect.TypeOf(v)] for its argument [v]; the
    arguments of [SelectOn] and [Default] are of type [any] and are not
    looked at. *)

Definition Candidate (ref : positive) (t : reflect.Type_) : Parameter_ :=
  candidateParam ref {| typ := t |}.



Definition EnableDebug : Parameter_ := settingParam enableVerbose.

Global Instance candidate_eq_dec : EqDecision candidate.
Proof. solve_decision. Defined.
Global Instance selector_eq_dec : EqDecision selector.
Proof. solve_decision. Defined.
Global Instance fallback_eq_dec : EqDecision fallback.
Proof. solve_decision. Defined.
Global Instance Parameter_eq_dec : EqDecision Parameter_.
Proof. solve_decision. Defined.

(** *** What a list of parameters holds *)

Definition candidatesOf (params : list Parameter_) : list (positive * candidate) :=
  omap (λ p, match p with candidateParam ref c => Some (ref, c) | _ => None end)
    params.

Definition selectorsOf (params : list Parameter_) : list (positive * selector) :=
  omap (λ p, match p with selectorParam ref s => Some (ref, s) | _ => None end)
    params.

Definition fallbacksOf (params : list Parameter_) : list (positive * fallback) :=
  omap (λ p, match p with fallbackParam ref f => Some (ref, f) | _ => None end)
    params.

(** No parameter is nil or of a foreign type, and at most one is a
    default. *)
Definition wellFormed (params : list Parameter_) : Prop :=
  (nilParameter ∉ params) ∧ (∀ name, foreignParam name ∉ params)
  ∧ length (fallbacksOf params) ≤ 1.

(** The two errors of the loop of [newEnv]. *)
Definition loopError (err : error) : Prop :=
  err = errors.New (str "only one default type can be used at a time")
  ∨ ∃ name, err = formatError [ArgS (str "invalid parameter type '");
                               ArgS name; ArgS (str "'")].

(** The walk of a type gets to its end. *)
Definition walkable (t : reflect.Type_) : Prop :=
  reflect.KindOf t = reflect.Struct
  ∧ List.find stopsWalk (walkOrderRoot t) = None.

(** *** A runtime that starts where it is told

    The state of the random source is a list of positions; a [range]
    statement starts at the entry at the first position of the list and
    goes on with the entries before it and then those after it. *)
Definition pickOrder : ∀ A : Type, list nat → list A → list A :=
  λ _ seed es, drop (hd 0 seed) es ++ take (hd 0 seed) es.

Definition pickNext : list nat → list nat := tail.

(** The position of the entry of a key in [map_to_list]. *)
Fixpoint position `{EqDecision K} {V : Type} (k : K) (es : list (K * V)) : nat :=
  match es with
  | [] => 0
  | e :: es' => if decide (e.1 = k) then 0 else S (position k es')
  end.

(** ** The program of [cmd/main.go] *)

Definition mainParams : list Parameter_ :=
  [Candidate 1 s1; Candidate 2 s2; EnableDebug].

(** The document [{"foo": "s1", "shared": 1}]. *)
Definition mainDoc : gjson.Result :=
  gjson.resultOf (gjson.VObject [(str "foo", gjson.VString (str "s1"));
                                 (str "shared", gjson.VNumber (str "1"))]).

(** The document [{}]. *)
Definition emptyDoc : gjson.Result := gjson.resultOf (gjson.VObject []).

(** The document [{"foo": "x", "bar": "y"}], which meets an entry of both
    candidates of [strangers]. *)
Definition bothDoc : gjson.Result :=
  gjson.resultOf (gjson.VObject [(str "foo", gjson.VString (str "x"));
                                 (str "bar", gjson.VString (str "y"))]).

(** A parser that reads every buffer as the given document. *)
Definition parseAs (v : gjson.Value) : list Byte.byte → gjson.Result :=
  λ _, gjson.resultOf v.


(** The path maps of the two candidates of [cmd/main.go] before the
    fingerprints are made. *)
Definition mainPaths : candidateMap :=
  <[2%positive := (mkCandidate s2,
                   <[str "shared" := gjson.Number]> (<[str "bar" := gjson.String]> ∅))]>
    (<[1%positive := (mkCandidate s1,
                      <[str "shared" := gjson.Number]>
                        (<[str "foo" := gjson.String]> ∅))]> ∅).

(** * Properties *)

(** ** Normalization of names *)

Lemma replaceFrom_single (x : N) (s : gostring) :
  strings.replaceFrom 0 s [x] [] = filter (λ c, c ≠ x) s.
Proof.
  induction s as [| c s IH]; [done |]. simpl.
  replace (strings.hasPrefix s []) with true by (by destruct s).
  rewrite andb_true_r.
  destruct (decide (x = c)) as [-> | Hne].
  - rewrite bool_decide_eq_true_2 by done. rewrite filter_cons_False by tauto. done.
  - rewrite bool_decide_eq_false_2 by done. rewrite filter_cons_True by congruence.
    by rewrite IH.
Qed.

Lemma cutsetString_filter (s : gostring) :
  cutsetString s (str " _-") = filter (λ c, c ∉ str " _-") s.
Proof.
  unfold cutsetString. cbn [str strings.explode fmap list_fmap foldl
    String.list_ascii_of_string].
  unfold strings.ReplaceAll. rewrite !replaceFrom_single.
  rewrite !list_filter_filter. apply list_filter_iff. intros c.
  change (str " _-") with [32%N; 95%N; 45%N].
  rewrite !not_elem_of_cons. cbn. split; [intros [[? ?] ?] | intros (? & ? & ? & _)];
    repeat split; try congruence. apply not_elem_of_nil.
Qed.

Section NamesFacts.
Variable lowerCase : N → N.

Lemma ToLower_ascii (c : N) :
  (c <? strings.RuneSelf)%N = true →
  unicode.ToLower lowerCase c = (if unicode.isUpperASCII c then c + 32 else c)%N.
Proof.
  intros Hc%N.ltb_lt. unfold unicode.ToLower, unicode.MaxASCII, strings.RuneSelf in *.
  destruct (N.leb_spec c 127); [done | lia].
Qed.

(** Both paths of [strings.ToLower] lower-case character by character. *)
Lemma ToLower_fmap (s : gostring) :
  strings.ToLower lowerCase s = unicode.ToLower lowerCase <$> s.
Proof.
  unfold strings.ToLower, strings.Map.
  destruct (forallb _ s) eqn:Hascii; [| done].
  rewrite forallb_forall in Hascii.
  destruct (existsb _ s) eqn:Hupper.
  - apply list_fmap_ext; intros i c Hc. symmetry. apply ToLower_ascii.
    apply Hascii, list_elem_of_In, list_elem_of_lookup. eauto.
  - rewrite <- (list_fmap_id s) at 1. apply list_fmap_ext; intros i c Hc.
    assert (Hin : In c s) by (apply list_elem_of_In, list_elem_of_lookup; eauto).
    rewrite ToLower_ascii by auto.
    destruct (unicode.isUpperASCII c) eqn:Hu; [| done].
    assert (existsb unicode.isUpperASCII s = true) by (apply existsb_exists; eauto).
    congruence.
Qed.

Lemma normalizeName_filter (name : gostring) :
  normalizeName lowerCase name
  = filter (λ c, c ∉ str " _-") (unicode.ToLower lowerCase <$> name).
Proof. unfold normalizeName. by rewrite cutsetString_filter, ToLower_fmap. Qed.

Lemma ToLower_idem :
  (∀ r, (unicode.MaxASCII < r)%N →
        unicode.ToLower lowerCase (lowerCase r) = lowerCase r) →
  ∀ r, unicode.ToLower lowerCase (unicode.ToLower lowerCase r)
       = unicode.ToLower lowerCase r.
Proof.
  intros Hlower r. unfold unicode.ToLower at 2 3.
  destruct (N.leb_spec r unicode.MaxASCII) as [Hle | Hgt]; [| by apply Hlower].
  unfold unicode.MaxASCII in Hle.
  unfold unicode.ToLower, unicode.isUpperASCII, unicode.MaxASCII.
  destruct (N.leb_spec 65 r), (N.leb_spec r 90); simpl;
    repeat match goal with
      | |- context [N.leb ?a ?b] => destruct (N.leb_spec a b); simpl
      end; lia.
Qed.

(** C8: normalization is idempotent, lower-cases the name and strips
    spaces, underscores and hyphens; [Foo Bar], [foo_bar] and [foo-bar]
    all normalize to [foobar] and extend a path by the same segment.
    The lower-case table of [unicode] is taken to map every code point
    above ASCII to one that lower-casing leaves alone. *)
Theorem normalizeName_idempotent_insensitive
    (Hlower : ∀ r, (unicode.MaxASCII < r)%N →
                   unicode.ToLower lowerCase (lowerCase r) = lowerCase r) :
  (∀ name, normalizeName lowerCase (normalizeName lowerCase name)
           = normalizeName lowerCase name) ∧
  (∀ name, normalizeName lowerCase name
           = filter (λ c, c ∉ str " _-") (unicode.ToLower lowerCase <$> name)) ∧
  normalizeName lowerCase (str "Foo Bar") = str "foobar" ∧
  normalizeName lowerCase (str "foo_bar") = str "foobar" ∧
  normalizeName lowerCase (str "foo-bar") = str "foobar" ∧
  (∀ path, appendToPath lowerCase path (str "Foo Bar")
           = appendToPath lowerCase path (str "foo_bar") ∧
           appendToPath lowerCase path (str "foo_bar")
           = appendToPath lowerCase path (str "foo-bar")).
Proof.
  assert (Hex : normalizeName lowerCase (str "Foo Bar") = str "foobar" ∧
                normalizeName lowerCase (str "foo_bar") = str "foobar" ∧
                normalizeName lowerCase (str "foo-bar") = str "foobar")
    by (repeat split; reflexivity).
  destruct Hex as (H1 & H2 & H3).
  split; [| split; [apply normalizeName_filter |]].
  - intros name. rewrite (normalizeName_filter (normalizeName _ _)).
    rewrite normalizeName_filter.
    set (kept := filter _ (_ <$> name)).
    assert (Hfix : unicode.ToLower lowerCase <$> kept = kept).
    { rewrite <- (list_fmap_id kept) at 2. apply Forall_fmap_ext, Forall_forall.
      intros y Hy. subst kept. apply list_elem_of_filter in Hy as [_ Hy].
      apply list_elem_of_fmap in Hy as (r & -> & _). by apply ToLower_idem. }
    rewrite Hfix. subst kept. rewrite list_filter_filter.
    apply list_filter_iff. tauto.
  - repeat split; try done; unfold appendToPath; cbv zeta; by rewrite ?H1, ?H2, ?H3.
Qed.
End NamesFacts.

(** ** The shape walker *)

(** Induction over a type along the fields of its struct shapes. *)
Lemma Type_fields_ind (P : reflect.Type_ → Prop) :
  (∀ name shape, (∀ fields, shape ≠ reflect.SStruct fields) →
                 P (reflect.mkType name shape)) →
  (∀ name fields, Forall (λ f, P (reflect.FieldType f)) fields →
                  P (reflect.mkType name (reflect.SStruct fields))) →
  ∀ t, P t.
Proof.
  intros Hleaf Hstruct. fix IH 1. intros [name shape].
  destruct shape as [| | | | | | | | | fields];
    try (apply Hleaf; intros; discriminate).
  apply Hstruct. induction fields as [| f fields IHf]; constructor.
  - apply IH.
  - apply IHf.
Qed.

Section WalkerFacts.
Variable lowerCase : N → N.

(** The walker with the call of [VisibleFields] as the source has it. *)
Lemma buildPathsForField_eq paths curr t :
  buildPathsForField lowerCase paths curr t
  = match getJSONType t with
    | inr err => Fail err
    | inl jsonType =>
        if decide (jsonType = gjson.True ∨ jsonType = gjson.False) then
          Done (<[curr := gjson.False]> (<[curr := gjson.True]> paths))
        else if decide (jsonType ≠ gjson.JSON) then
          Done (<[curr := jsonType]> paths)
        else if decide (reflect.KindOf t = reflect.Array
                        ∨ reflect.KindOf t = reflect.Slice
                        ∨ reflect.KindOf t = reflect.Map) then
          Done (<[curr := gjson.JSON]> paths)
        else
          match VisibleFields t with
          | Done fields => buildPathsForFields lowerCase curr fields paths
          | Fail err => Fail err
          | Panic msg => Panic msg
          end
    end.
Proof. destruct t as [name []]; reflexivity. Qed.

Lemma buildPathsForField_struct paths curr name fields :
  buildPathsForField lowerCase paths curr
    (reflect.mkType name (reflect.SStruct fields))
  = buildPathsForFields lowerCase curr fields paths.
Proof. reflexivity. Qed.

Ltac walk_leaf :=
  rewrite buildPathsForField_eq;
  cbn [getJSONType reflect.KindOf reflect.shapeOf reflect.basicKind
       VisibleFields List.find stopsWalk unsupportedKind orb walkOutcome];
  repeat first [case_bool_decide | case_decide];
  cbn [walkOutcome unsupportedKind reflect.KindOf reflect.shapeOf
       reflect.basicKind];
  try discriminate; try (exfalso; intuition discriminate); eauto.

Lemma buildPathsForField_leaf paths curr name shape :
  (∀ fields, shape ≠ reflect.SStruct fields) →
  walkOutcome (List.find stopsWalk [reflect.mkType name shape])
    (buildPathsForField lowerCase paths curr (reflect.mkType name shape)).
Proof.
  intros Hleaf. destruct shape as [| b | | | | | | | | fields];
    try (by destruct (Hleaf fields)); try (walk_leaf; fail).
  destruct b; walk_leaf.
Qed.

Lemma find_app {A} (f : A → bool) (l1 l2 : list A) :
  List.find f (l1 ++ l2)
  = match List.find f l1 with Some x => Some x | None => List.find f l2 end.
Proof. induction l1 as [| x l1 IH]; simpl; [done |]. by destruct (f x). Qed.

(** The walk below the root ends as the first type of its order that
    stops it says: an error for an unsupported kind, a panic for a
    pointer, and a path map when nothing stops it. *)
Lemma buildPathsForField_walk t :
  ∀ paths curr,
    walkOutcome (List.find stopsWalk (walkOrder t))
      (buildPathsForField lowerCase paths curr t).
Proof.
  induction t as [name shape Hleaf | name fields IH] using Type_fields_ind;
    intros paths curr.
  { destruct shape; try (by apply buildPathsForField_leaf);
      by destruct (Hleaf fields). }
  rewrite buildPathsForField_struct.
  cbn [walkOrder List.find]. change (stopsWalk _) with false. cbv iota.
  fold (walkOrderFields fields).
  revert paths. induction IH as [| f fields Hf _ IHfs]; intros paths.
  { cbn. eauto. }
  cbn [walkOrderFields flat_map buildPathsForFields]. fold (walkOrderFields fields).
  unfold walked.
  destruct (reflect.IsExported f); cbn [negb andb]; [| by apply IHfs].
  destruct (decide (getJSONName f = jsonIgnoreTag)) as [Hign | Hign].
  { rewrite bool_decide_eq_true_2 by done. by apply IHfs. }
  rewrite bool_decide_eq_false_2 by done. cbn [negb]. rewrite find_app.
  specialize (Hf paths (appendToPath lowerCase curr (getJSONName f))).
  destruct (List.find stopsWalk (walkOrder (reflect.FieldType f))) as [ty |].
  - cbn [walkOutcome] in *. destruct (unsupportedKind _); by rewrite Hf.
  - destruct Hf as (paths' & ->). by apply IHfs.
Qed.

(** The same for the loop of the root, which wraps the error with the
    name of the field. *)
Lemma buildPathsForRootFields_walk fields :
  ∀ paths,
    match List.find stopsWalk (walkOrderRootFields fields) with
    | None => ∃ paths', buildPathsForRootFields lowerCase fields paths = Done paths'
    | Some ty =>
        if unsupportedKind (reflect.KindOf ty)
        then ∃ name, buildPathsForRootFields lowerCase fields paths
                     = Fail (wrapError [ArgS name; ArgS (str " :")]
                               (unsupportedError ty) [])
        else buildPathsForRootFields lowerCase fields paths
             = Panic panicVisibleFields
    end.
Proof.
  induction fields as [| f fields IH]; intros paths.
  { cbn. eauto. }
  cbn [walkOrderRootFields flat_map buildPathsForRootFields].
  fold (walkOrderRootFields fields).
  destruct (reflect.IsExported f); cbn [negb]; [| by apply IH].
  rewrite find_app.
  pose proof (buildPathsForField_walk (reflect.FieldType f) paths
                (appendToPath lowerCase [] (getJSONName f))) as Hf.
  destruct (List.find stopsWalk (walkOrder (reflect.FieldType f))) as [ty |].
  - cbn [walkOutcome] in Hf. destruct (unsupportedKind _); rewrite Hf; eauto.
  - destruct Hf as (paths' & ->). by apply IH.
Qed.

Lemma buildPathsForRoot_struct name fields :
  buildPathsForRoot lowerCase (reflect.mkType name (reflect.SStruct fields))
  = buildPathsForRootFields lowerCase fields ∅.
Proof. reflexivity. Qed.

Lemma KindOf_Struct t :
  reflect.KindOf t = reflect.Struct →
  ∃ name fields, t = reflect.mkType name (reflect.SStruct fields).
Proof.
  destruct t as [name shape]. destruct shape as [| b | | | | | | | |];
    try discriminate; [by destruct b | eauto].
Qed.

Lemma Is_unsupported before after ty :
  errors.Is (wrapError before (unsupportedError ty) after) ErrUnsupportedType = true.
Proof.
  unfold unsupportedError. cbn [errors.Is].
  apply orb_true_iff. right. apply orb_true_iff. right.
  unfold ErrUnsupportedType, errors.New. cbn [errors.Is].
  by rewrite bool_decide_eq_true_2.
Qed.

(** A field of array, slice or map type ends the walk of its branch with
    the tag [JSON] at its path, whatever the elements are. *)
Lemma buildPathsForField_collection paths curr t :
  reflect.KindOf t = reflect.Array ∨ reflect.KindOf t = reflect.Slice
  ∨ reflect.KindOf t = reflect.Map →
  buildPathsForField lowerCase paths curr t = Done (<[curr := gjson.JSON]> paths).
Proof.
  intros Hkind. rewrite buildPathsForField_eq. unfold getJSONType.
  destruct Hkind as [-> | [-> | ->]]; repeat case_decide;
    try done; exfalso; intuition discriminate.
Qed.

(** No walk records the tag of the literal [true]. *)
Lemma buildPathsForField_no_True t :
  ∀ paths curr paths',
    (∀ p, paths !! p ≠ Some gjson.True) →
    buildPathsForField lowerCase paths curr t = Done paths' →
    ∀ p, paths' !! p ≠ Some gjson.True.
Proof.
  assert (Hins : ∀ (paths : jsonPaths) curr k,
            k ≠ gjson.True → (∀ p, paths !! p ≠ Some gjson.True) →
            ∀ p, <[curr := k]> paths !! p ≠ Some gjson.True).
  { intros paths curr k Hk Hpaths p. rewrite lookup_insert. case_decide; [| done].
    congruence. }
  induction t as [name shape Hleaf | name fields IH] using Type_fields_ind;
    intros paths curr paths' Hpaths.
  - rewrite buildPathsForField_eq.
    destruct (getJSONType _) as [jsonType | err]; [| done].
    repeat case_decide.
    + intros [= <-]. rewrite insert_insert_eq. by apply Hins.
    + intros [= <-]. apply Hins; [tauto | done].
    + intros [= <-]. by apply Hins.
    + destruct shape; try discriminate. by destruct (Hleaf fields).
  - rewrite buildPathsForField_struct. revert paths Hpaths.
    induction IH as [| f fields Hf _ IHfs]; intros paths Hpaths;
      cbn [buildPathsForFields].
    { by intros [= <-]. }
    destruct (reflect.IsExported f); cbn [negb]; [| by apply IHfs].
    case_decide; [by apply IHfs |].
    destruct (buildPathsForField _ _ _ _) as [paths1 | |] eqn:Hwalk; try done.
    apply IHfs. by eapply Hf.
Qed.

Lemma buildPathsForRoot_no_True t paths :
  buildPathsForRoot lowerCase t = Done paths →
  ∀ p, paths !! p ≠ Some gjson.True.
Proof.
  unfold buildPathsForRoot. case_decide; [done |].
  destruct (VisibleFields t) as [fields | |]; try done.
  assert (Hempty : ∀ p, (∅ : jsonPaths) !! p ≠ Some gjson.True)
    by (intros p; by rewrite lookup_empty).
  revert Hempty. generalize (∅ : jsonPaths). clear.
  induction fields as [| f fields IH]; intros acc Hacc;
    cbn [buildPathsForRootFields].
  { by intros [= <-]. }
  destruct (reflect.IsExported f); cbn [negb]; [| by apply IH].
  destruct (buildPathsForField _ _ _ _) as [paths1 | |] eqn:Hwalk; try done.
  apply IH. by eapply buildPathsForField_no_True.
Qed.

(** C9: a record whose walk reaches a pointer-typed field before any field
    of an unsupported kind is not walked to the end: [buildPathsForRoot]
    panics in [reflect.VisibleFields], whatever the pointer points to, and
    produces neither a path map nor an error. *)
Theorem buildPathsForRoot_pointer_panics (t ty : reflect.Type_) :
  reflect.KindOf t = reflect.Struct →
  List.find stopsWalk (walkOrderRoot t) = Some ty →
  reflect.KindOf ty = reflect.Pointer →
  buildPathsForRoot lowerCase t = Panic panicVisibleFields.
Proof.
  intros (name & fields & ->)%KindOf_Struct Hstop Hptr.
  rewrite buildPathsForRoot_struct.
  pose proof (buildPathsForRootFields_walk fields ∅) as Hwalk.
  cbn [walkOrderRoot reflect.shapeOf] in Hstop. rewrite Hstop in Hwalk.
  by rewrite Hptr in Hwalk.
Qed.
End WalkerFacts.

(** ** Ranging over maps, fingerprints and resolution *)

Section RangeFacts.
Context {Seed : Type}.
Variable rangeOrder : ∀ A : Type, Seed → list A → list A.
Variable nextSeed : Seed → Seed.
Hypothesis rangeOrder_perm : ∀ A seed (l : list A), rangeOrder A seed l ≡ₚ l.

Section Rule.
Context `{Countable K} {V X R : Type}.
Variable live : X → gmap K V.
Variable body : K → V → Seed * X → flow (Seed * X) R.
(** [I visited x]: what holds of the state once the loop has been
    through the keys [visited]. *)
Variable I : list K → X → Prop.
Hypothesis I_step : ∀ visited k v s,
  I visited s.2 → live s.2 !! k = Some v →
  ∃ s', body k v s = Next s' ∧ I (k :: visited) s'.2.
Hypothesis I_skip : ∀ visited k x,
  I visited x → live x !! k = None → I (k :: visited) x.

Lemma rangeEntries_rule es visited s :
  I visited s.2 →
  ∃ s', rangeEntries live body es s = Next s' ∧
        I (reverse es.*1 ++ visited) s'.2.
Proof using I_step I_skip.
  revert visited s. induction es as [| e es IH]; intros visited s HI.
  { exists s. by split. }
  cbn [rangeEntries fmap list_fmap].
  rewrite reverse_cons, <- app_assoc. cbn [app].
  destruct (live s.2 !! e.1) as [v |] eqn:Hlive.
  - destruct (I_step _ _ _ _ HI Hlive) as (s' & -> & HI'). by apply IH.
  - apply IH. by apply I_skip.
Qed.

Lemma range_rule s :
  I [] s.2 →
  ∃ s' visited, range rangeOrder nextSeed live body s = Next s' ∧
                I visited s'.2 ∧
                ∀ k, is_Some (live s.2 !! k) → k ∈ visited.
Proof using I_step I_skip rangeOrder_perm.
  intros HI. unfold range.
  set (es := rangeOrder _ _ _).
  destruct (rangeEntries_rule es [] (nextSeed s.1, s.2) HI) as (s' & Hs' & HI').
  exists s', (reverse es.*1 ++ []). split_and!; [done | done |].
  intros k [v Hk]. rewrite app_nil_r, elem_of_reverse.
  apply list_elem_of_fmap. exists (k, v). split; [done |].
  subst es. rewrite rangeOrder_perm. by apply elem_of_map_to_list.
Qed.
End Rule.

(** *** The loops of [makeUniquePaths] *)

Lemma pathsOf_deletePath (cp : candidateMap) c path X :
  pathsOf (deletePath c path cp) X
  = if decide (c = X) then delete path (pathsOf cp X) else pathsOf cp X.
Proof.
  unfold pathsOf, deletePath. rewrite lookup_alter.
  case_decide as Heq; [| done].
  rewrite <-Heq. destruct (cp !! c) as [e |]; simpl; [done |].
  by rewrite delete_empty.
Qed.

Lemma candidate_deletePath (cp : candidateMap) c path X :
  fst <$> deletePath c path cp !! X = fst <$> cp !! X.
Proof.
  unfold deletePath. rewrite lookup_alter.
  case_decide as Heq; [| done]. rewrite <-Heq. by destruct (cp !! c).
Qed.

Lemma rangePathsB_spec (A : positive) (pathA : gostring) (typeA : gjson.Type_)
    (B : positive) (sd : Seed) (cp : candidateMap) :
  rangePathsB rangeOrder nextSeed A pathA typeA B (sd, cp)
  = Next (nextSeed sd,
          if decide (pathsOf cp B !! pathA = Some typeA)
          then deletePath B pathA (deletePath A pathA cp) else cp).
Proof using rangeOrder_perm.
  unfold rangePathsB, range. cbn [fst snd].
  set (es := rangeOrder _ _ _).
  assert (Hes : ∀ k, is_Some (pathsOf cp B !! k) → k ∈ es.*1).
  { intros k [v Hk]. apply list_elem_of_fmap. exists (k, v). split; [done |].
    subst es. rewrite rangeOrder_perm. by apply elem_of_map_to_list. }
  assert (Hgen : ∀ l sd',
    rangeEntries (λ cp0 : candidateMap, pathsOf cp0 B)
      (λ pathB typeB (s : Seed * candidateMap),
         if decide (pathA = pathB ∧ typeA = typeB)
         then Break (R:=Empty_set)
                (s.1, deletePath B pathB (deletePath A pathA s.2))
         else Next s) l (sd', cp)
    = Next (sd', if decide (pathA ∈ l.*1 ∧ pathsOf cp B !! pathA = Some typeA)
                 then deletePath B pathA (deletePath A pathA cp) else cp)).
  { induction l as [| e l IH]; intros sd'.
    { cbn. rewrite decide_False; [done |]. intros [Hin _]. by apply elem_of_nil in Hin. }
    cbn [rangeEntries fst snd fmap list_fmap].
    destruct (pathsOf cp B !! e.1) as [v |] eqn:Hlook.
    - destruct (decide (pathA = e.1 ∧ typeA = v)) as [[Hp Ht] | Hhit].
      + rewrite decide_True; [by rewrite <-Hp |].
        split; [apply elem_of_cons; by left | congruence].
      + rewrite IH. f_equal. f_equal. apply decide_ext.
        rewrite elem_of_cons. split; [tauto |].
        intros [[-> | Hin] Hv]; [| tauto].
        exfalso. apply Hhit. split; [done | congruence].
    - rewrite IH. f_equal. f_equal. apply decide_ext.
      rewrite elem_of_cons. split; [tauto |].
      intros [[-> | Hin] Hv]; [congruence | tauto]. }
  rewrite Hgen. f_equal. f_equal. apply decide_ext.
  split; [tauto |]. intros Hv. split; [| done]. apply Hes. by rewrite Hv.
Qed.

Lemma rangeCandidatesB_spec (A : positive) (cA : candidate) (pathA : gostring)
    (typeA : gjson.Type_) (sd : Seed) (cp : candidateMap) :
  (∀ e, cp !! A = Some e → typ e.1 = typ cA) →
  ∃ s', rangeCandidatesB rangeOrder nextSeed A cA pathA typeA (sd, cp) = Next s' ∧
        searched cp A cA pathA typeA (λ _, True) s'.2.
Proof using rangeOrder_perm.
  intros HA. unfold rangeCandidatesB.
  edestruct (range_rule (X:=candidateMap) (R:=Empty_set) (λ cp0, cp0)
    (λ candidateB eB s,
       if decide (typ cA = typ eB.1) then Next s
       else rangePathsB rangeOrder nextSeed A pathA typeA candidateB s)
    (λ visited cur, searched cp A cA pathA typeA (λ X, X ∈ visited) cur))
    with (s := (sd, cp)) as (s' & visited & Hrun & Hinv & Hall).
  - (* one candidate B *)
    intros visited B eB [sd0 cur] Hinv HB. cbn [fst snd] in *.
    destruct Hinv as [I0 I1 I2 I3 I4].
    assert (HeB : ∃ e, cp !! B = Some e ∧ e.1 = eB.1).
    { specialize (I0 B). rewrite HB in I0. destruct (cp !! B) as [e |]; [| done].
      exists e. split; [done |]. by injection I0. }
    destruct HeB as (e & Hcp & He).
    destruct (decide (typ cA = typ eB.1)) as [Hsame | Hdiff].
    { eexists. split; [done |]. cbn [snd]. split; try done.
      - intros X p v H1 H2. destruct (I2 X p v H1 H2) as [-> Hc]. split; [done |].
        destruct Hc as [[? ?] | [-> (B' & ? & ?)]]; [left | right; split; [done | exists B']];
          split; try done; apply elem_of_cons; by right.
      - intros X [-> | HX]%elem_of_cons Ht; [| by apply I3].
        destruct Ht as (e' & He' & Hne & _). congruence.
      - intros (B' & [-> | HB']%elem_of_cons & Ht); [| apply I4; eauto].
        destruct Ht as (e' & He' & Hne & _). congruence. }
    assert (HBA : B ≠ A).
    { intros ->. apply Hdiff. rewrite <-He. symmetry. by apply HA. }
    rewrite rangePathsB_spec. eexists. split; [done |]. cbn [snd].
    destruct (decide (pathsOf cur B !! pathA = Some typeA)) as [Hhit | Hmiss].
    + assert (Htarget : target cp cA pathA typeA B).
      { exists e. split; [done |]. split; [congruence |].
        apply I1 in Hhit. unfold pathsOf in Hhit. by rewrite Hcp in Hhit. }
      split.
      * intros X. by rewrite !candidate_deletePath.
      * intros X p v. rewrite !pathsOf_deletePath.
        repeat case_decide; subst; rewrite ?lookup_delete_Some; try tauto;
          intros; apply I1; tauto.
      * intros X p v Hv. rewrite !pathsOf_deletePath.
        destruct (decide (p = pathA)) as [-> | Hp].
        -- intros Hnone. split; [done |].
           destruct (decide (B = X)) as [<- | HBX].
           { left. split; [apply elem_of_cons; by left | done]. }
           destruct (decide (A = X)) as [<- | HAX].
           { right. split; [done |]. exists B. split; [apply elem_of_cons; by left | done]. }
           destruct (I2 X pathA v Hv Hnone) as [_ Hc].
           destruct Hc as [[? ?] | [-> _]]; [| done].
           left. split; [apply elem_of_cons; by right | done].
        -- repeat case_decide; rewrite ?lookup_delete_ne by done;
             intros Hnone; destruct (I2 X p v Hv Hnone) as [-> _]; done.
      * intros X HX Ht. rewrite !pathsOf_deletePath.
        destruct (decide (B = X)) as [<- | HBX]; [by rewrite lookup_delete_eq |].
        destruct (decide (A = X)) as [<- | HAX]; [by rewrite lookup_delete_eq |].
        apply elem_of_cons in HX as [-> | HX]; [done | by apply I3].
      * intros _. rewrite !pathsOf_deletePath.
        rewrite decide_False by done. rewrite decide_True by done.
        by rewrite lookup_delete_eq.
    + assert (HnoB : target cp cA pathA typeA B → pathsOf cur B !! pathA = None).
      { intros (e' & He' & _ & Hv).
        destruct (pathsOf cur B !! pathA) as [v |] eqn:Hcur; [| done].
        exfalso. apply Hmiss. f_equal. apply I1 in Hcur.
        unfold pathsOf in Hcur. rewrite He' in Hcur. congruence. }
      split; try done.
      * intros X p v H1 H2. destruct (I2 X p v H1 H2) as [-> Hc]. split; [done |].
        destruct Hc as [[? ?] | [-> (B' & ? & ?)]]; [left | right; split; [done | exists B']];
          split; try done; apply elem_of_cons; by right.
      * intros X [-> | HX]%elem_of_cons Ht; [by apply HnoB | by apply I3].
      * intros (B' & [-> | HB']%elem_of_cons & Ht); [| apply I4; eauto].
        pose proof (HnoB Ht) as Hnone.
        destruct Ht as (e' & He' & Hne & Hv).
        assert (Hcpv : pathsOf cp B !! pathA = Some typeA)
          by (unfold pathsOf; by rewrite He').
        destruct (I2 B pathA typeA Hcpv Hnone) as [_ [[HBv Ht] | [-> _]]]; [| done].
        apply I4. eauto.
  - (* a candidate deleted before it is reached: there is none *)
    intros visited B cur [I0 I1 I2 I3 I4] HB.
    assert (Hnot : ¬ target cp cA pathA typeA B).
    { intros (e & He & _). specialize (I0 B). rewrite HB, He in I0. done. }
    split; try done.
    + intros X p v H1 H2. destruct (I2 X p v H1 H2) as [-> Hc]. split; [done |].
      destruct Hc as [[? ?] | [-> (B' & ? & ?)]]; [left | right; split; [done | exists B']];
        split; try done; apply elem_of_cons; by right.
    + intros X [-> | HX]%elem_of_cons Ht; [done | by apply I3].
    + intros (B' & [-> | HB']%elem_of_cons & Ht); [done | apply I4; eauto].
  - (* before the loop *)
    cbn [snd]. split; try done.
    + intros X p v H1 H2. congruence.
    + intros X HX%elem_of_nil. done.
    + intros (B & HB%elem_of_nil & _). done.
  - exists s'. split; [done |]. cbn [snd] in Hall.
    destruct Hinv as [I0 I1 I2 I3 I4].
    assert (Hvis : ∀ X, target cp cA pathA typeA X → X ∈ visited).
    { intros X (e & He & _). apply Hall. by rewrite He. }
    split; try done.
    + intros X p v H1 H2. destruct (I2 X p v H1 H2) as [-> Hc]. split; [done |].
      destruct Hc as [[? ?] | [-> (B' & ? & ?)]]; [by left | right; split; [done | by exists B']].
    + intros X _ Ht. apply I3; [by apply Hvis | done].
    + intros (B & _ & Ht). apply I4. exists B. split; [by apply Hvis | done].
Qed.

Lemma hasEntry_lookup (cp : candidateMap) X p k :
  hasEntry cp X p k → ∃ e, cp !! X = Some e ∧ e.2 !! p = Some k.
Proof.
  unfold hasEntry, pathsOf. destruct (cp !! X) as [e |]; [eauto |].
  by rewrite lookup_empty.
Qed.

Lemma settled_sub (cur cur' : candidateMap) A p :
  (∀ X q k, hasEntry cur' X q k → hasEntry cur X q k) →
  settled cur A p → settled cur' A p.
Proof. intros Hsub Hs k HA Y HY HYk. eapply Hs; eauto. Qed.

(** One entry of candidate [A] searched for in the other candidates. *)
Lemma searched_pruned (cp0 cur cur' : candidateMap) A eA pathA typeA :
  distinctTypes cp0 →
  pruned cp0 cur →
  cur !! A = Some eA →
  hasEntry cur A pathA typeA →
  searched cur A eA.1 pathA typeA (λ _, True) cur' →
  pruned cp0 cur' ∧ settled cur' A pathA ∧
  (∀ X q k, hasEntry cur' X q k → hasEntry cur X q k).
Proof.
  intros Hdist [J0 J1 J2 J3] HA HAe [S0 S1 S2 S3 S4].
  assert (Htarget : ∀ X, target cur eA.1 pathA typeA X
                         ↔ X ≠ A ∧ hasEntry cur X pathA typeA).
  { intros X. split.
    - intros (e & He & Hne & Hv). split; [intros ->; congruence |].
      unfold hasEntry, pathsOf. by rewrite He.
    - intros [HX Hv]. destruct (hasEntry_lookup _ _ _ _ Hv) as (e & He & Hev).
      exists e. split; [done |]. split; [| done].
      pose proof (J0 A) as HfA. pose proof (J0 X) as HfX.
      rewrite HA in HfA. rewrite He in HfX.
      destruct (cp0 !! A) as [eA0 |] eqn:HA0; [| done].
      destruct (cp0 !! X) as [eX0 |] eqn:HX0; [| done].
      injection HfA as ->. injection HfX as ->.
      eapply Hdist; eauto. }
  assert (Hfun : ∀ X q k, hasEntry cur X q k → ¬ hasEntry cur' X q k →
                          pathsOf cur' X !! q = None).
  { intros X q k Hk Hnk. destruct (pathsOf cur' X !! q) as [k' |] eqn:Hk'; [| done].
    exfalso. apply Hnk. pose proof (S1 _ _ _ Hk') as Hc. unfold hasEntry in *. congruence. }
  assert (Hgone : ∀ X q k, hasEntry cur X q k → ¬ hasEntry cur' X q k →
                           q = pathA ∧ k = typeA ∧ ∃ B, target cur eA.1 pathA typeA B).
  { intros X q k Hk Hnk. pose proof (Hfun _ _ _ Hk Hnk) as Hnone.
    destruct (S2 X q k Hk Hnone) as [-> Hc]. split; [done |].
    destruct Hc as [[_ Ht] | [-> (B & _ & Ht)]].
    - split; [| eauto]. apply Htarget in Ht as [_ Ht].
      unfold hasEntry in *. congruence.
    - split; [| eauto]. unfold hasEntry in *. congruence. }
  split; [split | split].
  - intros X. by rewrite S0.
  - intros X p k Hk. by apply J1, S1.
  - intros p k. destruct (J2 p k) as [Hall | Hnone].
    + destruct (pathsOf cur' A !! pathA) as [k' |] eqn:HA'.
      * left. intros X H0. pose proof (Hall X H0) as Hk.
        destruct (decide (hasEntry cur' X p k)) as [| Hnk]; [done |].
        destruct (Hgone X p k Hk Hnk) as (-> & -> & B & Ht).
        assert (Some k' = None) by (apply S4; eauto). done.
      * destruct (decide (p = pathA ∧ k = typeA)) as [[-> ->] | Hne].
        -- right. intros X HX. pose proof (S1 _ _ _ HX) as HXc.
           destruct (decide (X = A)) as [-> | HXA];
             [unfold hasEntry in HX; congruence |].
           assert (Ht : target cur eA.1 pathA typeA X) by (apply Htarget; done).
           unfold hasEntry in HX. rewrite (S3 X I Ht) in HX. done.
        -- left. intros X H0. pose proof (Hall X H0) as Hk.
           destruct (decide (hasEntry cur' X p k)) as [| Hnk]; [done |].
           destruct (Hgone X p k Hk Hnk) as (-> & -> & _). tauto.
    + right. intros X HX. apply (Hnone X). by apply S1.
  - intros X p k H0 Hnk.
    destruct (decide (hasEntry cur X p k)) as [Hk | Hnk0]; [| by apply J3].
    destruct (Hgone X p k Hk Hnk) as (-> & -> & B & Ht).
    apply Htarget in Ht as [HBA HB].
    destruct (decide (X = A)) as [-> | HXA].
    + exists B. split; [done | by apply J1].
    + exists A. split; [done | by apply J1].
  - intros k HAk Y HY HYk.
    assert (k = typeA) as ->.
    { apply S1 in HAk. unfold hasEntry in *. congruence. }
    assert (Ht : target cur eA.1 pathA typeA Y).
    { apply Htarget. split; [done | by apply S1]. }
    unfold hasEntry in HAk. rewrite S4 in HAk; [done | eauto].
  - apply S1.
Qed.

Lemma settled_absent (cur : candidateMap) A p :
  cur !! A = None → settled cur A p.
Proof.
  intros HA k Hk. unfold hasEntry, pathsOf in Hk. rewrite HA in Hk.
  by rewrite lookup_empty in Hk.
Qed.

Lemma rangePathsA_pruned (cp0 cur : candidateMap) (A : positive)
    (eA : candidate * jsonPaths) (P : candidateMap → Prop) (sd : Seed) :
  distinctTypes cp0 →
  pruned cp0 cur →
  cur !! A = Some eA →
  (∀ c c' : candidateMap,
     P c → (∀ X q k, hasEntry c' X q k → hasEntry c X q k) → P c') →
  P cur →
  ∃ s', rangePathsA rangeOrder nextSeed A eA.1 (sd, cur) = Next s' ∧
        pruned cp0 s'.2 ∧ P s'.2 ∧ ∀ p, settled s'.2 A p.
Proof using rangeOrder_perm.
  intros Hdist Hpr HA Hmono HP. unfold rangePathsA.
  edestruct (range_rule (X:=candidateMap) (R:=Empty_set)
    (λ cp, pathsOf cp A) (rangeCandidatesB rangeOrder nextSeed A eA.1)
    (λ visited c, pruned cp0 c ∧ P c ∧
                  (∀ X q k, hasEntry c X q k → hasEntry cur X q k) ∧
                  ∀ p, p ∈ visited → settled c A p))
    with (s := (sd, cur)) as (s' & visited & Hrun & Hinv & Hall).
  - intros visited pathA typeA [sd0 c] (Hprc & HPc & Hsub & Hset) Hlive.
    cbn [fst snd] in *.
    assert (HcA : ∃ e, c !! A = Some e ∧ e.1 = eA.1).
    { pose proof (pruned_candidates _ _ Hprc A) as H1.
      pose proof (pruned_candidates _ _ Hpr A) as H2.
      rewrite HA in H2. rewrite <-H2 in H1.
      destruct (c !! A) as [e |]; [| done]. exists e. split; [done |].
      by injection H1. }
    destruct HcA as (e & HcA & He).
    destruct (rangeCandidatesB_spec A eA.1 pathA typeA sd0 c) as (s1 & Hs1 & Hsearched).
    { intros e' He'. congruence. }
    exists s1. split; [done |].
    rewrite <-He in Hsearched.
    destruct (searched_pruned cp0 c s1.2 A e pathA typeA Hdist Hprc HcA Hlive Hsearched)
      as (Hpr1 & Hset1 & Hsub1).
    split_and!; [done | by eapply Hmono | by eauto |].
    intros p [-> | Hp]%elem_of_cons; [done |].
    eapply settled_sub; [exact Hsub1 | by apply Hset].
  - intros visited p c (Hprc & HPc & Hsub & Hset) Hlive.
    split_and!; try done.
    intros q [-> | Hq]%elem_of_cons; [| by apply Hset].
    intros k Hk. unfold hasEntry in Hk. congruence.
  - cbn [snd]. split_and!; try done. intros p Hp%elem_of_nil. done.
  - exists s'. split; [done |]. destruct Hinv as (Hpr' & HP' & Hsub & Hset).
    split_and!; try done.
    intros p. cbn [snd] in Hall.
    destruct (pathsOf cur A !! p) as [k |] eqn:Hp.
    + apply Hset, Hall. by rewrite Hp.
    + intros k Hk. apply Hsub in Hk. unfold hasEntry in Hk. congruence.
Qed.

Lemma makeUniquePaths_pruned (cp0 : candidateMap) (seed : Seed) :
  distinctTypes cp0 →
  pruned cp0 (makeUniquePaths rangeOrder nextSeed cp0 seed).2 ∧
  ∀ A p, settled (makeUniquePaths rangeOrder nextSeed cp0 seed).2 A p.
Proof using rangeOrder_perm.
  intros Hdist. unfold makeUniquePaths.
  edestruct (range_rule (X:=candidateMap) (R:=Empty_set)
    (λ cp : candidateMap, cp)
    (λ candidateA eA, rangePathsA rangeOrder nextSeed candidateA eA.1)
    (λ visited c, pruned cp0 c ∧ ∀ A, A ∈ visited → ∀ p, settled c A p))
    with (s := (seed, cp0)) as (s' & visited & Hrun & Hinv & Hall).
  - intros visited A eA [sd c] [Hprc Hset] Hlive. cbn [fst snd] in *.
    destruct (rangePathsA_pruned cp0 c A eA
                (λ c', ∀ A', A' ∈ visited → ∀ p, settled c' A' p) sd)
      as (s1 & Hs1 & Hpr1 & Hset1 & HsetA); try done.
    { intros c1 c2 H1 Hsub A' HA' p. eapply settled_sub; [exact Hsub | by apply H1]. }
    exists s1. split; [done |]. split; [done |].
    intros A' [-> | HA']%elem_of_cons; [done | by apply Hset1].
  - intros visited A c [Hprc Hset] Hlive. split; [done |].
    intros A' [-> | HA']%elem_of_cons p; [by apply settled_absent | by apply Hset].
  - cbn [snd]. split.
    + split; try done. intros p k. by left.
    + intros A HA%elem_of_nil. done.
  - rewrite Hrun. cbn [finish]. destruct Hinv as [Hpr Hset]. split; [done |].
    intros A p. cbn [snd] in Hall.
    destruct (cp0 !! A) as [e |] eqn:HA.
    + apply Hset, Hall. by rewrite HA.
    + apply settled_absent. pose proof (pruned_candidates _ _ Hpr A) as H1.
      rewrite HA in H1. by destruct (s'.2 !! A).
Qed.

(** The fingerprint of a candidate is made of its entries that no other
    candidate holds. *)
Lemma makeUniquePaths_unique (cp0 : candidateMap) (seed : Seed) :
  distinctTypes cp0 →
  ∀ X p k,
    hasEntry (makeUniquePaths rangeOrder nextSeed cp0 seed).2 X p k
    ↔ hasEntry cp0 X p k ∧ ∀ Y, Y ≠ X → ¬ hasEntry cp0 Y p k.
Proof using rangeOrder_perm.
  intros Hdist X p k.
  destruct (makeUniquePaths_pruned cp0 seed Hdist) as [[J0 J1 J2 J3] Hset].
  split.
  - intros HX. split; [by apply J1 |]. intros Y HY HYk.
    destruct (J2 p k) as [Hall | Hnone]; [| by apply (Hnone X)].
    eapply Hset; eauto.
  - intros [HX Huniq].
    destruct (decide (hasEntry (makeUniquePaths rangeOrder nextSeed cp0 seed).2 X p k))
      as [| Hn]; [done |].
    destruct (J3 X p k HX Hn) as (Y & HY & HYk). by destruct (Huniq Y HY).
Qed.

(** *** Disjoint path maps are left as they are *)

Lemma searched_none (cp cur : candidateMap) A cA pathA typeA :
  searched cp A cA pathA typeA (λ _, True) cur →
  (∀ X, ¬ target cp cA pathA typeA X) →
  cur = cp.
Proof.
  intros [S0 S1 S2 S3 S4] Hno. apply map_eq. intros X.
  assert (Hp : pathsOf cur X = pathsOf cp X).
  { apply map_eq. intros p.
    destruct (pathsOf cur X !! p) as [v |] eqn:Hcur.
    - symmetry. by apply S1.
    - destruct (pathsOf cp X !! p) as [v |] eqn:Hcp; [| done].
      destruct (S2 X p v Hcp Hcur) as [_ [[_ Ht] | [_ (B & _ & Ht)]]];
        by apply Hno in Ht. }
  specialize (S0 X). unfold pathsOf in Hp.
  destruct (cur !! X) as [[c1 m1] |], (cp !! X) as [[c2 m2] |];
    simpl in *; try done. congruence.
Qed.

Lemma makeUniquePaths_disjoint (cp0 : candidateMap) (seed : Seed) :
  disjointPaths cp0 →
  (makeUniquePaths rangeOrder nextSeed cp0 seed).2 = cp0.
Proof using rangeOrder_perm.
  intros Hdisj. unfold makeUniquePaths.
  edestruct (range_rule (X:=candidateMap) (R:=Empty_set)
    (λ cp : candidateMap, cp)
    (λ candidateA eA, rangePathsA rangeOrder nextSeed candidateA eA.1)
    (λ _ c, c = cp0))
    with (s := (seed, cp0)) as (s' & visited & Hrun & Hinv & _);
    [| done | done | by rewrite Hrun].
  intros _ A eA [sd c] Hc HA. cbn [fst snd] in *. subst c.
  unfold rangePathsA.
  edestruct (range_rule (X:=candidateMap) (R:=Empty_set)
    (λ cp, pathsOf cp A) (rangeCandidatesB rangeOrder nextSeed A eA.1)
    (λ _ c, c = cp0))
    with (s := (sd, cp0)) as (s' & visited & Hrun & Hinv & _);
    [| done | done | by exists s'].
  intros _ pathA typeA [sd1 c] Hc Hlive. cbn [fst snd] in *. subst c.
  destruct (rangeCandidatesB_spec A eA.1 pathA typeA sd1 cp0) as (s1 & Hs1 & Hsearched).
  { intros e He. congruence. }
  exists s1. split; [done |].
  eapply searched_none; [exact Hsearched |].
  intros X (e & He & Hne & Hv).
  apply (Hdisj A X pathA typeA).
  - intros ->. congruence.
  - exact Hlive.
  - unfold hasEntry, pathsOf. by rewrite He.
Qed.

(** Whatever the types of the candidates, the builder only deletes. *)
Lemma makeUniquePaths_sub (cp0 : candidateMap) (seed : Seed) :
  (∀ X, fst <$> (makeUniquePaths rangeOrder nextSeed cp0 seed).2 !! X
        = fst <$> cp0 !! X) ∧
  ∀ X p k, hasEntry (makeUniquePaths rangeOrder nextSeed cp0 seed).2 X p k →
           hasEntry cp0 X p k.
Proof using rangeOrder_perm.
  pose (Q := λ cur : candidateMap,
          (∀ X, fst <$> cur !! X = fst <$> cp0 !! X) ∧
          ∀ X p k, hasEntry cur X p k → hasEntry cp0 X p k).
  unfold makeUniquePaths.
  edestruct (range_rule (X:=candidateMap) (R:=Empty_set)
    (λ cp : candidateMap, cp)
    (λ candidateA eA, rangePathsA rangeOrder nextSeed candidateA eA.1)
    (λ _ c, Q c))
    with (s := (seed, cp0)) as (s' & visited & Hrun & Hinv & _);
    [| done | done | by rewrite Hrun].
  intros _ A eA [sd c] [Hc0 Hc1] HA. cbn [fst snd] in *.
  unfold rangePathsA.
  edestruct (range_rule (X:=candidateMap) (R:=Empty_set)
    (λ cp, pathsOf cp A) (rangeCandidatesB rangeOrder nextSeed A eA.1)
    (λ _ c, Q c))
    with (s := (sd, c)) as (s' & visited & Hrun & Hinv & _);
    [| done | done | by exists s'].
  intros _ pathA typeA [sd1 c1] [H0 H1] Hlive. cbn [fst snd] in *.
  destruct (rangeCandidatesB_spec A eA.1 pathA typeA sd1 c1) as (s1 & Hs1 & Hsearched).
  { intros e He. pose proof (H0 A) as HfA. pose proof (Hc0 A) as HfA'.
    rewrite He in HfA. rewrite HA in HfA'. rewrite <-HfA' in HfA.
    by injection HfA as ->. }
  exists s1. split; [done |]. destruct Hsearched as [S0 S1 _ _ _]. split.
  - intros X. by rewrite S0.
  - intros X p k Hk. by apply H1, S1.
Qed.

(** *** Resolution *)

Section Search.
Context `{Countable K} {V R : Type}.
Variable m : gmap K V.
Variable body : K → V → Seed * () → flow (Seed * ()) R.
(** [hit k v]: the body returns at the entry [(k, v)];
    [found r]: a result the loop may return. *)
Variable hit : K → V → Prop.
Variable found : R → Prop.
Hypothesis body_spec : ∀ k v s,
  m !! k = Some v →
  (∃ s', body k v s = Next s' ∧ ¬ hit k v)
  ∨ (∃ r, body k v s = Return r ∧ found r ∧ hit k v).

Lemma rangeEntries_search es s :
  (∃ r, rangeEntries (λ _, m) body es s = Return r ∧ found r)
  ∨ (∃ s', rangeEntries (λ _, m) body es s = Next s' ∧
           ∀ k v, k ∈ es.*1 → m !! k = Some v → ¬ hit k v).
Proof using body_spec.
  revert s. induction es as [| e es IH]; intros s.
  { right. exists s. split; [done |]. intros k v Hk%elem_of_nil. done. }
  cbn [rangeEntries fmap list_fmap].
  destruct (m !! e.1) as [v |] eqn:Hlook.
  - destruct (body_spec e.1 v s Hlook) as [(s' & -> & Hmiss) | (r & -> & Hr & _)];
      [| left; eauto].
    destruct (IH s') as [? | (s'' & Hrun & Hrest)]; [by left | right].
    exists s''. split; [done |].
    intros k v' [-> | Hk]%elem_of_cons Hv; [| by eapply Hrest].
    congruence.
  - destruct (IH s) as [? | (s'' & Hrun & Hrest)]; [by left | right].
    exists s''. split; [done |].
    intros k v' [-> | Hk]%elem_of_cons Hv; [congruence | by eapply Hrest].
Qed.

Lemma range_search s :
  (∃ r, range rangeOrder nextSeed (λ _, m) body s = Return r ∧ found r)
  ∨ (∃ s', range rangeOrder nextSeed (λ _, m) body s = Next s' ∧
           ∀ k v, m !! k = Some v → ¬ hit k v).
Proof using body_spec rangeOrder_perm.
  unfold range. set (es := rangeOrder _ _ _).
  destruct (rangeEntries_search es (nextSeed s.1, s.2)) as [? | (s' & Hrun & Hrest)];
    [by left | right].
  exists s'. split; [done |]. intros k v Hk. apply Hrest; [| done].
  apply list_elem_of_fmap. exists (k, v). split; [done |].
  subst es. rewrite rangeOrder_perm. by apply elem_of_map_to_list.
Qed.
End Search.

(** [matches r res t]: some fingerprint entry of a candidate of type [t]
    is found in the document with the kind it asks for. *)
Lemma ResolveJSON_spec (r : traverseResolver) (res : gjson.Result) (seed : Seed) :
  (∃ c e p k, paths r !! c = Some e ∧ e.2 !! p = Some k ∧
              gjson.GetType res p = k ∧
              traverseResolver_ResolveJSON rangeOrder nextSeed r res seed
              = (Some (typ e.1), None))
  ∨ ((∀ c e p k, paths r !! c = Some e → e.2 !! p = Some k →
                 gjson.GetType res p ≠ k) ∧
     traverseResolver_ResolveJSON rangeOrder nextSeed r res seed = (None, None)).
Proof using rangeOrder_perm.
  unfold traverseResolver_ResolveJSON.
  edestruct (range_search (paths r)
    (λ (c : positive) (e : candidate * jsonPaths),
       range rangeOrder nextSeed (λ _ : (), e.2)
         (λ path typ_ (s : Seed * ()),
            if decide (gjson.GetType res path = typ_) then Return (typ e.1)
            else Next s))
    (λ c e, ∃ p k, e.2 !! p = Some k ∧ gjson.GetType res p = k)
    (λ t, ∃ c e p k, paths r !! c = Some e ∧ e.2 !! p = Some k ∧
                     gjson.GetType res p = k ∧ t = typ e.1))
    with (s := (seed, ())) as [(t & Hrun & Hfound) | (s' & Hrun & Hnone)].
  - intros c e s Hc.
    edestruct (range_search e.2
      (λ path typ_ (s : Seed * ()),
         if decide (gjson.GetType res path = typ_) then Return (typ e.1)
         else Next s)
      (λ p k, gjson.GetType res p = k)
      (λ t, t = typ e.1 ∧ ∃ p k, e.2 !! p = Some k ∧ gjson.GetType res p = k))
      with (s := s) as [(t & Hrun & -> & Hhit) | (s' & Hrun & Hnone)].
    + intros p k s0 Hp. case_decide; [right | left]; eauto 10.
    + right. destruct Hhit as (p & k & Hp & Hk). eauto 15.
    + left. exists s'. split; [done |]. intros (p & k & Hp & Hk). by eapply Hnone.
  - left. destruct Hfound as (c & e & p & k & Hc & Hp & Hk & ->).
    exists c, e, p, k. by rewrite Hrun.
  - right. split; [| by rewrite Hrun].
    intros c e p k Hc Hp Hk. eapply Hnone; eauto.
Qed.
End RangeFacts.

(** ** Building the engine and decoding *)

Lemma Is_wrap before after err target :
  errors.Is err target = true →
  errors.Is (wrapError before err after) target = true.
Proof. intros H. cbn [errors.Is]. rewrite H. apply orb_true_r. Qed.

Lemma operands_wrap before after err (x : fmtArg) :
  x ∈ errors.operands err → x ∈ errors.operands (wrapError before err after).
Proof. intros H. cbn [errors.operands]. rewrite !elem_of_app. tauto. Qed.

Section EngineFacts.
Variable lowerCase : N → N.
Context {Seed : Type}.
Variable rangeOrder : ∀ A : Type, Seed → list A → list A.
Variable nextSeed : Seed → Seed.
Hypothesis rangeOrder_perm : ∀ A seed (l : list A), rangeOrder A seed l ≡ₚ l.
Context {Decoded : Type}.
Variable ParseBytes : list Byte.byte → gjson.Result.
Variable json_Unmarshal : list Byte.byte → reflect.Type_ → Decoded + error.

Lemma buildCandidatePaths_stop (pre post : list (positive * candidate))
    (rc : positive * candidate) (cpaths : candidateMap) (seed : Seed) (err : error) :
  (∀ x, x ∈ pre → ∃ paths, buildPathsForRoot lowerCase (typ x.2) = Done paths) →
  buildPathsForRoot lowerCase (typ rc.2) = Fail err →
  buildCandidatePaths lowerCase nextSeed (pre ++ rc :: post) cpaths seed
  = Fail (wrapError [ArgT (typ rc.2); ArgS (str ": ")] err []).
Proof.
  intros Hpre Hrc. revert cpaths seed.
  induction pre as [| x pre IH]; intros cpaths seed; cbn [app buildCandidatePaths].
  - by rewrite Hrc.
  - destruct (Hpre x) as (paths & ->); [apply elem_of_cons; by left |].
    apply IH. intros y Hy. apply Hpre, elem_of_cons. by right.
Qed.

(** C4 (amended): when the parameters are accepted, every candidate
    before this one is walked to the end, and the first type that stops
    the walk of this record is of an unsupported kind (a function, a
    channel, an interface, an unsafe pointer or an invalid type), then
    [New] returns no engine but an error that wraps [ErrUnsupportedType]
    and prints that type. *)
Theorem New_unsupported_field (params : list Parameter_) (env : environment)
    (pre post : list (positive * candidate)) (ref : positive) (c : candidate)
    (ty : reflect.Type_) (seed : Seed) :
  newEnv params = Done env →
  candidates env = pre ++ (ref, c) :: post →
  (∀ x, x ∈ pre → ∃ paths, buildPathsForRoot lowerCase (typ x.2) = Done paths) →
  reflect.KindOf (typ c) = reflect.Struct →
  List.find stopsWalk (walkOrderRoot (typ c)) = Some ty →
  unsupportedKind (reflect.KindOf ty) = true →
  ∃ err, New lowerCase rangeOrder nextSeed params seed = Fail err ∧
         errors.Is err ErrUnsupportedType = true ∧
         ArgT ty ∈ errors.operands err.
Proof.
  intros Henv Hcands Hpre Hstruct Hstop Hkind.
  destruct (KindOf_Struct _ Hstruct) as (name & fields & Htyp).
  pose proof (buildPathsForRootFields_walk lowerCase fields ∅) as Hwalk.
  rewrite Htyp in Hstop. cbn [walkOrderRoot reflect.shapeOf] in Hstop.
  rewrite Hstop, Hkind in Hwalk. destruct Hwalk as (fname & Hwalk).
  rewrite <-buildPathsForRoot_struct with (name := name), <-Htyp in Hwalk.
  eexists. split.
  - unfold New, newTraverseResolver. rewrite Henv, Hcands.
    by rewrite (buildCandidatePaths_stop pre post (ref, c) ∅ seed _ Hpre Hwalk).
  - split.
    + do 3 apply Is_wrap. unfold unsupportedError. apply Is_wrap.
      unfold ErrUnsupportedType, errors.New. cbn [errors.Is].
      by rewrite bool_decide_eq_true_2.
    + do 3 apply operands_wrap. unfold unsupportedError. cbn [errors.operands].
      rewrite !elem_of_app, !elem_of_cons. tauto.
Qed.

(** C6: the resolver returns a candidate as soon as one fingerprint entry
    of that candidate is met by the document, whatever its other entries;
    when no entry of any candidate is met it returns the nil type, and
    [UnmarshalJSON] turns that into [ErrNoMatch]. *)
Theorem ResolveJSON_existential (r : traverseResolver) (res : gjson.Result)
    (seed : Seed) :
  ((∃ c e p k, paths r !! c = Some e ∧ e.2 !! p = Some k ∧
               gjson.GetType res p = k) →
   ∃ c e p k, paths r !! c = Some e ∧ e.2 !! p = Some k ∧
              gjson.GetType res p = k ∧
              traverseResolver_ResolveJSON rangeOrder nextSeed r res seed
              = (Some (typ e.1), None)) ∧
  ((∀ c e p k, paths r !! c = Some e → e.2 !! p = Some k →
               gjson.GetType res p ≠ k) →
   traverseResolver_ResolveJSON rangeOrder nextSeed r res seed = (None, None) ∧
   ∀ b, ParseBytes b = res → gjson.ResultType res = gjson.JSON →
        UnmarshalJSON ParseBytes json_Unmarshal
          {| resolver := asResolver rangeOrder nextSeed r |} b seed
        = Fail ErrNoMatch).
Proof using rangeOrder_perm.
  destruct (ResolveJSON_spec rangeOrder nextSeed rangeOrder_perm r res seed)
    as [(c & e & p & k & Hc & Hp & Hk & Hres) | [Hnone Hres]].
  - split; [intros _; eauto 10 |].
    intros Hno. by destruct (Hno c e p k).
  - split; [intros (c & e & p & k & Hc & Hp & Hk); by destruct (Hnone c e p k) |].
    intros _. split; [done |]. intros b Hb Hroot.
    unfold UnmarshalJSON. rewrite Hb. rewrite decide_False by (by intros []).
    cbn [resolver asResolver ResolveJSON]. by rewrite Hres.
Qed.

(** C2, as amended: when no type is registered twice, so that candidates
    at different addresses are of different types, an entry that two
    candidates hold is in neither fingerprint; two such candidates with
    the same path map both end with an empty fingerprint, and every
    document then resolves to no candidate.  The builder skips a pair of
    candidates of the same type, which it takes for one candidate. *)
Theorem makeUniquePaths_removes_shared (cp : candidateMap) (seed : Seed) :
  distinctTypes cp →
  (∀ X, fst <$> (makeUniquePaths rangeOrder nextSeed cp seed).2 !! X
        = fst <$> cp !! X) ∧
  (∀ A B p k, A ≠ B → hasEntry cp A p k → hasEntry cp B p k →
     pathsOf (makeUniquePaths rangeOrder nextSeed cp seed).2 A !! p = None ∧
     pathsOf (makeUniquePaths rangeOrder nextSeed cp seed).2 B !! p = None) ∧
  (∀ a b ca cb m, cp = <[a := (ca, m)]> {[ b := (cb, m) ]} → a ≠ b →
     (makeUniquePaths rangeOrder nextSeed cp seed).2
     = <[a := (ca, ∅)]> {[ b := (cb, ∅) ]} ∧
     ∀ res seed',
       traverseResolver_ResolveJSON rangeOrder nextSeed
         {| paths := (makeUniquePaths rangeOrder nextSeed cp seed).2 |} res seed'
       = (None, None)).
Proof using rangeOrder_perm.
  intros Hdist.
  pose proof (makeUniquePaths_unique rangeOrder nextSeed rangeOrder_perm cp seed Hdist)
    as Huniq.
  destruct (makeUniquePaths_pruned rangeOrder nextSeed rangeOrder_perm cp seed Hdist)
    as [[J0 _ _ _] _].
  set (fp := (makeUniquePaths rangeOrder nextSeed cp seed).2) in *.
  assert (Hshared : ∀ A B p k, A ≠ B → hasEntry cp A p k → hasEntry cp B p k →
                               pathsOf fp A !! p = None).
  { intros A B p k HAB HA HB.
    destruct (pathsOf fp A !! p) as [k' |] eqn:Hfp; [| done].
    apply Huniq in Hfp as [HA' Hno]. exfalso. apply (Hno B); [done |].
    unfold hasEntry in *. congruence. }
  split; [done |]. split.
  { intros A B p k HAB HA HB. split; eauto. }
  intros a b ca cb m Hcp Hab.
  assert (Hempty : ∀ X, pathsOf fp X = ∅).
  { intros X. apply map_eq. intros p. rewrite lookup_empty.
    destruct (pathsOf fp X !! p) as [k |] eqn:Hfp; [| done].
    exfalso. apply Huniq in Hfp as [HX Hno].
    assert (Ha : hasEntry cp a p k ∧ hasEntry cp b p k ∧ (X = a ∨ X = b)).
    { unfold hasEntry, pathsOf in *. rewrite Hcp in *.
      destruct (decide (X = a)) as [-> | HXa].
      - rewrite lookup_insert_eq in HX. cbn in HX.
        rewrite lookup_insert_eq, lookup_insert_ne, lookup_singleton_eq by done.
        cbn. tauto.
      - rewrite lookup_insert_ne in HX by done.
        destruct (decide (X = b)) as [-> | HXb].
        + rewrite lookup_singleton_eq in HX. cbn in HX.
          rewrite lookup_insert_eq, lookup_insert_ne, lookup_singleton_eq by done.
          cbn. tauto.
        + rewrite lookup_singleton_ne in HX by done. by rewrite lookup_empty in HX. }
    destruct Ha as (Ha & Hb & [-> | ->]); [by apply (Hno b) | by apply (Hno a)]. }
  split.
  - apply map_eq. intros X. specialize (J0 X). specialize (Hempty X).
    unfold pathsOf in Hempty. rewrite Hcp in J0.
    destruct (decide (X = a)) as [-> | HXa].
    + rewrite lookup_insert_eq in *. destruct (fp !! a) as [[c1 m1] |]; [| done].
      cbn in *. congruence.
    + rewrite !lookup_insert_ne in * by done.
      destruct (decide (X = b)) as [-> | HXb].
      * rewrite lookup_singleton_eq in *. destruct (fp !! b) as [[c1 m1] |]; [| done].
        cbn in *. congruence.
      * rewrite lookup_singleton_ne in * by done. by destruct (fp !! X).
  - intros res seed'.
    destruct (ResolveJSON_spec rangeOrder nextSeed rangeOrder_perm
                {| paths := fp |} res seed')
      as [(c & e & p & k & Hc & Hp & _) | [_ Hres]]; [| done].
    exfalso. cbn [paths] in Hc. specialize (Hempty c).
    unfold pathsOf in Hempty. rewrite Hc in Hempty. rewrite Hempty in Hp.
    by rewrite lookup_empty in Hp.
Qed.

(** C7: when no entry occurs in the path maps of two candidates, the
    fingerprint builder returns every path map as it was. *)
Theorem makeUniquePaths_disjoint_identity (cp : candidateMap) (seed : Seed) :
  disjointPaths cp →
  (makeUniquePaths rangeOrder nextSeed cp seed).2 = cp.
Proof using rangeOrder_perm.
  apply makeUniquePaths_disjoint, rangeOrder_perm.
Qed.

Lemma New_resolver (params : list Parameter_) (seed : Seed) (u : Unmarshaler) :
  New lowerCase rangeOrder nextSeed params seed = Done u →
  ∃ r, u = {| resolver := asResolver rangeOrder nextSeed r |}.
Proof.
  unfold New. destruct (newEnv params); try discriminate.
  destruct (newTraverseResolver _ _ _ _ _) as [r | |]; try discriminate.
  intros [= <-]. eauto.
Qed.

(** C10: the resolver never returns an error; every engine that [New]
    returns holds this resolver, and [UnmarshalJSON] on such an engine
    never returns the error that wraps a fault of the resolver. *)
Theorem ResolveJSON_error_nil :
  (∀ r res seed,
     (traverseResolver_ResolveJSON rangeOrder nextSeed r res seed).2 = None) ∧
  (∀ params seed u,
     New lowerCase rangeOrder nextSeed params seed = Done u →
     ∃ r, u = {| resolver := asResolver rangeOrder nextSeed r |}) ∧
  (∀ r b seed err,
     UnmarshalJSON ParseBytes json_Unmarshal
       {| resolver := asResolver rangeOrder nextSeed r |} b seed
     ≠ Fail (wrapError [ArgS (str "resolve: ")] err [])).
Proof.
  assert (Hnil : ∀ r res seed,
    (traverseResolver_ResolveJSON rangeOrder nextSeed r res seed).2 = None).
  { intros r res seed. unfold traverseResolver_ResolveJSON.
    by destruct (range _ _ _ _ _). }
  split; [done |]. split; [apply New_resolver |].
  intros r b seed err. unfold UnmarshalJSON.
  case_decide; [discriminate |].
  cbn [resolver asResolver ResolveJSON].
  specialize (Hnil r (ParseBytes b) seed).
  destruct (traverseResolver_ResolveJSON _ _ _ _ _) as [t e]. cbn in Hnil. subst e.
  destruct t as [t |]; [| discriminate].
  destruct (json_Unmarshal b t); [discriminate |].
  by intros [=].
Qed.

Lemma buildCandidatePaths_no_True (cs : list (positive * candidate))
    (cpaths : candidateMap) (seed : Seed) (s : Seed * candidateMap) :
  (∀ X p, pathsOf cpaths X !! p ≠ Some gjson.True) →
  buildCandidatePaths lowerCase nextSeed cs cpaths seed = Done s →
  ∀ X p, pathsOf s.2 X !! p ≠ Some gjson.True.
Proof.
  revert cpaths seed. induction cs as [| c cs IH]; intros cpaths seed Hno;
    cbn [buildCandidatePaths].
  { by intros [= <-]. }
  destruct (buildPathsForRoot lowerCase (typ c.2)) as [paths1 | |] eqn:Hwalk;
    try done.
  apply IH. intros X p. unfold pathsOf. rewrite lookup_insert.
  case_decide; [| apply Hno]. cbn. by eapply buildPathsForRoot_no_True.
Qed.

(** No fingerprint of an engine holds the tag of the literal [true]: a
    document is never matched on a literal [true]. *)
Lemma New_fingerprints_no_True (params : list Parameter_) (seed : Seed)
    (u : Unmarshaler) :
  New lowerCase rangeOrder nextSeed params seed = Done u →
  ∃ r, u = {| resolver := asResolver rangeOrder nextSeed r |} ∧
       ∀ c e p, paths r !! c = Some e → e.2 !! p ≠ Some gjson.True.
Proof using rangeOrder_perm.
  unfold New. destruct (newEnv params) as [env | |]; try discriminate.
  unfold newTraverseResolver.
  destruct (buildCandidatePaths _ _ _ _ _) as [s | |] eqn:Hbuild; try discriminate.
  intros [= <-]. eexists. split; [done |]. cbn [paths].
  intros c e p Hc Hp.
  destruct (makeUniquePaths_sub rangeOrder nextSeed rangeOrder_perm s.2 s.1)
    as [_ Hsub].
  assert (Hk : hasEntry (makeUniquePaths rangeOrder nextSeed s.2 s.1).2 c p gjson.True).
  { unfold hasEntry, pathsOf. by rewrite Hc. }
  apply Hsub in Hk. revert Hk.
  eapply (buildCandidatePaths_no_True _ ∅ seed s); [| done].
  intros X q. unfold pathsOf. by rewrite !lookup_empty.
Qed.

(** A root whose tag is not [JSON] is rejected before the resolver is
    asked: the outcome is the same for every resolver. *)
Lemma UnmarshalJSON_root_not_JSON (u : Unmarshaler) (b : list Byte.byte)
    (seed : Seed) :
  gjson.ResultType (ParseBytes b) ≠ gjson.JSON →
  UnmarshalJSON ParseBytes json_Unmarshal u b seed
  = Fail (errors.New (str "invalid json: not an object")).
Proof. intros Hroot. unfold UnmarshalJSON. by rewrite decide_True. Qed.

(** C3: a buffer that parses to a document whose root is an array gets
    past the check of the root: [UnmarshalJSON] does not return the
    invalid-document error but goes on to resolution, and to the typed
    decode when a candidate is resolved. *)
Theorem UnmarshalJSON_array_root (u : Unmarshaler) (b : list Byte.byte)
    (seed : Seed) (elems : list gjson.Value) :
  ParseBytes b = gjson.resultOf (gjson.VArray elems) →
  UnmarshalJSON ParseBytes json_Unmarshal u b seed
  ≠ Fail (errors.New (str "invalid json: not an object")) ∧
  UnmarshalJSON ParseBytes json_Unmarshal u b seed
  = match ResolveJSON (resolver u) (gjson.resultOf (gjson.VArray elems)) seed with
    | (_, Some err) => Fail (wrapError [ArgS (str "resolve: ")] err [])
    | (None, None) => Fail ErrNoMatch
    | (Some typ_, None) =>
        match json_Unmarshal b typ_ with
        | inr err => Fail (wrapError [ArgS (str "unmarshall: ")] err [])
        | inl v => Done v
        end
    end.
Proof.
  intros Hparse. unfold UnmarshalJSON. rewrite Hparse.
  cbn [gjson.resultOf gjson.ResultType gjson.typeOf].
  rewrite decide_False by (by intros []).
  split; [| done].
  destruct (ResolveJSON _ _ _) as [[t |] [e |]]; try discriminate.
  destruct (json_Unmarshal b t); discriminate.
Qed.
End EngineFacts.

(** ** The code at concrete inputs *)

Lemma inOrder_perm : ∀ A (seed : ()) (l : list A), inOrder A seed l ≡ₚ l.
Proof. done. Qed.

(** C1: a boolean field is recorded with the tag of the literal [false]
    only, the entry for [true] being overwritten: the document
    [{"flag": false}] resolves to the candidate, the document
    [{"flag": true}] resolves to no candidate. *)
Theorem bool_field_rejects_true_literal :
  buildPathsForRoot (λ r, r) flags_t = Done {[ str "flag" := gjson.False ]} ∧
  ∃ u, New (λ r, r) inOrder (λ s, s) [candidateParam 1 (mkCandidate flags_t)] ()
       = Done u ∧
       ResolveJSON (resolver u) flagFalseDoc () = (Some flags_t, None) ∧
       ResolveJSON (resolver u) flagTrueDoc () = (None, None).
Proof.
  split; [by vm_compute |].
  eexists. split; [reflexivity |]. split; by vm_compute.
Qed.

(** C5: a field tagged to be ignored at the top level of the record is
    walked all the same: [Secret] of [account] leaves an entry at the empty
    path, and the ignored record [Keys] of [vault] is recursed into; one
    level down, in [job], the ignored field leaves nothing. *)
Theorem buildPathsForRoot_walks_ignored_top_level :
  buildPathsForRoot (λ r, r) account_t
  = Done {[ [] := gjson.String; str "id" := gjson.Number ]} ∧
  buildPathsForRoot (λ r, r) vault_t = Done {[ str "x" := gjson.Number ]} ∧
  buildPathsForRoot (λ r, r) job_t = Done {[ str "hooks.name" := gjson.String ]}.
Proof. repeat split; by vm_compute. Qed.

(** The record [job] holds, one level down, an exported field of function
    type that is tagged to be ignored, and [New] returns an engine for it;
    and when a candidate that is not a record comes before [callback],
    whose field [OnDone] is of function type, [New] fails with an error
    that does not wrap [ErrUnsupportedType]. *)
Lemma New_accepts_ignored_unsupported_field :
  (ignoredField "OnDone" func_t ∈ [exportedField "Name" string_t;
                                   ignoredField "OnDone" func_t] ∧
   reflect.IsExported (ignoredField "OnDone" func_t) = true ∧
   unsupportedKind (reflect.KindOf func_t) = true ∧
   ∃ u, New (λ r, r) inOrder (λ s, s) [candidateParam 1 (mkCandidate job_t)] ()
        = Done u) ∧
  ∃ err, New (λ r, r) inOrder (λ s, s)
           [candidateParam 1 (mkCandidate int_t);
            candidateParam 2 (mkCandidate callback_t)] ()
         = Fail err ∧
         errors.Is err ErrUnsupportedType = false.
Proof.
  split.
  - split; [apply elem_of_cons; right; apply elem_of_cons; by left |].
    split; [done |]. split; [done |]. eexists. reflexivity.
  - eexists. split; reflexivity.
Qed.

(** C2 as the specification states it fails when a type is registered
    twice.  The two candidates of [doubles] hold the same entries and the
    builder deletes none of them: the engine
    [New(Candidate(s1{}), Candidate(s1{}))] resolves [{"foo": "x"}] to [s1].
    With [s2] as a third candidate and the maps ranged over in reverse, the
    second candidate of type [s1] keeps the entry [shared] that the
    candidate of type [s2] held too, while in the other order all three
    lose it. *)
Lemma makeUniquePaths_keeps_shared_of_twice_registered_type :
  (pathsOf doubles 1 = pathsOf doubles 2 ∧
   hasEntry doubles 1 (str "foo") gjson.String ∧
   hasEntry doubles 2 (str "foo") gjson.String ∧
   (makeUniquePaths inOrder (λ s, s) doubles ()).2 = doubles ∧
   (makeUniquePaths inReverse (λ s, s) doubles ()).2 = doubles ∧
   ∃ u, New (λ r, r) inOrder (λ s, s)
          [candidateParam 1 (mkCandidate s1); candidateParam 2 (mkCandidate s1)] ()
        = Done u ∧
        ResolveJSON (resolver u) fooDoc () = (Some s1, None)) ∧
  ((∀ A (seed : ()) (l : list A), inReverse A seed l ≡ₚ l) ∧
   fst <$> crowd !! 2%positive = Some (mkCandidate s1) ∧
   fst <$> crowd !! 3%positive = Some (mkCandidate s2) ∧
   s1 ≠ s2 ∧
   hasEntry crowd 2 (str "shared") gjson.Number ∧
   hasEntry crowd 3 (str "shared") gjson.Number ∧
   hasEntry (makeUniquePaths inReverse (λ s, s) crowd ()).2 2
     (str "shared") gjson.Number ∧
   pathsOf (makeUniquePaths inOrder (λ s, s) crowd ()).2 2 !! str "shared" = None) ∧
  ¬ (∀ (cp : candidateMap) (A B : positive) (p : gostring) (k : gjson.Type_),
       A ≠ B → hasEntry cp A p k → hasEntry cp B p k →
       pathsOf (makeUniquePaths inReverse (λ s, s) cp ()).2 A !! p = None ∧
       pathsOf (makeUniquePaths inReverse (λ s, s) cp ()).2 B !! p = None).
Proof.
  split; [| split].
  - split_and!; try (by vm_compute). eexists. split; [reflexivity | by vm_compute].
  - split_and!; try (by vm_compute).
    intros A seed l. apply reverse_Permutation.
  - intros Hall.
    destruct (Hall crowd 2%positive 3%positive (str "shared") gjson.Number)
      as [Hgone _]; [done | by vm_compute | by vm_compute |].
    by vm_compute in Hgone.
Qed.

(** *** Instances of the general statements *)

Lemma normalizeName_idempotent_insensitive_witness :
  normalizeName (λ r, r) (normalizeName (λ r, r) (str "Foo_Bar-Baz qux"))
  = normalizeName (λ r, r) (str "Foo_Bar-Baz qux").
Proof.
  refine (proj1 (normalizeName_idempotent_insensitive (λ r, r) _) _).
  intros r Hr. unfold unicode.ToLower.
  destruct (N.leb_spec r unicode.MaxASCII); [lia | done].
Defined.

Lemma buildPathsForRoot_pointer_panics_witness :
  buildPathsForRoot (λ r, r) node_t = Panic panicVisibleFields.
Proof.
  apply (buildPathsForRoot_pointer_panics (λ r, r) node_t
           (reflect.mkType [] (reflect.SPointer point_t))); reflexivity.
Defined.

Lemma New_unsupported_field_witness :
  ∃ err, New (λ r, r) inOrder (λ s, s)
           [candidateParam 1 (mkCandidate s2);
            candidateParam 2 (mkCandidate callback_t)] ()
         = Fail err ∧
         errors.Is err ErrUnsupportedType = true ∧
         ArgT func_t ∈ errors.operands err.
Proof.
  eapply (New_unsupported_field (λ r, r) inOrder (λ s, s) _ _
            [(1%positive, mkCandidate s2)] [] 2%positive (mkCandidate callback_t)
            func_t ()); try reflexivity.
  intros x Hx. apply list_elem_of_singleton in Hx as ->. eexists. reflexivity.
Defined.

Lemma ResolveJSON_existential_witness :
  traverseResolver_ResolveJSON inOrder (λ s, s) {| paths := solo |} fooDoc ()
  = (Some s1, None).
Proof.
  destruct (proj1 (ResolveJSON_existential inOrder (λ s, s) inOrder_perm
                     parseAsArray rejectAll {| paths := solo |} fooDoc ()))
    as (c & e & p & k & Hc & _ & _ & ->).
  - exists 1%positive, (mkCandidate s1, <[str "foo" := gjson.String]>
                                        {[ str "shared" := gjson.Number ]}),
      (str "foo"), gjson.String.
    repeat split; reflexivity.
  - cbn [paths] in Hc. unfold solo in Hc.
    apply lookup_singleton_Some in Hc as [_ <-]. reflexivity.
Defined.

Lemma twins_distinct : distinctTypes twins.
Proof.
  intros a b ea eb Ha Hb Hab. unfold twins in *.
  apply lookup_insert_Some in Ha as [[<- <-] | [Ha1 Ha]];
    apply lookup_insert_Some in Hb as [[<- <-] | [Hb1 Hb]]; try done.
  - apply lookup_singleton_Some in Hb as [<- <-]. done.
  - apply lookup_singleton_Some in Ha as [<- <-]. done.
  - apply lookup_singleton_Some in Ha as [<- <-].
    apply lookup_singleton_Some in Hb as [<- <-]. done.
Qed.

Lemma makeUniquePaths_removes_shared_witness :
  (makeUniquePaths inOrder (λ s, s) twins ()).2
  = <[1%positive := (mkCandidate s1, ∅)]> {[ 2%positive := (mkCandidate s2, ∅) ]}.
Proof.
  destruct (makeUniquePaths_removes_shared inOrder (λ s, s) inOrder_perm twins ()
              twins_distinct) as (_ & _ & H).
  apply (H 1%positive 2%positive _ _ _ eq_refl). done.
Defined.

Lemma strangers_disjoint : disjointPaths strangers.
Proof.
  intros a b p k Hab Ha Hb.
  destruct (hasEntry_lookup _ _ _ _ Ha) as (ea & Hea & Hpa).
  destruct (hasEntry_lookup _ _ _ _ Hb) as (eb & Heb & Hpb).
  unfold strangers in *.
  apply lookup_insert_Some in Hea as [[<- <-] | [Ha1 Hea]];
    apply lookup_insert_Some in Heb as [[<- <-] | [Hb1 Heb]]; try done.
  - apply lookup_singleton_Some in Heb as [<- <-]. cbn in *.
    apply lookup_singleton_Some in Hpa as [<- <-].
    apply lookup_singleton_Some in Hpb as [Hp _]. discriminate.
  - apply lookup_singleton_Some in Hea as [<- <-]. cbn in *.
    apply lookup_singleton_Some in Hpa as [<- <-].
    apply lookup_singleton_Some in Hpb as [Hp _]. discriminate.
  - apply lookup_singleton_Some in Hea as [<- <-].
    apply lookup_singleton_Some in Heb as [<- <-]. done.
Qed.

Lemma makeUniquePaths_disjoint_identity_witness :
  (makeUniquePaths inOrder (λ s, s) strangers ()).2 = strangers.
Proof.
  apply (makeUniquePaths_disjoint_identity inOrder (λ s, s) inOrder_perm strangers ()).
  apply strangers_disjoint.
Defined.

Lemma UnmarshalJSON_array_root_witness :
  UnmarshalJSON parseAsArray rejectAll
    {| resolver := asResolver inOrder (λ s, s) {| paths := strangers |} |} [] ()
  ≠ Fail (errors.New (str "invalid json: not an object")).
Proof.
  apply (UnmarshalJSON_array_root parseAsArray rejectAll
           {| resolver := asResolver inOrder (λ s, s) {| paths := strangers |} |}
           [] () [gjson.VNumber (str "1"); gjson.VNumber (str "2")]).
  reflexivity.
Defined.

(** ** Names and paths, continued *)

Section NamesAlgebra.
Variable lowerCase : N → N.

(** X1: [normalizeName] distributes over concatenation; a space, an
    underscore or a hyphen put anywhere in a name does not change the
    normalised name; and no normalised name holds one of the three. *)
Theorem normalizeName_app_separators :
  (∀ a b, normalizeName lowerCase (a ++ b)
          = normalizeName lowerCase a ++ normalizeName lowerCase b) ∧
  (∀ a b sep, sep ∈ str " _-" →
              normalizeName lowerCase (a ++ sep :: b)
              = normalizeName lowerCase (a ++ b)) ∧
  (∀ name c, c ∈ normalizeName lowerCase name → c ∉ str " _-").
Proof.
  assert (Happ : ∀ a b, normalizeName lowerCase (a ++ b)
                        = normalizeName lowerCase a ++ normalizeName lowerCase b).
  { intros a b. rewrite !normalizeName_filter. by rewrite fmap_app, filter_app. }
  split; [done |]. split.
  - intros a b sep Hsep. rewrite !Happ. f_equal.
    change (sep :: b) with ([sep] ++ b). rewrite Happ.
    replace (normalizeName lowerCase [sep]) with (@nil N); [done |].
    change (str " _-") with [32%N; 95%N; 45%N] in Hsep.
    repeat (apply elem_of_cons in Hsep as [-> | Hsep]; [reflexivity |]).
    by apply elem_of_nil in Hsep.
  - intros name c. rewrite normalizeName_filter.
    by intros [? _]%list_elem_of_filter.
Qed.

Lemma HasSuffix_dot (path : gostring) :
  strings.HasSuffix path (str ".") = bool_decide (last path = Some dot).
Proof.
  unfold strings.HasSuffix. apply bool_decide_ext.
  change (str ".") with [dot].
  destruct path as [| c path _] using rev_ind; [done |].
  rewrite last_snoc, length_app. cbn [length].
  replace (length path + 1 - 1) with (length path + 0) by lia.
  rewrite drop_app_add. cbn [drop]. split; congruence.
Qed.

Lemma noDoubleDot_app (p q : gostring) :
  noDoubleDot (p ++ q)
  = noDoubleDot p && noDoubleDot q
    && negb (bool_decide (last p = Some dot) && bool_decide (head q = Some dot)).
Proof.
  induction p as [| a p IH].
  { cbn [app noDoubleDot last]. rewrite (bool_decide_eq_false_2 (None = _)) by done.
    cbn. by rewrite andb_true_r. }
  destruct p as [| b p].
  - clear IH. cbn [app noDoubleDot last andb]. destruct q as [| c q].
    + cbn [head]. rewrite (bool_decide_eq_false_2 (None = _)) by done.
      by rewrite andb_false_r.
    + cbn [head]. rewrite (andb_comm (noDoubleDot _)). f_equal. f_equal.
      f_equal; apply bool_decide_ext; split; congruence.
  - change (last (a :: b :: p)) with (last (b :: p)).
    change (noDoubleDot ((a :: b :: p) ++ q))
      with (negb (bool_decide (a = dot) && bool_decide (b = dot))
            && noDoubleDot ((b :: p) ++ q)).
    rewrite IH.
    change (noDoubleDot (a :: b :: p))
      with (negb (bool_decide (a = dot) && bool_decide (b = dot))
            && noDoubleDot (b :: p)).
    by rewrite !andb_assoc.
Qed.

Lemma noDoubleDot_no_dot (s : gostring) :
  dot ∉ s → noDoubleDot s = true ∧ head s ≠ Some dot.
Proof.
  induction s as [| a s IH]; [done |].
  intros [Ha Hs]%not_elem_of_cons. destruct (IH Hs) as [IH1 IH2].
  split; [| cbn; congruence].
  cbn [noDoubleDot]. rewrite IH1, andb_true_r. destruct s; [done |].
  rewrite (bool_decide_eq_false_2 (a = dot)) by congruence. done.
Qed.

Lemma appendToPath_step (path name : gostring) :
  cleanPath path → dot ∉ normalizeName lowerCase name →
  cleanPath (appendToPath lowerCase path name).
Proof.
  intros [Hhead Hdots] Hname. unfold appendToPath. cbv zeta.
  destruct (noDoubleDot_no_dot _ Hname) as [Hn1 Hn2].
  rewrite HasSuffix_dot.
  destruct path as [| a path].
  { cbn. by split. }
  rewrite bool_decide_eq_false_2 by done. cbn [orb].
  case_bool_decide as Hlast.
  - split; [done |]. rewrite noDoubleDot_app, Hdots, Hn1.
    rewrite (bool_decide_eq_false_2 (head _ = Some dot)) by done.
    by rewrite andb_false_r.
  - split; [done |]. rewrite noDoubleDot_app, Hdots.
    rewrite (bool_decide_eq_false_2 (last _ = Some dot)) by done.
    cbn [str fmap list_fmap String.list_ascii_of_string app noDoubleDot andb negb].
    rewrite Hn1. destruct (normalizeName lowerCase name) as [| c s]; [done |].
    rewrite (bool_decide_eq_false_2 (c = dot)); [by rewrite andb_false_r |].
    cbn in Hn2. congruence.
Qed.

(** X2: a path built from the empty path by [appendToPath], one name
    after the other, does not begin with a dot and has no two dots in a
    row, when no normalised name holds a dot. *)
Theorem appendToPath_clean (names : list gostring) :
  (∀ name, name ∈ names → dot ∉ normalizeName lowerCase name) →
  cleanPath (foldl (appendToPath lowerCase) [] names).
Proof.
  assert (Hgen : ∀ path, cleanPath path →
            (∀ name, name ∈ names → dot ∉ normalizeName lowerCase name) →
            cleanPath (foldl (appendToPath lowerCase) path names)).
  { induction names as [| name names IH]; intros path Hpath Hnames; [done |].
    cbn [foldl]. apply IH.
    - apply appendToPath_step; [done |]. apply Hnames, elem_of_cons. by left.
    - intros n Hn. apply Hnames, elem_of_cons. by right. }
  apply Hgen. by split.
Qed.
End NamesAlgebra.

Lemma appendToPath_clean_witness :
  cleanPath (foldl (appendToPath (λ r, r)) [] [str "Foo"; str "_"; str "Bar Baz"]).
Proof.
  apply (appendToPath_clean (λ r, r)).
  intros name Hname. repeat (apply elem_of_cons in Hname as [-> | Hname];
    [vm_compute; intros H; repeat (apply elem_of_cons in H as [H | H]; [discriminate |]);
     by apply elem_of_nil in H |]).
  by apply elem_of_nil in Hname.
Defined.

(** ** The shape walker, continued *)

Section WalkerExtra.
Variable lowerCase : N → N.


(** A property of the entries that every write of the walk keeps. *)
Lemma buildPathsForField_invariant (P : gostring → gjson.Type_ → Prop)
    (Q : gostring → Prop) :
  (∀ curr name, Q curr → Q (appendToPath lowerCase curr name)) →
  (∀ curr k, Q curr → k ≠ gjson.True → k ≠ gjson.Null → P curr k) →
  ∀ t (paths : jsonPaths) curr paths',
    Q curr → map_Forall P paths →
    buildPathsForField lowerCase paths curr t = Done paths' →
    map_Forall P paths'.
Proof.
  intros HQ HP.
  induction t as [name shape Hleaf | name fields IH] using Type_fields_ind;
    intros paths curr paths' Hcurr Hpaths.
  - rewrite buildPathsForField_eq.
    destruct (getJSONType _) as [jsonType | err] eqn:Htag; [| done].
    assert (jsonType ≠ gjson.Null).
    { unfold getJSONType in Htag. destruct (reflect.KindOf _); by simplify_eq. }
    repeat case_decide.
    + intros [= <-]. rewrite insert_insert_eq.
      apply map_Forall_insert_2; [by apply HP | done].
    + intros [= <-]. apply map_Forall_insert_2; [apply HP; tauto | done].
    + intros [= <-]. apply map_Forall_insert_2; [by apply HP | done].
    + destruct shape; try discriminate. by destruct (Hleaf fields).
  - rewrite buildPathsForField_struct. revert paths Hpaths.
    induction IH as [| f fields Hf _ IHfs]; intros paths Hpaths;
      cbn [buildPathsForFields].
    { by intros [= <-]. }
    destruct (reflect.IsExported f); cbn [negb]; [| by apply IHfs].
    case_decide; [by apply IHfs |].
    destruct (buildPathsForField _ _ _ _) as [paths1 | |] eqn:Hwalk; try done.
    apply IHfs. eapply Hf; [| done | done]. by apply HQ.
Qed.

Lemma buildPathsForRoot_invariant (P : gostring → gjson.Type_ → Prop)
    (Q : gostring → Prop) :
  (∀ curr name, Q curr → Q (appendToPath lowerCase curr name)) →
  (∀ curr k, Q curr → k ≠ gjson.True → k ≠ gjson.Null → P curr k) →
  Q [] →
  ∀ t paths, buildPathsForRoot lowerCase t = Done paths → map_Forall P paths.
Proof.
  intros HQ HP Hnil t paths. unfold buildPathsForRoot. case_decide; [done |].
  destruct (VisibleFields t) as [fields | |]; try done.
  assert (Hempty : map_Forall P (∅ : jsonPaths)) by apply map_Forall_empty.
  revert Hempty. generalize (∅ : jsonPaths).
  induction fields as [| f fields IH]; intros acc Hacc;
    cbn [buildPathsForRootFields].
  { by intros [= <-]. }
  destruct (reflect.IsExported f); cbn [negb]; [| by apply IH].
  destruct (buildPathsForField _ _ _ _) as [paths1 | |] eqn:Hwalk; try done.
  apply IH. eapply buildPathsForField_invariant; [done | done | | done | done].
  by apply HQ.
Qed.

(** X4: every entry of a path map built by [buildPathsForRoot] is
    tagged [False], [Number], [String] or [JSON]: never [Null], and never
    [True]. *)
Theorem buildPathsForRoot_tags (t : reflect.Type_) (paths : jsonPaths)
    (p : gostring) (k : gjson.Type_) :
  buildPathsForRoot lowerCase t = Done paths →
  paths !! p = Some k →
  k = gjson.False ∨ k = gjson.Number ∨ k = gjson.String ∨ k = gjson.JSON.
Proof.
  intros Hwalk Hp.
  apply (buildPathsForRoot_invariant
           (λ _ k, k = gjson.False ∨ k = gjson.Number ∨ k = gjson.String
                   ∨ k = gjson.JSON) (λ _, True)) in Hwalk; try done.
  - by apply (Hwalk p k).
  - intros _ k' _ H1 H2. destruct k'; tauto.
Qed.

Lemma normalizeName_plain (name : gostring) :
  (∀ r, (unicode.MaxASCII < r)%N → unicode.isUpperASCII (lowerCase r) = false) →
  Forall plainChar (normalizeName lowerCase name).
Proof.
  intros Htable. rewrite normalizeName_filter. apply Forall_forall.
  intros c [Hsep (r & -> & _)%list_elem_of_fmap]%list_elem_of_filter.
  split; [done |]. unfold unicode.ToLower.
  destruct (N.leb_spec r unicode.MaxASCII) as [Hle | Hgt]; [| by apply Htable].
  unfold unicode.isUpperASCII, unicode.MaxASCII in *.
  destruct (N.leb_spec 65 r), (N.leb_spec r 90); cbn;
    repeat match goal with
      | |- context [N.leb ?a ?b] => destruct (N.leb_spec a b); cbn
      end; try done; lia.
Qed.

(** X5: no path recorded by [buildPathsForRoot] holds a space, an
    underscore, a hyphen or an upper-case ASCII letter, when the Unicode
    table maps no character above ASCII to an upper-case ASCII letter. *)
Theorem buildPathsForRoot_plain_paths (t : reflect.Type_) (paths : jsonPaths)
    (p : gostring) :
  (∀ r, (unicode.MaxASCII < r)%N → unicode.isUpperASCII (lowerCase r) = false) →
  buildPathsForRoot lowerCase t = Done paths →
  is_Some (paths !! p) →
  Forall plainChar p.
Proof.
  intros Htable Hwalk [k Hp].
  apply (buildPathsForRoot_invariant (λ p _, Forall plainChar p)
           (Forall plainChar)) in Hwalk; try done.
  - by apply (Hwalk p k).
  - intros curr name Hcurr. unfold appendToPath. cbv zeta.
    pose proof (normalizeName_plain name Htable) as Hname.
    destruct (_ || _); repeat (apply Forall_app; split); try done.
    apply Forall_singleton. split; [| done].
    vm_compute. intros H. repeat (apply elem_of_cons in H as [H | H]; [discriminate |]).
    by apply elem_of_nil in H.
Qed.
End WalkerExtra.

Lemma written_app (paths : jsonPaths) (l1 l2 : list (gostring * gjson.Type_)) :
  written paths (l1 ++ l2) = written (written paths l1) l2.
Proof. apply foldl_app. Qed.

(** The last write to a path is the one that stays. *)
Lemma written_lookup (entries : list (gostring * gjson.Type_)) (paths : jsonPaths)
    (p : gostring) (k : gjson.Type_) :
  written paths entries !! p = Some k
  ↔ (∃ l1 l2, entries = l1 ++ (p, k) :: l2 ∧ p ∉ l2.*1)
    ∨ ((p ∉ entries.*1) ∧ paths !! p = Some k).
Proof.
  revert paths. induction entries as [| [q v] entries IH] using rev_ind; intros paths.
  { cbn. split; [intros; right; split; [apply not_elem_of_nil | done] |].
    intros [(l1 & l2 & Heq & _) | [_ ?]]; [by destruct l1 | done]. }
  rewrite written_app. cbn [written foldl fst snd].
  destruct (decide (q = p)) as [-> | Hne].
  - rewrite lookup_insert_eq. split.
    + intros [= ->]. left. exists entries, []. split; [done | apply not_elem_of_nil].
    + intros [(l1 & l2 & Heq & Hnot) | [Hnot _]].
      * destruct l2 as [| e l2 _] using rev_ind.
        { apply app_inj_tail in Heq as [_ [= ->]]. done. }
        rewrite app_comm_cons, app_assoc in Heq.
        apply app_inj_tail in Heq as [_ <-].
        exfalso. apply Hnot. rewrite fmap_app. apply elem_of_app. right.
        apply list_elem_of_singleton. done.
      * exfalso. apply Hnot. rewrite fmap_app. apply elem_of_app. right.
        by apply list_elem_of_singleton.
  - rewrite lookup_insert_ne by done. fold (written paths entries). rewrite IH.
    split.
    + intros [(l1 & l2 & -> & Hnot) | [Hnot Hp]].
      * left. exists l1, (l2 ++ [(q, v)]). split; [by rewrite <-app_assoc |].
        rewrite fmap_app, not_elem_of_app. split; [done |].
        cbn. rewrite list_elem_of_singleton. congruence.
      * right. split; [| done]. rewrite fmap_app, not_elem_of_app. split; [done |].
        cbn. rewrite list_elem_of_singleton. congruence.
    + intros [(l1 & l2 & Heq & Hnot) | [Hnot Hp]].
      * destruct l2 as [| e l2 _] using rev_ind.
        { apply app_inj_tail in Heq as [_ [= -> ->]]. done. }
        rewrite app_comm_cons, app_assoc in Heq.
        apply app_inj_tail in Heq as [-> <-].
        left. exists l1, l2. split; [done |].
        rewrite fmap_app, not_elem_of_app in Hnot. tauto.
      * right. rewrite fmap_app, not_elem_of_app in Hnot. tauto.
Qed.

Section WalkerEntries.
Variable lowerCase : N → N.

Lemma buildPathsForField_leaf_entries paths curr name shape :
  (∀ fields, shape ≠ reflect.SStruct fields) →
  stopsWalk (reflect.mkType name shape) = false →
  buildPathsForField lowerCase paths curr (reflect.mkType name shape)
  = Done (written paths ((λ k, (curr, k)) <$> leafTag (reflect.mkType name shape))).
Proof.
  intros Hleaf Hstop. rewrite buildPathsForField_eq. unfold leafTag.
  destruct shape as [| b | | | | | | | | fields];
    try (by destruct (Hleaf fields)); try discriminate;
    try (cbn; by rewrite ?insert_insert_eq).
  destruct b; try discriminate; cbn; by rewrite ?insert_insert_eq.
Qed.

Lemma buildPathsForField_entries t :
  ∀ paths curr,
    List.find stopsWalk (walkOrder t) = None →
    buildPathsForField lowerCase paths curr t
    = Done (written paths (leafEntries lowerCase curr t)).
Proof.
  induction t as [name shape Hleaf | name fields IH] using Type_fields_ind;
    intros paths curr.
  { intros Hstop.
    assert (Hs : stopsWalk (reflect.mkType name shape) = false).
    { cbn [walkOrder List.find] in Hstop.
      destruct (stopsWalk _); [by destruct shape | done]. }
    rewrite buildPathsForField_leaf_entries by done.
    destruct shape; try done. by destruct (Hleaf fields). }
  rewrite buildPathsForField_struct.
  cbn [walkOrder List.find leafEntries]. change (stopsWalk _) with false. cbv iota.
  fold (walkOrderFields fields). fold (fieldsEntries lowerCase curr fields).
  revert paths. induction IH as [| f fields Hf _ IHfs]; intros paths.
  { done. }
  cbn [walkOrderFields fieldsEntries flat_map buildPathsForFields].
  fold (walkOrderFields fields). fold (fieldsEntries lowerCase curr fields).
  unfold walked.
  destruct (reflect.IsExported f); cbn [negb andb]; [| by apply IHfs].
  destruct (decide (getJSONName f = jsonIgnoreTag)) as [Hign | Hign].
  { rewrite bool_decide_eq_true_2 by done. by apply IHfs. }
  rewrite bool_decide_eq_false_2 by done. cbn [negb]. rewrite find_app.
  destruct (List.find stopsWalk (walkOrder (reflect.FieldType f))) eqn:Hfind;
    [done |].
  intros Hrest. rewrite Hf by done. rewrite written_app. by apply IHfs.
Qed.

Lemma buildPathsForRootFields_entries fields :
  ∀ paths,
    List.find stopsWalk (walkOrderRootFields fields) = None →
    buildPathsForRootFields lowerCase fields paths
    = Done (written paths (rootFieldsEntries lowerCase fields)).
Proof.
  induction fields as [| f fields IH]; intros paths.
  { done. }
  cbn [walkOrderRootFields rootFieldsEntries flat_map buildPathsForRootFields].
  fold (walkOrderRootFields fields). fold (rootFieldsEntries lowerCase fields).
  destruct (reflect.IsExported f); cbn [negb]; [| by apply IH].
  rewrite find_app.
  destruct (List.find stopsWalk (walkOrder (reflect.FieldType f))) eqn:Hfind;
    [done |].
  intros Hrest. rewrite buildPathsForField_entries by done.
  rewrite written_app. by apply IH.
Qed.

(** X6: when nothing stops the walk, [buildPathsForRoot] returns the
    map left by the writes of [rootEntries] made in order into the empty
    map: the kind found at a path is the kind of the last entry written
    at that path, so of two fields that come to the same path the later
    one wins. *)
Theorem buildPathsForRoot_entries (t : reflect.Type_) :
  reflect.KindOf t = reflect.Struct →
  List.find stopsWalk (walkOrderRoot t) = None →
  buildPathsForRoot lowerCase t = Done (written ∅ (rootEntries lowerCase t)) ∧
  ∀ p k, written ∅ (rootEntries lowerCase t) !! p = Some k
         ↔ ∃ before after, rootEntries lowerCase t = before ++ (p, k) :: after
                           ∧ p ∉ after.*1.
Proof.
  intros (name & fields & ->)%KindOf_Struct Hstop. split.
  - rewrite buildPathsForRoot_struct. by apply buildPathsForRootFields_entries.
  - intros p k. rewrite written_lookup. rewrite lookup_empty.
    split; [intros [? | [_ ?]]; done | intros; by left].
Qed.
End WalkerEntries.

(** ** Fingerprints, continued *)

Lemma candidateMap_eq (a b : candidateMap) :
  (∀ X, fst <$> a !! X = fst <$> b !! X) →
  (∀ X p k, hasEntry a X p k ↔ hasEntry b X p k) →
  a = b.
Proof.
  intros Hfst Hent. apply map_eq. intros X.
  assert (Hp : pathsOf a X = pathsOf b X).
  { apply map_eq. intros p. apply option_eq. intros k. apply Hent. }
  specialize (Hfst X). unfold pathsOf in Hp.
  destruct (a !! X) as [[c1 m1] |], (b !! X) as [[c2 m2] |];
    simpl in *; try done. congruence.
Qed.

Lemma settled_disjoint (cp : candidateMap) :
  (∀ A p, settled cp A p) → disjointPaths cp.
Proof. intros Hset a b p k Hab Ha Hb. eapply (Hset a p k Ha b); done. Qed.

Section FingerprintFacts.
Context {Seed : Type}.
Variable rangeOrder : ∀ A : Type, Seed → list A → list A.
Variable nextSeed : Seed → Seed.
Hypothesis rangeOrder_perm : ∀ A seed (l : list A), rangeOrder A seed l ≡ₚ l.

(** An entry goes only when a candidate of another type held it too. *)
Lemma makeUniquePaths_rival (cp0 : candidateMap) (seed : Seed) :
  ∀ X p k,
    hasEntry cp0 X p k →
    ¬ hasEntry (makeUniquePaths rangeOrder nextSeed cp0 seed).2 X p k →
    ∃ Y, rival cp0 X Y p k.
Proof using rangeOrder_perm.
  pose (Q := λ cur : candidateMap,
          (∀ X, fst <$> cur !! X = fst <$> cp0 !! X) ∧
          (∀ X p k, hasEntry cur X p k → hasEntry cp0 X p k) ∧
          ∀ X p k, hasEntry cp0 X p k → ¬ hasEntry cur X p k →
                   ∃ Y, rival cp0 X Y p k).
  unfold makeUniquePaths.
  edestruct (range_rule rangeOrder nextSeed rangeOrder_perm
    (X:=candidateMap) (R:=Empty_set)
    (λ cp : candidateMap, cp)
    (λ candidateA eA, rangePathsA rangeOrder nextSeed candidateA eA.1)
    (λ _ c, Q c))
    with (s := (seed, cp0)) as (s' & visited & Hrun & Hinv & _);
    [| done | by split_and! | rewrite Hrun; apply Hinv].
  intros _ A eA [sd c] (Hc0 & Hc1 & Hc2) HA. cbn [fst snd] in *.
  unfold rangePathsA.
  edestruct (range_rule rangeOrder nextSeed rangeOrder_perm
    (X:=candidateMap) (R:=Empty_set)
    (λ cp, pathsOf cp A) (rangeCandidatesB rangeOrder nextSeed A eA.1)
    (λ _ c, Q c))
    with (s := (sd, c)) as (s' & visited & Hrun & Hinv & _);
    [| done | by split_and! | by exists s'].
  intros _ pathA typeA [sd1 c1] (H0 & H1 & H2) Hlive. cbn [fst snd] in *.
  assert (HA1 : ∀ e, c1 !! A = Some e → e.1 = eA.1).
  { intros e He. pose proof (H0 A) as HfA. pose proof (Hc0 A) as HfA'.
    rewrite He in HfA. rewrite HA in HfA'. rewrite <-HfA' in HfA.
    by injection HfA as ->. }
  destruct (rangeCandidatesB_spec rangeOrder nextSeed rangeOrder_perm
              A eA.1 pathA typeA sd1 c1) as (s1 & Hs1 & Hsearched).
  { intros e He. by rewrite (HA1 e He). }
  exists s1. split; [done |]. destruct Hsearched as [S0 S1 S2 _ _].
  split_and!.
  - intros X. by rewrite S0.
  - intros X p k Hk. by apply H1, S1.
  - intros X p k Hk0 Hnk.
    destruct (decide (hasEntry c1 X p k)) as [Hk1 | Hnk1]; [| by apply H2].
    assert (Hnone : pathsOf s1.2 X !! p = None).
    { destruct (pathsOf s1.2 X !! p) as [k' |] eqn:Hk'; [| done].
      exfalso. apply Hnk. pose proof (S1 _ _ _ Hk') as Hc.
      unfold hasEntry in *. congruence. }
    assert (HeA : ∃ eA0, cp0 !! A = Some eA0 ∧ eA0.1 = eA.1).
    { pose proof (Hc0 A) as HfA. rewrite HA in HfA.
      destruct (cp0 !! A) as [eA0 |]; [| done]. exists eA0. split; [done |].
      by injection HfA. }
    destruct HeA as (eA0 & HeA0 & HeA1).
    assert (Hrival : ∀ B, target c1 eA.1 pathA typeA B →
              ∃ eB0, cp0 !! B = Some eB0 ∧ typ eA0.1 ≠ typ eB0.1 ∧
                     hasEntry cp0 B pathA typeA).
    { intros B (e & He & Hne & Hv). pose proof (H0 B) as HfB. rewrite He in HfB.
      destruct (cp0 !! B) as [eB0 |] eqn:HB0; [| done]. exists eB0.
      injection HfB as HfB. split; [done |]. split; [congruence |].
      apply H1. unfold hasEntry, pathsOf. by rewrite He. }
    destruct (S2 X p k Hk1 Hnone) as [-> [[_ Ht] | [-> (B & _ & Ht)]]].
    + assert (k = typeA) as ->.
      { destruct Ht as (e & He & _ & Hv). unfold hasEntry, pathsOf in Hk1.
        rewrite He in Hk1. congruence. }
      destruct (Hrival X Ht) as (eX0 & HX0 & Hne & _).
      exists A, eX0, eA0. split_and!; [done | done | congruence |].
      by apply H1.
    + assert (k = typeA) as -> by (unfold hasEntry in Hk1; congruence).
      destruct (Hrival B Ht) as (eB0 & HB0 & Hne & HBk).
      by exists B, eA0, eB0.
Qed.

(** X7: whatever the types of the candidates and the iteration order,
    [makeUniquePaths] deletes an entry of a candidate only when a
    candidate of another type held the same entry at the start; and when
    all the candidates are of one type it deletes nothing. *)
Theorem makeUniquePaths_deletes_only_shared (cp : candidateMap) (seed : Seed) :
  (∀ X p k,
     hasEntry cp X p k →
     ¬ hasEntry (makeUniquePaths rangeOrder nextSeed cp seed).2 X p k →
     ∃ Y, rival cp X Y p k) ∧
  (sameTypes cp → (makeUniquePaths rangeOrder nextSeed cp seed).2 = cp).
Proof using rangeOrder_perm.
  split; [apply makeUniquePaths_rival |].
  intros Hsame.
  destruct (makeUniquePaths_sub rangeOrder nextSeed rangeOrder_perm cp seed)
    as [Hfst Hsub].
  apply candidateMap_eq; [done |]. intros X p k. split; [apply Hsub |].
  intros Hk.
  destruct (decide (hasEntry (makeUniquePaths rangeOrder nextSeed cp seed).2 X p k))
    as [| Hnk]; [done |].
  destruct (makeUniquePaths_rival cp seed X p k Hk Hnk)
    as (Y & eX & eY & HX & HY & Hne & _).
  destruct Hne. by eapply Hsame.
Qed.

(** X8: when no two candidates are of the same type, the maps
    [makeUniquePaths] returns share no entry, and running
    [makeUniquePaths] on them again changes nothing. *)
Theorem makeUniquePaths_settles (cp : candidateMap) (seed : Seed) :
  distinctTypes cp →
  disjointPaths (makeUniquePaths rangeOrder nextSeed cp seed).2 ∧
  ∀ seed',
    (makeUniquePaths rangeOrder nextSeed
       (makeUniquePaths rangeOrder nextSeed cp seed).2 seed').2
    = (makeUniquePaths rangeOrder nextSeed cp seed).2.
Proof using rangeOrder_perm.
  intros Hdist.
  destruct (makeUniquePaths_pruned rangeOrder nextSeed rangeOrder_perm cp seed Hdist)
    as [_ Hset].
  apply settled_disjoint in Hset. split; [done |].
  intros seed'. by apply makeUniquePaths_disjoint.
Qed.
End FingerprintFacts.

Section TwoRuntimes.
Context {Seed Seed' : Type}.
Variable rangeOrder : ∀ A : Type, Seed → list A → list A.
Variable nextSeed : Seed → Seed.
Variable rangeOrder' : ∀ A : Type, Seed' → list A → list A.
Variable nextSeed' : Seed' → Seed'.
Hypothesis rangeOrder_perm : ∀ A seed (l : list A), rangeOrder A seed l ≡ₚ l.
Hypothesis rangeOrder_perm' : ∀ A seed (l : list A), rangeOrder' A seed l ≡ₚ l.

(** X9: when no two candidates are of the same type, the maps
    [makeUniquePaths] returns do not depend on the order in which the
    runtime ranges over the maps. *)
Theorem makeUniquePaths_order_independent (cp : candidateMap) (seed : Seed)
    (seed' : Seed') :
  distinctTypes cp →
  (makeUniquePaths rangeOrder nextSeed cp seed).2
  = (makeUniquePaths rangeOrder' nextSeed' cp seed').2.
Proof using rangeOrder_perm rangeOrder_perm'.
  intros Hdist. apply candidateMap_eq.
  - intros X.
    destruct (makeUniquePaths_sub rangeOrder nextSeed rangeOrder_perm cp seed)
      as [-> _].
    by destruct (makeUniquePaths_sub rangeOrder' nextSeed' rangeOrder_perm' cp seed')
      as [-> _].
  - intros X p k.
    rewrite (makeUniquePaths_unique rangeOrder nextSeed rangeOrder_perm cp seed Hdist).
    by rewrite (makeUniquePaths_unique rangeOrder' nextSeed' rangeOrder_perm' cp seed'
                  Hdist).
Qed.
End TwoRuntimes.

(** ** The parameters *)

Lemma settings_Get_insert (m : gmap N bool) (s key : N) :
  settings_Get (<[s := true]> m) key = settings_Get m key || bool_decide (s = key).
Proof.
  unfold settings_Get. destruct (decide (s = key)) as [-> | Hne].
  - rewrite lookup_insert_eq, bool_decide_eq_true_2 by done. by rewrite orb_true_r.
  - rewrite lookup_insert_ne, bool_decide_eq_false_2 by done. by rewrite orb_false_r.
Qed.

Lemma newEnvLoop_spec (params : list Parameter_) :
  ∀ env : environment,
    match newEnvLoop params env with
    | Done env' =>
        (nilParameter ∉ params) ∧ (∀ name, foreignParam name ∉ params) ∧
        length (option_list (env_fallback env) ++ fallbacksOf params) ≤ 1 ∧
        selectors env' = selectors env ++ selectorsOf params ∧
        candidates env' = candidates env ++ candidatesOf params ∧
        (∀ s, settings_Get (settings env') s
              = settings_Get (settings env) s || bool_decide (settingParam s ∈ params)) ∧
        env_fallback env' = head (option_list (env_fallback env) ++ fallbacksOf params) ∧
        verbose env' = verbose env
    | Fail err =>
        ¬ ((nilParameter ∉ params) ∧ (∀ name, foreignParam name ∉ params) ∧
           length (option_list (env_fallback env) ++ fallbacksOf params) ≤ 1) ∧
        loopError err
    | Panic _ => False
    end.
Proof.
  induction params as [| p params IH]; intros env.
  { cbn [newEnvLoop selectorsOf candidatesOf fallbacksOf omap list_omap].
    rewrite !app_nil_r. split_and!; try done.
    - apply not_elem_of_nil.
    - intros name. apply not_elem_of_nil.
    - destruct (env_fallback env); cbn; lia.
    - intros s. rewrite bool_decide_eq_false_2 by apply not_elem_of_nil.
      by rewrite orb_false_r.
    - by destruct (env_fallback env). }
  destruct p as [| ref s | ref c | s | ref f | name]; cbn [newEnvLoop].
  - split; [| by left]. intros (Hnil & _). apply Hnil. by left.
  - match goal with |- context [newEnvLoop params ?e] => specialize (IH e) end.
    destruct (newEnvLoop params _) as [env' | err |]; [| | done];
      cbn [selectors candidates settings env_fallback verbose] in IH;
      cbn [selectorsOf candidatesOf fallbacksOf omap list_omap];
      fold (selectorsOf params) (candidatesOf params) (fallbacksOf params).
    + destruct IH as (H1 & H2 & H3 & H4 & H5 & H6 & H7 & H8).
      split_and!; try done.
      * rewrite not_elem_of_cons. by split.
      * intros name. rewrite not_elem_of_cons. by split.
      * by rewrite H4, <-app_assoc.
      * intros s0. rewrite H6. f_equal. apply bool_decide_ext.
        rewrite elem_of_cons. split; [tauto |]. by intros [? | ?].
    + destruct IH as [Hnot Herr]. split; [| done].
      intros (H1 & H2 & H3). apply Hnot. split_and!; try done.
      * by apply not_elem_of_cons in H1 as [_ ?].
      * intros name. specialize (H2 name). by apply not_elem_of_cons in H2 as [_ ?].
  - match goal with |- context [newEnvLoop params ?e] => specialize (IH e) end.
    destruct (newEnvLoop params _) as [env' | err |]; [| | done];
      cbn [selectors candidates settings env_fallback verbose] in IH;
      cbn [selectorsOf candidatesOf fallbacksOf omap list_omap];
      fold (selectorsOf params) (candidatesOf params) (fallbacksOf params).
    + destruct IH as (H1 & H2 & H3 & H4 & H5 & H6 & H7 & H8).
      split_and!; try done.
      * rewrite not_elem_of_cons. by split.
      * intros name. rewrite not_elem_of_cons. by split.
      * by rewrite H5, <-app_assoc.
      * intros s0. rewrite H6. f_equal. apply bool_decide_ext.
        rewrite elem_of_cons. split; [tauto |]. by intros [? | ?].
    + destruct IH as [Hnot Herr]. split; [| done].
      intros (H1 & H2 & H3). apply Hnot. split_and!; try done.
      * by apply not_elem_of_cons in H1 as [_ ?].
      * intros name. specialize (H2 name). by apply not_elem_of_cons in H2 as [_ ?].
  - match goal with |- context [newEnvLoop params ?e] => specialize (IH e) end.
    destruct (newEnvLoop params _) as [env' | err |]; [| | done];
      cbn [selectors candidates settings env_fallback verbose] in IH;
      cbn [selectorsOf candidatesOf fallbacksOf omap list_omap];
      fold (selectorsOf params) (candidatesOf params) (fallbacksOf params).
    + destruct IH as (H1 & H2 & H3 & H4 & H5 & H6 & H7 & H8).
      split_and!; try done.
      * rewrite not_elem_of_cons. by split.
      * intros name. rewrite not_elem_of_cons. by split.
      * intros s0. rewrite H6, settings_Get_insert, <-orb_assoc. f_equal.
        destruct (decide (s = s0)) as [-> | Hne].
        -- rewrite (bool_decide_eq_true_2 (s0 = s0)) by done.
           cbn [orb]. symmetry. apply bool_decide_eq_true_2. by left.
        -- rewrite (bool_decide_eq_false_2 (s = s0)) by done. cbn [orb].
           apply bool_decide_ext. rewrite elem_of_cons.
           split; [tauto |]. intros [[=] | ?]; done.
    + destruct IH as [Hnot Herr]. split; [| done].
      intros (H1 & H2 & H3). apply Hnot. split_and!; try done.
      * by apply not_elem_of_cons in H1 as [_ ?].
      * intros name. specialize (H2 name). by apply not_elem_of_cons in H2 as [_ ?].
  - cbn [selectorsOf candidatesOf fallbacksOf omap list_omap];
      fold (selectorsOf params) (candidatesOf params) (fallbacksOf params).
    destruct (env_fallback env) as [old |] eqn:Hold.
    { split; [| by left]. intros (_ & _ & Hlen). cbn in Hlen. lia. }
    match goal with |- context [newEnvLoop params ?e] => specialize (IH e) end.
    destruct (newEnvLoop params _) as [env' | err |]; [| | done];
      cbn [selectors candidates settings env_fallback verbose option_list app] in *.
    + destruct IH as (H1 & H2 & H3 & H4 & H5 & H6 & H7 & H8).
      split_and!; try done.
      * rewrite not_elem_of_cons. by split.
      * intros name. rewrite not_elem_of_cons. by split.
      * intros s0. rewrite H6. f_equal. apply bool_decide_ext.
        rewrite elem_of_cons. split; [tauto |]. by intros [? | ?].
    + destruct IH as [Hnot Herr]. split; [| done].
      intros (H1 & H2 & H3). apply Hnot. split_and!; try done.
      * by apply not_elem_of_cons in H1 as [_ ?].
      * intros name0. specialize (H2 name0). by apply not_elem_of_cons in H2 as [_ ?].
  - split; [| right; by exists name]. intros (_ & Hf & _). apply (Hf name). by left.
Qed.

Lemma newEnv_cases (params : list Parameter_) :
  wellFormed params →
  (candidatesOf params = [] ∧
   newEnv params = Fail (errors.New (str "at least one candidate must be defined")))
  ∨ (candidatesOf params ≠ [] ∧
     ∃ env, newEnv params = Done env ∧ candidates env = candidatesOf params).
Proof.
  intros Hwf. unfold newEnv, wellFormed in *.
  pose proof (newEnvLoop_spec params emptyEnv) as Hloop.
  destruct (newEnvLoop params emptyEnv) as [env | err |]; [| | done];
    cbn [emptyEnv selectors candidates settings env_fallback verbose option_list app]
      in Hloop.
  - destruct Hloop as (_ & _ & _ & _ & H5 & _).
    destruct (candidatesOf params) as [| c cs] eqn:Hcs.
    + left. split; [done |]. rewrite decide_True; [done |]. by rewrite H5.
    + right. split; [done |]. rewrite decide_False by (by rewrite H5).
      destruct (settings_Get _ _); eexists; (split; [reflexivity | done]).
  - by destruct Hloop as [[] _].
Qed.

Lemma newEnv_Done_inv (params : list Parameter_) (env : environment) :
  newEnv params = Done env →
  wellFormed params ∧ candidatesOf params ≠ [] ∧ candidates env = candidatesOf params.
Proof.
  unfold newEnv, wellFormed.
  pose proof (newEnvLoop_spec params emptyEnv) as Hloop.
  destruct (newEnvLoop params emptyEnv) as [env' | err |]; [| done | done];
    cbn [emptyEnv selectors candidates settings env_fallback verbose option_list app]
      in Hloop.
  destruct Hloop as (H1 & H2 & H3 & _ & H5 & _).
  case_decide as Hlen; [done |].
  assert (candidatesOf params ≠ []).
  { intros Hnil. apply Hlen. by rewrite H5, Hnil. }
  destruct (settings_Get _ _); intros [= <-]; done.
Qed.

(** X10: the outcome of [newEnv].  For parameters none of which is nil
    or of a foreign type and at most one of which is a default, it returns
    the environment holding the selectors and the candidates in the order
    given, the settings passed, the default, and the verbose logger exactly
    when [EnableDebug()] is among them; unless there is no candidate, which
    is the error [at least one candidate must be defined].  For other
    parameters it fails with one of the two errors of its loop. *)
Theorem newEnv_outcome (params : list Parameter_) :
  (wellFormed params → candidatesOf params ≠ [] →
   ∃ env, newEnv params = Done env ∧
          selectors env = selectorsOf params ∧
          candidates env = candidatesOf params ∧
          (∀ s, settings_Get (settings env) s = bool_decide (settingParam s ∈ params)) ∧
          env_fallback env = head (fallbacksOf params) ∧
          verbose env = bool_decide (EnableDebug ∈ params)) ∧
  (wellFormed params → candidatesOf params = [] →
   newEnv params
   = Fail (errors.New (str "at least one candidate must be defined"))) ∧
  (¬ wellFormed params → ∃ err, newEnv params = Fail err ∧ loopError err).
Proof.
  unfold newEnv, wellFormed.
  pose proof (newEnvLoop_spec params emptyEnv) as Hloop.
  destruct (newEnvLoop params emptyEnv) as [env | err |]; [| | done];
    cbn [emptyEnv selectors candidates settings env_fallback verbose option_list app]
      in Hloop.
  - destruct Hloop as (H1 & H2 & H3 & H4 & H5 & H6 & H7 & H8).
    split_and!.
    + intros _ Hsome. rewrite decide_False by (by rewrite H5; destruct (candidatesOf params)).
      assert (Hverb : settings_Get (settings env) enableVerbose
                      = bool_decide (EnableDebug ∈ params)) by apply H6.
      destruct (settings_Get (settings env) enableVerbose); eexists;
        (split; [reflexivity |]);
        cbn [selectors candidates settings env_fallback verbose]; split_and!; done.
    + intros _ Hnone. rewrite decide_True; [done |]. by rewrite H5, Hnone.
    + intros Hnot. by destruct Hnot.
  - destruct Hloop as [Hnot Herr]. split_and!; try done. intros _. by exists err.
Qed.

(** ** The engine, continued *)

Lemma candidatesOf_elem (params : list Parameter_) (ref : positive) (c : candidate) :
  (ref, c) ∈ candidatesOf params ↔ candidateParam ref c ∈ params.
Proof.
  unfold candidatesOf. rewrite list_elem_of_omap. split.
  - intros (p & Hp & Hsome). destruct p; try discriminate. by injection Hsome as -> ->.
  - intros Hp. by exists (candidateParam ref c).
Qed.

Section WalkableFacts.
Variable lowerCase : N → N.

Lemma buildPathsForRoot_walkable (t : reflect.Type_) :
  (∃ paths, buildPathsForRoot lowerCase t = Done paths) ↔ walkable t.
Proof.
  unfold walkable. split.
  - intros [paths Hwalk]. unfold buildPathsForRoot in Hwalk.
    case_decide as Hkind; [done |].
    try apply dec_stable in Hkind. split; [done |].
    apply KindOf_Struct in Hkind as (name & fields & ->).
    cbn [VisibleFields reflect.shapeOf walkOrderRoot] in *.
    pose proof (buildPathsForRootFields_walk lowerCase fields ∅) as Hout.
    destruct (List.find stopsWalk _) as [ty |]; [| done].
    destruct (unsupportedKind _); [destruct Hout as [name' Hout] |]; congruence.
  - intros [(name & fields & ->)%KindOf_Struct Hstop].
    rewrite buildPathsForRoot_struct. cbn [walkOrderRoot reflect.shapeOf] in Hstop.
    pose proof (buildPathsForRootFields_walk lowerCase fields ∅) as Hout.
    by rewrite Hstop in Hout.
Qed.
End WalkableFacts.

Section EngineFacts.
Variable lowerCase : N → N.
Context {Seed : Type}.
Variable rangeOrder : ∀ A : Type, Seed → list A → list A.
Variable nextSeed : Seed → Seed.
Hypothesis rangeOrder_perm : ∀ A seed (l : list A), rangeOrder A seed l ≡ₚ l.
Context {Decoded : Type}.
Variable ParseBytes : list Byte.byte → gjson.Result.
Variable json_Unmarshal : list Byte.byte → reflect.Type_ → Decoded + error.

Lemma buildCandidatePaths_Done (cs : list (positive * candidate)) :
  ∀ (cpaths : candidateMap) (seed : Seed),
    (∀ x, x ∈ cs → walkable (typ x.2)) →
    ∃ s, buildCandidatePaths lowerCase nextSeed cs cpaths seed = Done s.
Proof.
  induction cs as [| c cs IH]; intros cpaths seed Hall; [by eexists |].
  cbn [buildCandidatePaths].
  destruct (proj2 (buildPathsForRoot_walkable lowerCase (typ c.2))) as [paths ->].
  { apply Hall. by left. }
  apply IH. intros x Hx. apply Hall. by right.
Qed.

Lemma buildCandidatePaths_inv (cs : list (positive * candidate)) :
  ∀ (cpaths : candidateMap) (seed : Seed) (s : Seed * candidateMap),
    buildCandidatePaths lowerCase nextSeed cs cpaths seed = Done s →
    (∀ x, x ∈ cs → walkable (typ x.2)) ∧
    (∀ x, x ∈ cs → is_Some (s.2 !! x.1)) ∧
    (∀ X, is_Some (cpaths !! X) → is_Some (s.2 !! X)) ∧
    ∀ X e, s.2 !! X = Some e →
           cpaths !! X = Some e
           ∨ ((X, e.1) ∈ cs ∧ buildPathsForRoot lowerCase (typ e.1) = Done e.2).
Proof.
  induction cs as [| c cs IH]; intros cpaths seed s; cbn [buildCandidatePaths].
  { intros [= <-]. split_and!; try done.
    - intros x Hx. by apply elem_of_nil in Hx.
    - intros x Hx. by apply elem_of_nil in Hx.
    - intros X e HX. by left. }
  destruct (buildPathsForRoot lowerCase (typ c.2)) as [paths | |] eqn:Hwalk;
    try done.
  intros (H1 & H2 & H3 & H4)%IH. split_and!.
  - intros x [-> | Hx]%elem_of_cons; [| by apply H1].
    apply (buildPathsForRoot_walkable lowerCase). by exists paths.
  - intros x [-> | Hx]%elem_of_cons; [| by apply H2].
    apply H3. by rewrite lookup_insert_eq.
  - intros X HX. apply H3. destruct (decide (c.1 = X)) as [-> | Hne].
    + by rewrite lookup_insert_eq.
    + by rewrite lookup_insert_ne.
  - intros X e HX. destruct (H4 X e HX) as [Hins | [Hin Hw]].
    + destruct (decide (c.1 = X)) as [<- | Hne].
      * rewrite lookup_insert_eq in Hins. injection Hins as <-. right.
        split; [| done]. destruct c. by left.
      * rewrite lookup_insert_ne in Hins by done. by left.
    + right. split; [by right | done].
Qed.

Lemma New_inv (params : list Parameter_) (seed : Seed) (u : Unmarshaler) :
  New lowerCase rangeOrder nextSeed params seed = Done u →
  ∃ env s,
    newEnv params = Done env ∧
    buildCandidatePaths lowerCase nextSeed (candidates env) ∅ seed = Done s ∧
    u = {| resolver := asResolver rangeOrder nextSeed
             {| paths := (makeUniquePaths rangeOrder nextSeed s.2 s.1).2 |} |}.
Proof.
  unfold New, newTraverseResolver.
  destruct (newEnv params) as [env | |]; try done.
  destruct (buildCandidatePaths _ _ _ _ _) as [s | |] eqn:Hbuild; try done.
  intros [= <-]. by exists env, s.
Qed.

(** The fingerprint of a candidate is a part of the walk of its type. *)
Lemma New_fingerprints (params : list Parameter_) (seed : Seed) (u : Unmarshaler) :
  New lowerCase rangeOrder nextSeed params seed = Done u →
  ∃ r, u = {| resolver := asResolver rangeOrder nextSeed r |} ∧
       (∀ ref c, candidateParam ref c ∈ params → is_Some (paths r !! ref)) ∧
       ∀ ref e, paths r !! ref = Some e →
         candidateParam ref e.1 ∈ params ∧
         ∃ full, buildPathsForRoot lowerCase (typ e.1) = Done full ∧
                 ∀ p k, e.2 !! p = Some k → full !! p = Some k.
Proof using rangeOrder_perm.
  intros (env & s & Henv & Hbuild & ->)%New_inv.
  apply newEnv_Done_inv in Henv as (_ & _ & Hcs). rewrite Hcs in Hbuild.
  apply buildCandidatePaths_inv in Hbuild as (_ & H2 & _ & H4).
  destruct (makeUniquePaths_sub rangeOrder nextSeed rangeOrder_perm s.2 s.1)
    as [Hfst Hsub].
  eexists. split; [done |]. cbn [paths]. split.
  - intros ref c Hin%candidatesOf_elem. specialize (H2 _ Hin) as [e He].
    specialize (Hfst ref). cbn [fst] in *. rewrite He in Hfst.
    by destruct (_ !! ref).
  - intros ref e He. pose proof (Hfst ref) as Hf. rewrite He in Hf.
    destruct (s.2 !! ref) as [e0 |] eqn:He0; [| done]. injection Hf as Hf.
    destruct (H4 ref e0 He0) as [Hempty | [Hin Hwalk]]; [done |].
    rewrite Hf. split; [by apply candidatesOf_elem |].
    exists e0.2. split; [done |]. intros p k Hk.
    specialize (Hsub ref p k). unfold hasEntry, pathsOf in Hsub.
    rewrite He, He0 in Hsub. by apply Hsub.
Qed.

(** X11: [New] returns an engine exactly when no parameter is nil or of
    a foreign type, at most one is a default, at least one is a
    candidate, and the type of every candidate is a struct whose walk
    meets no type of an unsupported kind and no pointer. *)
Theorem New_succeeds_iff (params : list Parameter_) (seed : Seed) :
  (∃ u, New lowerCase rangeOrder nextSeed params seed = Done u)
  ↔ wellFormed params ∧ candidatesOf params ≠ []
    ∧ ∀ ref c, candidateParam ref c ∈ params → walkable (typ c).
Proof.
  split.
  - intros [u (env & s & Henv & Hbuild & _)%New_inv].
    apply newEnv_Done_inv in Henv as (Hwf & Hne & Hcs). rewrite Hcs in Hbuild.
    apply buildCandidatePaths_inv in Hbuild as (H1 & _).
    split_and!; try done. intros ref c Hin%candidatesOf_elem. by apply (H1 _ Hin).
  - intros (Hwf & Hne & Hall).
    destruct (newEnv_cases params Hwf) as [[? _] | (_ & env & Henv & Hcs)]; [done |].
    unfold New, newTraverseResolver. rewrite Henv, Hcs.
    destruct (buildCandidatePaths_Done (candidatesOf params) ∅ seed) as [s ->];
      [| by eexists].
    intros [ref c] Hin%candidatesOf_elem. by eapply Hall.
Qed.

(** X12: when the first candidate whose walk does not get to its end
    is of a type that is not a struct, [New] fails with the error
    [resolver: <type>: not a struct], which does not wrap
    [ErrUnsupportedType]. *)
Theorem New_not_a_struct (params pre post : list Parameter_) (ref : positive)
    (c : candidate) (seed : Seed) :
  wellFormed params →
  params = pre ++ candidateParam ref c :: post →
  (∀ ref' c', candidateParam ref' c' ∈ pre → walkable (typ c')) →
  reflect.KindOf (typ c) ≠ reflect.Struct →
  New lowerCase rangeOrder nextSeed params seed
  = Fail (wrapError [ArgS (str "resolver: ")]
            (wrapError [ArgT (typ c); ArgS (str ": ")]
               (errors.New (str "not a struct")) []) []) ∧
  errors.Is (wrapError [ArgS (str "resolver: ")]
               (wrapError [ArgT (typ c); ArgS (str ": ")]
                  (errors.New (str "not a struct")) []) [])
    ErrUnsupportedType = false.
Proof.
  intros Hwf -> Hpre Hkind. split; [| done].
  assert (Hcs : candidatesOf (pre ++ candidateParam ref c :: post)
                = candidatesOf pre ++ (ref, c) :: candidatesOf post).
  { unfold candidatesOf. by rewrite omap_app. }
  destruct (newEnv_cases _ Hwf) as [[Hnil _] | (_ & env & Henv & Henvcs)].
  { rewrite Hcs in Hnil. by destruct (candidatesOf pre). }
  unfold New, newTraverseResolver. rewrite Henv, Henvcs, Hcs.
  rewrite (buildCandidatePaths_stop lowerCase nextSeed (candidatesOf pre)
             (candidatesOf post) (ref, c) ∅ seed
             (errors.New (str "not a struct"))); [done | |].
  - intros [ref' c'] Hin%candidatesOf_elem.
    apply (buildPathsForRoot_walkable lowerCase). by eapply Hpre.
  - cbn [snd]. unfold buildPathsForRoot. by rewrite decide_True.
Qed.


(** X14: in an engine returned by [New] every candidate passed has a
    fingerprint; every fingerprint belongs to a candidate passed, and
    each of its entries is an entry of the path map [buildPathsForRoot]
    builds for the type of that candidate, tagged neither [Null] nor
    [True]. *)
Theorem New_fingerprints_from_walk (params : list Parameter_) (seed : Seed)
    (u : Unmarshaler) :
  New lowerCase rangeOrder nextSeed params seed = Done u →
  ∃ r, u = {| resolver := asResolver rangeOrder nextSeed r |} ∧
       (∀ ref c, candidateParam ref c ∈ params → is_Some (paths r !! ref)) ∧
       ∀ ref e p k, paths r !! ref = Some e → e.2 !! p = Some k →
         candidateParam ref e.1 ∈ params ∧
         (∃ full, buildPathsForRoot lowerCase (typ e.1) = Done full ∧
                  full !! p = Some k) ∧
         k ≠ gjson.Null ∧ k ≠ gjson.True.
Proof using rangeOrder_perm.
  intros (r & -> & Hall & Hsub)%New_fingerprints.
  exists r. split; [done |]. split; [done |].
  intros ref e p k He Hk. destruct (Hsub ref e He) as (Hin & full & Hwalk & Hfull).
  split; [done |]. split; [by eauto |].
  apply (buildPathsForRoot_invariant lowerCase
           (λ _ k, k ≠ gjson.Null ∧ k ≠ gjson.True) (λ _, True)) in Hwalk;
    try done.
  by apply (Hwalk p k), Hfull.
Qed.

(** X15: the outcomes of [UnmarshalJSON] on a fingerprint resolver.
    A root that is not tagged [JSON] gives the error
    [invalid json: not an object]; otherwise, when no fingerprint entry
    is met, [ErrNoMatch]; otherwise the result of decoding the buffer
    into the type of a candidate one of whose entries is met, the
    decoder's error wrapped with [unmarshall: ]. *)
Theorem UnmarshalJSON_outcomes (r : traverseResolver) (b : list Byte.byte)
    (seed : Seed) :
  (gjson.ResultType (ParseBytes b) ≠ gjson.JSON ∧
   UnmarshalJSON ParseBytes json_Unmarshal
     {| resolver := asResolver rangeOrder nextSeed r |} b seed
   = Fail (errors.New (str "invalid json: not an object")))
  ∨ (gjson.ResultType (ParseBytes b) = gjson.JSON ∧
     (∀ c e p k, paths r !! c = Some e → e.2 !! p = Some k →
                 gjson.GetType (ParseBytes b) p ≠ k) ∧
     UnmarshalJSON ParseBytes json_Unmarshal
       {| resolver := asResolver rangeOrder nextSeed r |} b seed
     = Fail ErrNoMatch)
  ∨ (gjson.ResultType (ParseBytes b) = gjson.JSON ∧
     ∃ c e p k, paths r !! c = Some e ∧ e.2 !! p = Some k ∧
                gjson.GetType (ParseBytes b) p = k ∧
                UnmarshalJSON ParseBytes json_Unmarshal
                  {| resolver := asResolver rangeOrder nextSeed r |} b seed
                = match json_Unmarshal b (typ e.1) with
                  | inl v => Done v
                  | inr err => Fail (wrapError [ArgS (str "unmarshall: ")] err [])
                  end).
Proof using rangeOrder_perm.
  unfold UnmarshalJSON. cbv zeta. case_decide as Hroot; [by left | right].
  try apply dec_stable in Hroot. cbn [resolver asResolver ResolveJSON].
  destruct (ResolveJSON_spec rangeOrder nextSeed rangeOrder_perm r (ParseBytes b) seed)
    as [(c & e & p & k & Hc & Hp & Hk & ->) | [Hnone ->]].
  - right. split; [done |]. by exists c, e, p, k.
  - left. by split.
Qed.


(** X17: a document in which every path leads to nothing, to [null] or
    to [true] resolves to no candidate in every engine [New] returns,
    and [UnmarshalJSON] returns [ErrNoMatch] for it. *)
Theorem New_rejects_null_true (params : list Parameter_) (seed seed' : Seed)
    (u : Unmarshaler) (res : gjson.Result) :
  New lowerCase rangeOrder nextSeed params seed = Done u →
  (∀ p, gjson.GetType res p = gjson.Null ∨ gjson.GetType res p = gjson.True) →
  ResolveJSON (resolver u) res seed' = (None, None) ∧
  ∀ b, ParseBytes b = res → gjson.ResultType res = gjson.JSON →
       UnmarshalJSON ParseBytes json_Unmarshal u b seed' = Fail ErrNoMatch.
Proof using rangeOrder_perm.
  intros (r & -> & _ & Hsub)%New_fingerprints Hdoc.
  cbn [resolver asResolver ResolveJSON].
  assert (Hres : traverseResolver_ResolveJSON rangeOrder nextSeed r res seed'
                 = (None, None)).
  { destruct (ResolveJSON_spec rangeOrder nextSeed rangeOrder_perm r res seed')
      as [(c & e & p & k & Hc & Hp & Hk & _) | [_ ->]]; [exfalso | done].
    destruct (Hsub c e Hc) as (_ & full & Hwalk & Hfull).
    apply (buildPathsForRoot_invariant lowerCase
             (λ _ k, k ≠ gjson.Null ∧ k ≠ gjson.True) (λ _, True)) in Hwalk;
      try done.
    destruct (Hwalk p k (Hfull p k Hp)) as [Hnull Htrue].
    destruct (Hdoc p); congruence. }
  split; [done |]. intros b Hb Hroot. unfold UnmarshalJSON. cbv zeta.
  rewrite Hb, decide_False by (by intros []).
  cbn [resolver asResolver ResolveJSON]. by rewrite Hres.
Qed.

(** X18: [UnmarshalJSON] returns the error
    [invalid json: not an object] exactly for the documents whose root is
    neither an object nor an array. *)
Theorem UnmarshalJSON_root_kinds (u : Unmarshaler) (b : list Byte.byte)
    (seed : Seed) (v : gjson.Value) :
  ParseBytes b = gjson.resultOf v →
  (UnmarshalJSON ParseBytes json_Unmarshal u b seed
   = Fail (errors.New (str "invalid json: not an object"))
   ↔ (∀ members, v ≠ gjson.VObject members) ∧ (∀ elems, v ≠ gjson.VArray elems)).
Proof.
  intros Hb. unfold UnmarshalJSON. cbv zeta. rewrite Hb.
  cbn [gjson.resultOf gjson.ResultType]. split.
  - case_decide as Hroot.
    { intros _. split; intros ? ->; by apply Hroot. }
    destruct (ResolveJSON _ _ _) as [[t |] [err |]]; try done.
    by destruct (json_Unmarshal b t).
  - intros [Hobj Harr]. rewrite decide_True; [done |].
    destruct v; try done; [by destruct (Harr elems) | by destruct (Hobj members)].
Qed.
End EngineFacts.

Section EngineExact.
Variable lowerCase : N → N.
Context {Seed : Type}.
Variable rangeOrder : ∀ A : Type, Seed → list A → list A.
Variable nextSeed : Seed → Seed.
Hypothesis rangeOrder_perm : ∀ A seed (l : list A), rangeOrder A seed l ≡ₚ l.

Lemma buildCandidatePaths_Fail (cs : list (positive * candidate)) :
  ∀ (cpaths : candidateMap) (seed : Seed) (err : error),
    buildCandidatePaths lowerCase nextSeed cs cpaths seed = Fail err →
    ∃ x e, x ∈ cs ∧ buildPathsForRoot lowerCase (typ x.2) = Fail e ∧
           err = wrapError [ArgT (typ x.2); ArgS (str ": ")] e [].
Proof.
  induction cs as [| c cs IH]; intros cpaths seed err; cbn [buildCandidatePaths];
    [done |].
  destruct (buildPathsForRoot lowerCase (typ c.2)) as [paths | e |] eqn:Hwalk.
  - intros (x & e & Hx & He)%IH. exists x, e. split; [by right | done].
  - intros [= <-]. exists c, e. split; [by left | done].
  - done.
Qed.

(** X19: an error returned by [New] is either the error of [newEnv]
    wrapped with [invalid parameters: ], or the error of
    [buildPathsForRoot] for the type of a candidate passed, wrapped with
    that type and then with [resolver: ]. *)
Theorem New_failure (params : list Parameter_) (seed : Seed) (err : error) :
  New lowerCase rangeOrder nextSeed params seed = Fail err →
  (∃ e, newEnv params = Fail e ∧
        err = wrapError [ArgS (str "invalid parameters: ")] e [])
  ∨ (∃ ref c e, candidateParam ref c ∈ params ∧
                buildPathsForRoot lowerCase (typ c) = Fail e ∧
                err = wrapError [ArgS (str "resolver: ")]
                        (wrapError [ArgT (typ c); ArgS (str ": ")] e []) []).
Proof.
  unfold New, newTraverseResolver.
  destruct (newEnv params) as [env | e |] eqn:Henv; [| | done].
  - apply newEnv_Done_inv in Henv as (_ & _ & ->).
    destruct (buildCandidatePaths _ _ _ _ _) as [s | e |] eqn:Hbuild; try done.
    intros [= <-]. right.
    apply buildCandidatePaths_Fail in Hbuild as ([ref c] & e' & Hin & Hwalk & ->).
    exists ref, c, e'. split; [by apply candidatesOf_elem | done].
  - intros [= <-]. left. by exists e.
Qed.

(** X20: when every address holds one candidate and no two candidates
    are of the same type, the fingerprint of a candidate in the engine
    [New] returns holds exactly the entries of the path map of its type
    that are in the path map of no other candidate. *)
Theorem New_fingerprint_exact (params : list Parameter_) (seed : Seed)
    (u : Unmarshaler (Seed:=Seed)) :
  New lowerCase rangeOrder nextSeed params seed = Done u →
  (∀ ref c c', candidateParam ref c ∈ params → candidateParam ref c' ∈ params →
               c = c') →
  (∀ ref ref' c c', candidateParam ref c ∈ params →
                    candidateParam ref' c' ∈ params → ref ≠ ref' →
                    typ c ≠ typ c') →
  ∃ r, u = {| resolver := asResolver rangeOrder nextSeed r |} ∧
       (∀ ref e, paths r !! ref = Some e → candidateParam ref e.1 ∈ params) ∧
       ∀ ref c, candidateParam ref c ∈ params →
         ∃ fingerprint,
           paths r !! ref = Some (c, fingerprint) ∧
           ∀ p k, fingerprint !! p = Some k
                  ↔ (∃ full, buildPathsForRoot lowerCase (typ c) = Done full ∧
                             full !! p = Some k) ∧
                    ∀ ref' c' full', candidateParam ref' c' ∈ params → ref' ≠ ref →
                      buildPathsForRoot lowerCase (typ c') = Done full' →
                      full' !! p ≠ Some k.
Proof using rangeOrder_perm.
  intros (env & s & Henv & Hbuild & ->)%New_inv Hfun Hdist.
  apply newEnv_Done_inv in Henv as (_ & _ & Hcs). rewrite Hcs in Hbuild.
  apply buildCandidatePaths_inv in Hbuild as (_ & H2 & _ & H4).
  assert (Hs : ∀ X e, s.2 !! X = Some e →
                      candidateParam X e.1 ∈ params ∧
                      buildPathsForRoot lowerCase (typ e.1) = Done e.2).
  { intros X e He. destruct (H4 X e He) as [? | [Hin ?]]; [done |].
    split; [by apply candidatesOf_elem | done]. }
  assert (Hs' : ∀ ref c, candidateParam ref c ∈ params →
                         ∃ full, s.2 !! ref = Some (c, full) ∧
                                 buildPathsForRoot lowerCase (typ c) = Done full).
  { intros ref c Hin. destruct (H2 (ref, c)) as [[c0 full] He];
      [by apply candidatesOf_elem |]. cbn [fst] in He.
    destruct (Hs ref _ He) as [Hin0 Hwalk]. cbn [fst snd] in *.
    rewrite (Hfun ref c c0 Hin Hin0). by exists full. }
  assert (Hd : distinctTypes s.2).
  { intros a b ea eb Ha Hb Hab. destruct (Hs a ea Ha) as [Hina _].
    destruct (Hs b eb Hb) as [Hinb _]. by eapply Hdist. }
  pose proof (makeUniquePaths_unique rangeOrder nextSeed rangeOrder_perm s.2 s.1 Hd)
    as Huniq.
  destruct (makeUniquePaths_sub rangeOrder nextSeed rangeOrder_perm s.2 s.1)
    as [Hfst _].
  set (cp := (makeUniquePaths rangeOrder nextSeed s.2 s.1).2) in *.
  exists {| paths := cp |}. split; [done |]. cbn [paths]. split.
  - intros ref e He. specialize (Hfst ref). rewrite He in Hfst.
    destruct (s.2 !! ref) as [e0 |] eqn:He0; [| done]. injection Hfst as ->.
    by apply (Hs ref e0).
  - intros ref c Hin. destruct (Hs' ref c Hin) as (full & Hfull & Hwalk).
    pose proof (Hfst ref) as Hf. rewrite Hfull in Hf.
    destruct (cp !! ref) as [[c0 fp] |] eqn:Hcp; [| done]. injection Hf as ->.
    exists fp. split; [done |]. intros p k.
    assert (Hfp : fp !! p = Some k ↔ hasEntry cp ref p k).
    { unfold hasEntry, pathsOf. by rewrite Hcp. }
    rewrite Hfp, Huniq. unfold hasEntry, pathsOf. rewrite Hfull. cbn [snd].
    split.
    + intros [Hk Hother]. split; [by exists full |].
      intros ref' c' full' Hin' Hne Hwalk' Hk'.
      destruct (Hs' ref' c' Hin') as (full0 & Hfull0 & Hwalk0).
      apply (Hother ref' Hne). rewrite Hfull0. cbn [snd]. congruence.
    + intros [(full0 & Hwalk0 & Hk) Hother]. split; [congruence |].
      intros Y HY HYk. destruct (s.2 !! Y) as [[cY fullY] |] eqn:HeY;
        [| by rewrite lookup_empty in HYk].
      destruct (Hs Y _ HeY) as [HinY HwalkY]. cbn [fst snd] in *.
      by apply (Hother Y cY fullY).
Qed.
End EngineExact.

(** ** The choice among matching candidates *)

Lemma pickOrder_perm : ∀ A (seed : list nat) (l : list A), pickOrder A seed l ≡ₚ l.
Proof.
  intros A seed l. unfold pickOrder.
  rewrite (comm (++)). by rewrite take_drop.
Qed.

Lemma position_drop `{EqDecision K} {V : Type} (k : K) (es : list (K * V)) :
  k ∈ es.*1 → ∃ v rest, drop (position k es) es = (k, v) :: rest.
Proof.
  induction es as [| [k' v'] es IH]; cbn [position fmap list_fmap fst].
  { by intros ?%elem_of_nil. }
  destruct (decide (k' = k)) as [-> | Hne]; [by eauto |].
  intros [? | Hin]%elem_of_cons; [done |]. by apply IH.
Qed.

(** The loop that starts at a live entry at which the body returns, returns
    there. *)
Lemma range_pick `{Countable K} {V X R : Type} (m : gmap K V)
    (body : K → V → list nat * X → flow (list nat * X) R) (k : K) (v : V)
    (seed : list nat) (x : X) :
  m !! k = Some v →
  range pickOrder pickNext (λ _, m) body (position k (map_to_list m) :: seed, x)
  = match body k v (seed, x) with
    | Return r => Return r
    | Break s' => Next s'
    | Next s' =>
        rangeEntries (λ _, m) body
          (tail (pickOrder _ [position k (map_to_list m)] (map_to_list m))) s'
    end.
Proof.
  intros Hk. unfold range, pickOrder. cbn [fst snd hd pickNext tail].
  destruct (position_drop k (map_to_list m)) as (v' & rest & Hdrop).
  { apply list_elem_of_fmap. exists (k, v). split; [done |].
    by apply elem_of_map_to_list. }
  rewrite Hdrop. cbn [app rangeEntries fst snd tail].
  assert (v' = v) as ->.
  { assert (Hin : (k, v') ∈ map_to_list m).
    { apply (subseteq_drop (position k (map_to_list m))). rewrite Hdrop. by left. }
    apply elem_of_map_to_list in Hin. congruence. }
  by rewrite Hk.
Qed.

(** X21: [pickOrder] is an order a runtime may range in, and for every
    candidate with a fingerprint entry that the document meets there is a
    state of it in which [ResolveJSON] returns the type of that candidate:
    among several candidates that match, the iteration order chooses. *)
Theorem ResolveJSON_any_match_possible :
  (∀ A (seed : list nat) (l : list A), pickOrder A seed l ≡ₚ l) ∧
  ∀ (r : traverseResolver) (res : gjson.Result) (c : positive)
    (e : candidate * jsonPaths) (p : gostring) (k : gjson.Type_),
    paths r !! c = Some e → e.2 !! p = Some k → gjson.GetType res p = k →
    traverseResolver_ResolveJSON pickOrder pickNext r res
      [position c (map_to_list (paths r)); position p (map_to_list e.2)]
    = (Some (typ e.1), None).
Proof.
  split; [apply pickOrder_perm |].
  intros r res c e p k Hc Hp Hk. unfold traverseResolver_ResolveJSON.
  rewrite (range_pick (paths r) _ c e) by done.
  rewrite (range_pick e.2 _ p k) by done.
  by rewrite decide_True.
Qed.

(** ** The program of [cmd/main.go] *)

Lemma mainPaths_entries (X : positive) (p : gostring) (k : gjson.Type_) :
  hasEntry mainPaths X p k
  ↔ (X = 1%positive ∧ ((p = str "foo" ∧ k = gjson.String)
                       ∨ (p = str "shared" ∧ k = gjson.Number)))
    ∨ (X = 2%positive ∧ ((p = str "bar" ∧ k = gjson.String)
                         ∨ (p = str "shared" ∧ k = gjson.Number))).
Proof.
  assert (str "shared" ≠ str "bar") by (vm_compute; discriminate).
  assert (str "shared" ≠ str "foo") by (vm_compute; discriminate).
  unfold hasEntry, pathsOf, mainPaths.
  destruct (decide (X = 2%positive)) as [-> | H2].
  { rewrite lookup_insert_eq. cbn [snd].
    rewrite !lookup_insert_Some, lookup_empty. intuition congruence. }
  rewrite lookup_insert_ne by done.
  destruct (decide (X = 1%positive)) as [-> | H1].
  { rewrite lookup_insert_eq. cbn [snd].
    rewrite !lookup_insert_Some, lookup_empty. intuition congruence. }
  rewrite lookup_insert_ne by done. rewrite !lookup_empty. intuition congruence.
Qed.

Lemma mainPaths_distinct : distinctTypes mainPaths.
Proof.
  intros a b ea eb Ha Hb Hab. unfold mainPaths in *.
  apply lookup_insert_Some in Ha as [[<- <-] | [? Ha]];
    apply lookup_insert_Some in Hb as [[<- <-] | [? Hb]]; try done;
    repeat match goal with
      | H : <[_ := _]> _ !! _ = Some _ |- _ =>
          apply lookup_insert_Some in H as [[<- <-] | [? H]]
      | H : ∅ !! _ = Some _ |- _ => by rewrite lookup_empty in H
      end; try done.
Qed.

Section Main.
Variable lowerCase : N → N.
Context {Seed : Type}.
Variable rangeOrder : ∀ A : Type, Seed → list A → list A.
Variable nextSeed : Seed → Seed.
Hypothesis rangeOrder_perm : ∀ A seed (l : list A), rangeOrder A seed l ≡ₚ l.
Context {Decoded : Type}.
Variable ParseBytes : list Byte.byte → gjson.Result.
Variable json_Unmarshal : list Byte.byte → reflect.Type_ → Decoded + error.

Lemma New_mainParams (seed : Seed) :
  New lowerCase rangeOrder nextSeed mainParams seed
  = Done {| resolver := asResolver rangeOrder nextSeed
              {| paths := (makeUniquePaths rangeOrder nextSeed mainPaths
                             (nextSeed (nextSeed seed))).2 |} |}.
Proof.
  unfold New, newTraverseResolver.
  change (newEnv mainParams) with
    (Done {| selectors := []; candidates := [(1%positive, mkCandidate s1);
                                             (2%positive, mkCandidate s2)];
             settings := <[enableVerbose := true]> ∅; env_fallback := None;
             verbose := true |}).
  cbn [candidates buildCandidatePaths fst snd typ].
  assert (H1 : buildPathsForRoot lowerCase s1
               = Done (<[str "shared" := gjson.Number]>
                         (<[str "foo" := gjson.String]> ∅))) by (by vm_compute).
  assert (H2 : buildPathsForRoot lowerCase s2
               = Done (<[str "shared" := gjson.Number]>
                         (<[str "bar" := gjson.String]> ∅))) by (by vm_compute).
  by rewrite H1, H2.
Qed.

(** X22: the program of [cmd/main.go].  In every iteration order [New]
    returns an engine for its parameters, the document of [main] resolves
    to [s1], and [UnmarshalJSON] returns what decoding the buffer into
    [s1] gives: the result is of the type [main] asserts. *)
Theorem main_decodes_s1 (seed seed' : Seed) (b : list Byte.byte) :
  ParseBytes b = mainDoc →
  ∃ u, New lowerCase rangeOrder nextSeed mainParams seed = Done u ∧
       ResolveJSON (resolver u) mainDoc seed' = (Some s1, None) ∧
       UnmarshalJSON ParseBytes json_Unmarshal u b seed'
       = match json_Unmarshal b s1 with
         | inl v => Done v
         | inr err => Fail (wrapError [ArgS (str "unmarshall: ")] err [])
         end.
Proof using rangeOrder_perm.
  intros Hb. eexists. split; [apply New_mainParams |].
  set (cp := (makeUniquePaths rangeOrder nextSeed mainPaths
                (nextSeed (nextSeed seed))).2).
  pose proof (makeUniquePaths_unique rangeOrder nextSeed rangeOrder_perm mainPaths
                (nextSeed (nextSeed seed)) mainPaths_distinct) as Huniq.
  destruct (makeUniquePaths_sub rangeOrder nextSeed rangeOrder_perm mainPaths
              (nextSeed (nextSeed seed))) as [Hfst _].
  fold cp in Huniq, Hfst.
  assert (Hres : traverseResolver_ResolveJSON rangeOrder nextSeed {| paths := cp |}
                   mainDoc seed' = (Some s1, None)).
  { destruct (ResolveJSON_spec rangeOrder nextSeed rangeOrder_perm {| paths := cp |}
                mainDoc seed')
      as [(c & e & p & k & Hc & Hp & Hk & ->) | [Hnone _]]; cbn [paths] in *.
    - assert (Hek : hasEntry cp c p k) by (unfold hasEntry, pathsOf; by rewrite Hc).
      apply Huniq in Hek as [Hin Hother].
      apply mainPaths_entries in Hin as [[-> Hin] | [-> Hin]].
      + specialize (Hfst 1%positive). rewrite Hc in Hfst.
        change (fst <$> mainPaths !! 1%positive) with (Some (mkCandidate s1)) in Hfst.
        injection Hfst as ->. done.
      + exfalso. destruct Hin as [[-> ->] | [-> ->]]; [by vm_compute in Hk |].
        apply (Hother 1%positive); [done |]. apply mainPaths_entries. tauto.
    - exfalso.
      assert (Hek : hasEntry cp 1 (str "foo") gjson.String).
      { apply Huniq. split; [apply mainPaths_entries; tauto |].
        intros Y HY [[-> _] | [_ [[Hp _] | [Hp _]]]]%mainPaths_entries;
          [done | by vm_compute in Hp | by vm_compute in Hp]. }
      apply hasEntry_lookup in Hek as (e & He & Hp).
      by apply (Hnone 1%positive e (str "foo") gjson.String). }
  split; [done |]. unfold UnmarshalJSON. cbv zeta. rewrite Hb.
  rewrite decide_False by (by intros []).
  cbn [resolver asResolver ResolveJSON]. by rewrite Hres.
Qed.
End Main.


(** *** Further instances of the general statements *)

Lemma inReverse_perm : ∀ A (seed : ()) (l : list A), inReverse A seed l ≡ₚ l.
Proof. intros A seed l. apply reverse_Permutation. Qed.

Lemma segments_cons (path acc : gostring) :
  ∃ seg segs, gjson.segments acc path = seg :: segs.
Proof.
  revert acc. induction path as [| c path IH]; intros acc; cbn [gjson.segments].
  - by eexists _, _.
  - case_decide; [by eexists _, _ | apply IH].
Qed.

Lemma emptyDoc_Null (p : gostring) : gjson.GetType emptyDoc p = gjson.Null.
Proof.
  unfold emptyDoc, gjson.resultOf. cbn [gjson.GetType].
  by destruct (segments_cons p []) as (seg & segs & ->).
Qed.

Ltac not_in_list :=
  let H := fresh in
  intros H; repeat (apply elem_of_cons in H as [H | H]; [discriminate |]);
  by apply elem_of_nil in H.

Lemma mainParams_wellFormed : wellFormed mainParams.
Proof. split_and!; [not_in_list | intros name; not_in_list | cbn; lia]. Qed.


Lemma mainParams_candidates (ref : positive) (c : candidate) :
  candidateParam ref c ∈ mainParams →
  (ref = 1%positive ∧ c = mkCandidate s1) ∨ (ref = 2%positive ∧ c = mkCandidate s2).
Proof.
  intros H. unfold mainParams, Candidate, EnableDebug in H.
  apply elem_of_cons in H as [[= -> ->] | H]; [by left |].
  apply elem_of_cons in H as [[= -> ->] | H]; [by right |].
  apply elem_of_cons in H as [[=] | H]. by apply elem_of_nil in H.
Qed.

Lemma buildPathsForRoot_tags_witness :
  ∃ paths, buildPathsForRoot (λ r, r) s1 = Done paths ∧
           paths !! str "foo" = Some gjson.String ∧
           (gjson.String = gjson.False ∨ gjson.String = gjson.Number
            ∨ gjson.String = gjson.String ∨ gjson.String = gjson.JSON).
Proof.
  eexists. split; [reflexivity |]. split; [reflexivity |].
  eapply (buildPathsForRoot_tags (λ r, r) s1 _ (str "foo") gjson.String);
    reflexivity.
Defined.

Lemma buildPathsForRoot_plain_paths_witness :
  ∃ paths, buildPathsForRoot (λ r, r) job_t = Done paths ∧
           is_Some (paths !! str "hooks.name") ∧
           Forall plainChar (str "hooks.name").
Proof.
  eexists. split; [reflexivity |]. split; [by eexists |].
  eapply (buildPathsForRoot_plain_paths (λ r, r) job_t _ (str "hooks.name")).
  - intros r Hr. unfold unicode.isUpperASCII, unicode.MaxASCII in *.
    destruct (N.leb_spec r 90); [lia |]. by rewrite andb_false_r.
  - reflexivity.
  - by eexists.
Defined.

Lemma buildPathsForRoot_entries_witness :
  buildPathsForRoot (λ r, r) s1 = Done (written ∅ (rootEntries (λ r, r) s1)) ∧
  rootEntries (λ r, r) s1 = [(str "foo", gjson.String); (str "shared", gjson.Number)].
Proof.
  split; [| reflexivity].
  apply (buildPathsForRoot_entries (λ r, r) s1); reflexivity.
Defined.

Lemma makeUniquePaths_deletes_only_shared_witness :
  (∀ X p k,
     hasEntry twins X p k →
     ¬ hasEntry (makeUniquePaths inOrder (λ s, s) twins ()).2 X p k →
     ∃ Y, rival twins X Y p k) ∧
  (sameTypes twins → (makeUniquePaths inOrder (λ s, s) twins ()).2 = twins).
Proof.
  exact (makeUniquePaths_deletes_only_shared inOrder (λ s, s) inOrder_perm twins ()).
Defined.

Lemma makeUniquePaths_settles_witness :
  disjointPaths (makeUniquePaths inOrder (λ s, s) twins ()).2 ∧
  ∀ seed',
    (makeUniquePaths inOrder (λ s, s)
       (makeUniquePaths inOrder (λ s, s) twins ()).2 seed').2
    = (makeUniquePaths inOrder (λ s, s) twins ()).2.
Proof.
  exact (makeUniquePaths_settles inOrder (λ s, s) inOrder_perm twins ()
           twins_distinct).
Defined.

Lemma makeUniquePaths_order_independent_witness :
  (makeUniquePaths inOrder (λ s, s) twins ()).2
  = (makeUniquePaths inReverse (λ s, s) twins ()).2.
Proof.
  exact (makeUniquePaths_order_independent inOrder (λ s, s) inReverse (λ s, s)
           inOrder_perm inReverse_perm twins () () twins_distinct).
Defined.

Lemma New_not_a_struct_witness :
  New (λ r, r) inOrder (λ s, s) [Candidate 1 s1; Candidate 2 int_t] ()
  = Fail (wrapError [ArgS (str "resolver: ")]
            (wrapError [ArgT int_t; ArgS (str ": ")]
               (errors.New (str "not a struct")) []) []).
Proof.
  refine (proj1 (New_not_a_struct (λ r, r) inOrder (λ s, s)
                   [Candidate 1 s1; Candidate 2 int_t] [Candidate 1 s1] []
                   2%positive (mkCandidate int_t) () _ _ _ _)).
  - split_and!; [not_in_list | intros name; not_in_list | cbn; lia].
  - reflexivity.
  - intros ref' c' H. apply list_elem_of_singleton in H. injection H as -> ->.
    split; reflexivity.
  - discriminate.
Defined.


Lemma New_mainParams_inOrder :
  ∃ u, New (λ r, r) inOrder (λ s, s) mainParams () = Done u.
Proof. eexists. reflexivity. Defined.

Lemma New_fingerprints_from_walk_witness :
  ∃ u r, New (λ r, r) inOrder (λ s, s) mainParams () = Done u ∧
         u = {| resolver := asResolver inOrder (λ s, s) r |} ∧
         ∀ ref e p k, paths r !! ref = Some e → e.2 !! p = Some k →
                      candidateParam ref e.1 ∈ mainParams ∧ k ≠ gjson.Null
                      ∧ k ≠ gjson.True.
Proof.
  destruct New_mainParams_inOrder as [u Hu].
  destruct (New_fingerprints_from_walk (λ r, r) inOrder (λ s, s) inOrder_perm
              mainParams () u Hu) as (r & Hr & _ & H).
  exists u, r. split; [done |]. split; [done |].
  intros ref e p k He Hk. destruct (H ref e p k He Hk) as (? & _ & ? & ?). done.
Defined.

Lemma UnmarshalJSON_outcomes_witness :
  gjson.ResultType (parseAs (gjson.VString (str "x")) []) ≠ gjson.JSON ∧
  UnmarshalJSON (parseAs (gjson.VString (str "x"))) rejectAll
    {| resolver := asResolver inOrder (λ s, s) {| paths := strangers |} |} [] ()
  = Fail (errors.New (str "invalid json: not an object")).
Proof.
  destruct (UnmarshalJSON_outcomes inOrder (λ s, s) inOrder_perm
              (parseAs (gjson.VString (str "x"))) rejectAll
              {| paths := strangers |} [] ())
    as [H | [[H _] | [H _]]]; [exact H | discriminate H | discriminate H].
Defined.


Lemma New_rejects_null_true_witness :
  ∃ u, New (λ r, r) inOrder (λ s, s) mainParams () = Done u ∧
       ResolveJSON (resolver u) emptyDoc () = (None, None) ∧
       UnmarshalJSON (parseAs (gjson.VObject [])) rejectAll u [] ()
       = Fail ErrNoMatch.
Proof.
  destruct New_mainParams_inOrder as [u Hu]. exists u. split; [done |].
  destruct (New_rejects_null_true (λ r, r) inOrder (λ s, s) inOrder_perm
              (parseAs (gjson.VObject [])) rejectAll mainParams () () u emptyDoc Hu)
    as [Hres Hun].
  - intros p. left. apply emptyDoc_Null.
  - split; [done |]. by apply Hun.
Defined.

Lemma UnmarshalJSON_root_kinds_witness :
  UnmarshalJSON (parseAs (gjson.VNumber (str "1"))) rejectAll
    {| resolver := asResolver inOrder (λ s, s) {| paths := strangers |} |} [] ()
  = Fail (errors.New (str "invalid json: not an object")).
Proof.
  apply (UnmarshalJSON_root_kinds (parseAs (gjson.VNumber (str "1"))) rejectAll
           {| resolver := asResolver inOrder (λ s, s) {| paths := strangers |} |}
           [] () (gjson.VNumber (str "1"))); [reflexivity |].
  split; discriminate.
Defined.

Lemma main_decodes_s1_witness :
  ∃ u, New (λ r, r) inOrder (λ s, s) mainParams () = Done u ∧
       ResolveJSON (resolver u) mainDoc () = (Some s1, None) ∧
       UnmarshalJSON (λ _, mainDoc) rejectAll u [] ()
       = Fail (wrapError [ArgS (str "unmarshall: ")] (errors.New (str "rejected")) []).
Proof.
  apply (main_decodes_s1 (λ r, r) inOrder (λ s, s) inOrder_perm (λ _, mainDoc)
           rejectAll () () []).
  reflexivity.
Defined.

Lemma ResolveJSON_any_match_possible_witness :
  traverseResolver_ResolveJSON pickOrder pickNext {| paths := strangers |} bothDoc
    [position 1%positive (map_to_list strangers);
     position (str "foo") (map_to_list ({[ str "foo" := gjson.String ]} : jsonPaths))]
  = (Some s1, None) ∧
  traverseResolver_ResolveJSON pickOrder pickNext {| paths := strangers |} bothDoc
    [position 2%positive (map_to_list strangers);
     position (str "bar") (map_to_list ({[ str "bar" := gjson.String ]} : jsonPaths))]
  = (Some s2, None).
Proof.
  assert (H1 : strangers !! 1%positive
               = Some (mkCandidate s1, ({[ str "foo" := gjson.String ]} : jsonPaths)))
    by (vm_compute; reflexivity).
  assert (H2 : strangers !! 2%positive
               = Some (mkCandidate s2, ({[ str "bar" := gjson.String ]} : jsonPaths)))
    by (vm_compute; reflexivity).
  assert (F1 : ({[ str "foo" := gjson.String ]} : jsonPaths) !! str "foo"
               = Some gjson.String) by (vm_compute; reflexivity).
  assert (F2 : ({[ str "bar" := gjson.String ]} : jsonPaths) !! str "bar"
               = Some gjson.String) by (vm_compute; reflexivity).
  assert (G1 : gjson.GetType bothDoc (str "foo") = gjson.String)
    by (vm_compute; reflexivity).
  assert (G2 : gjson.GetType bothDoc (str "bar") = gjson.String)
    by (vm_compute; reflexivity).
  split.
  - exact (proj2 ResolveJSON_any_match_possible {| paths := strangers |} bothDoc
             1%positive (mkCandidate s1, {[ str "foo" := gjson.String ]}) (str "foo")
             gjson.String H1 F1 G1).
  - exact (proj2 ResolveJSON_any_match_possible {| paths := strangers |} bothDoc
             2%positive (mkCandidate s2, {[ str "bar" := gjson.String ]}) (str "bar")
             gjson.String H2 F2 G2).
Defined.

Lemma New_failure_witness :
  ∃ err, New (λ r, r) inOrder (λ s, s) [Candidate 1 callback_t] () = Fail err ∧
         ((∃ e, newEnv [Candidate 1 callback_t] = Fail e ∧
                err = wrapError [ArgS (str "invalid parameters: ")] e [])
          ∨ (∃ ref c e, candidateParam ref c ∈ [Candidate 1 callback_t] ∧
                        buildPathsForRoot (λ r, r) (typ c) = Fail e ∧
                        err = wrapError [ArgS (str "resolver: ")]
                                (wrapError [ArgT (typ c); ArgS (str ": ")] e []) [])).
Proof.
  eexists. split; [reflexivity |].
  apply (New_failure (λ r, r) inOrder (λ s, s) [Candidate 1 callback_t] ()).
  reflexivity.
Defined.

Lemma New_fingerprint_exact_witness :
  ∃ u r, New (λ r, r) inOrder (λ s, s) mainParams () = Done u ∧
         u = {| resolver := asResolver inOrder (λ s, s) r |} ∧
         ∃ fingerprint,
           paths r !! 1%positive = Some (mkCandidate s1, fingerprint) ∧
           fingerprint !! str "foo" = Some gjson.String ∧
           fingerprint !! str "shared" = None.
Proof.
  destruct New_mainParams_inOrder as [u Hu].
  destruct (New_fingerprint_exact (λ r, r) inOrder (λ s, s) inOrder_perm
              mainParams () u Hu) as (r & Hr & _ & H).
  - intros ref c c' [[-> ->] | [-> ->]]%mainParams_candidates
      [[Hr' ->] | [Hr' ->]]%mainParams_candidates; done.
  - intros ref ref' c c' [[-> ->] | [-> ->]]%mainParams_candidates
      [[-> ->] | [-> ->]]%mainParams_candidates; try done;
      intros _ Heq; by vm_compute in Heq.
  - exists u, r. split; [done |]. split; [done |].
    destruct (H 1%positive (mkCandidate s1)) as (fp & Hfp & Hiff); [by left |].
    exists fp. split; [done |]. split.
    + apply Hiff. split; [eexists; split; reflexivity |].
      intros ref' c' full' [[-> ->] | [-> ->]]%mainParams_candidates Hne; [done |].
      intros [= <-]. done.
    + destruct (fp !! str "shared") as [k |] eqn:Hk; [exfalso | done].
      apply Hiff in Hk as [(full & [= <-] & Hfull) Hother].
      injection Hfull as <-.
      apply (Hother 2%positive (mkCandidate s2)
               (<[str "shared" := gjson.Number]> {[ str "bar" := gjson.String ]}));
        [by right; left | done | reflexivity | reflexivity].
Defined.
